(** * Live-migration helpers of the libvirt driver
    (nova/virt/libvirt/migration.py)

    A shallow embedding of the helpers and the properties of the abort
    policy, the downtime scheduler, the outcome resolver and the guest
    descriptor patch. *)

From stdpp Require Import gmap strings list sorting.
From Stdlib Require Import ZArith.

Local Open Scope Z_scope.

(** ** The hypervisor binding

    The module-level name [libvirt] of the source is bound by the driver to
    the libvirt python binding.  Only its exception class and a few of its
    constants are used. *)

Module libvirt.

(** [libvirt.libvirtError]: carries the numeric error code returned by
    [get_error_code()] and a message. *)
Record libvirtError : Type := mklibvirtError {
  get_error_code : Z;
  get_error_message : string }.

(** [virErrorNumber]: "Domain not found". *)
Definition VIR_ERR_NO_DOMAIN : Z := 42.

(** [virDomainJobType], the two constants the source returns. *)
Inductive virDomainJobType : Type :=
| VIR_DOMAIN_JOB_COMPLETED
| VIR_DOMAIN_JOB_FAILED.

End libvirt.
Export libvirt.

(** The outcome of a call into the guest object: it returns a value or
    raises [libvirt.libvirtError]. *)
Inductive outcome (A : Type) : Type :=
| Returns (a : A)
| Raises (ex : libvirtError).
Arguments Returns {A} a.
Arguments Raises {A} ex.

(** [try: body except libvirt.libvirtError as ex: handler ex]. *)
Definition try_except {A : Type} (body : outcome A)
    (handler : libvirtError → outcome A) : outcome A :=
  match body with
  | Returns a => Returns a
  | Raises ex => handler ex
  end.

(** Sequencing of a call with the rest of a function body: an exception
    that is not handled unwinds. *)
Definition and_then {A B : Type} (c : outcome A) (k : A → outcome B)
    : outcome B :=
  match c with
  | Returns a => k a
  | Raises ex => Raises ex
  end.

(** The part of [nova.virt.libvirt.guest.Guest] used here.  [is_active] is
    the outcome of the activity query on the current host, and
    [migrate_configure_max_downtime] the outcome of asking the hypervisor
    for a new maximum downtime. *)
Record Guest : Type := mkGuest {
  is_active : outcome bool;
  migrate_configure_max_downtime : Z → outcome unit }.

(** ** find_job_type *)

Definition find_job_type (guest : Guest) : outcome virDomainJobType :=
  try_except
    (and_then (is_active guest) (fun active =>
       if active then Returns VIR_DOMAIN_JOB_FAILED
       else Returns VIR_DOMAIN_JOB_COMPLETED))
    (fun ex =>
       if get_error_code ex =? VIR_ERR_NO_DOMAIN
       then Returns VIR_DOMAIN_JOB_COMPLETED
       else Returns VIR_DOMAIN_JOB_FAILED).

(** ** should_abort

    Times and timeouts are seconds, as integers. *)

Definition should_abort (now progress_time progress_timeout
    elapsed completion_timeout : Z) : bool :=
  if negb (progress_timeout =? 0) && (now - progress_time >? progress_timeout)
  then true
  else if negb (completion_timeout =? 0) && (elapsed >? completion_timeout)
  then true
  else false.

(** ** update_downtime

    A downtime step is the tuple (time marker, downtime value); the current
    downtime is an integer or [None]. *)

Definition step : Type := (Z * Z)%type.

(** The scan of lines 229-232: [thisstep] is rebound at every step whose
    marker is exceeded. *)
Definition scan_steps (downtime_steps : list step) (elapsed : Z)
    : option step :=
  foldl (fun thisstep st => if elapsed >? st.1 then Some st else thisstep)
        None downtime_steps.

(** The result of [update_downtime]: what the call returns (or raises) and
    the values passed to [guest.migrate_configure_max_downtime], in call
    order. *)
Record downtime_result : Type := mkDowntimeResult {
  returned : outcome (option Z);
  applied : list Z }.

Definition update_downtime (guest : Guest) (olddowntime : option Z)
    (downtime_steps : list step) (elapsed : Z) : downtime_result :=
  match scan_steps downtime_steps elapsed with
  | None => mkDowntimeResult (Returns olddowntime) []
  | Some thisstep =>
      if bool_decide (Some thisstep.2 = olddowntime)
      then mkDowntimeResult (Returns olddowntime) []
      else
        let call :=
          try_except (migrate_configure_max_downtime guest thisstep.2)
                     (fun e => Returns tt) in
        mkDowntimeResult (and_then call (fun _ => Returns (Some thisstep.2)))
                         [thisstep.2]
  end.

(** A guest that is running here and whose hypervisor refuses every
    downtime. *)
Definition failing_guest : Guest :=
  mkGuest (Returns true) (fun _ => Raises (mklibvirtError 1 "internal error")).

(** The selection as the specification words it: the last entry, in
    sequence order, whose threshold is strictly less than [elapsed]. *)
Definition last_step_below (downtime_steps : list step) (elapsed : Z)
    : option step :=
  last (filter (fun st => st.1 < elapsed) downtime_steps).

Local Close Scope Z_scope.

(** ** The descriptor tree

    What [lxml.etree] holds in the [tag] of a node: the name of an
    element, or, for a comment, a processing instruction and an entity
    reference, the factory function of the node kind, which is not a
    string and equals no name. *)
Inductive Tag : Type :=
| Name (name : string)
| Comment
| ProcessingInstruction
| Entity.

Coercion Name : string >-> Tag.

#[global] Instance Tag_eq_dec : EqDecision Tag.
Proof. solve_decision. Defined.

(** Whether a tag is a string, that is, whether its node is an element. *)
Definition is_name (t : Tag) : bool :=
  match t with
  | Name _ => true
  | _ => false
  end.

(** A node of an [lxml.etree] tree: tag, attribute dictionary, text, tail
    (the text that follows the node inside its parent) and the children in
    document order.  The children are what iterating the node, [list] and
    [insert] see: elements, comments, processing instructions and entity
    references alike.  A node that is not an element keeps its content in
    [text] and has neither attributes nor children. *)

#[warnings="-register-all"]
Inductive Element : Type := mkElement {
  tag : Tag;
  attrib : gmap string string;
  text : option string;
  tail : option string;
  children : list Element }.

Definition with_attrib (a : gmap string string) (e : Element) : Element :=
  mkElement (tag e) a (text e) (tail e) (children e).

Definition with_tail (t : option string) (e : Element) : Element :=
  mkElement (tag e) (attrib e) (text e) t (children e).

Definition with_children (cs : list Element) (e : Element) : Element :=
  mkElement (tag e) (attrib e) (text e) (tail e) cs.

(** The node reached from [e] by following child indices. *)
Fixpoint node_at (path : list nat) (e : Element) : option Element :=
  match path with
  | [] => Some e
  | i :: path => children e !! i ≫= node_at path
  end.

(** Exceptions a patch can end with.  [OtherError] stands for whatever the
    destination-descriptor provider raises; [OutOfFuel] is not a Python
    exception: it marks a model loop that was given too few iterations. *)
Inductive exn : Type :=
| TypeError
| KeyError
| ValueError
| UnboundLocalError
| OtherError (detail : string)
| OutOfFuel.

Inductive result (A : Type) : Type :=
| Ok (a : A)
| Raise (e : exn).
Arguments Ok {A} a.
Arguments Raise {A} e.

#[global] Instance result_ret : MRet result := λ A a, Ok a.
#[global] Instance result_bind : MBind result := λ A B k m,
  match m with
  | Ok a => k a
  | Raise e => Raise e
  end.

(** [Element.get(key)]. *)
Definition get (e : Element) (key : string) : option string :=
  attrib e !! key.

(** [Element.set(key, value)], where [value] is a Python string or [None].
    lxml encodes the value on assignment and refuses [None] with a
    [TypeError]. *)
Definition set (e : Element) (key : string) (value : option string)
    : result Element :=
  match value with
  | None => Raise TypeError
  | Some v => Ok (with_attrib (<[key:=v]> (attrib e)) e)
  end.

(** Whether a node is an element, not a comment, a processing instruction
    or an entity reference. *)
Definition is_element (e : Element) : bool :=
  is_name (tag e).

Definition has_tag (t : string) (e : Element) : bool :=
  bool_decide (tag e = t).

(** [Element.find(tag)]: the first child element with that tag, with its
    index among the children. *)
Definition find (e : Element) (t : string) : option (nat * Element) :=
  list_find (λ c, tag c = t) (children e).

(** [Element.findtext(tag)]: [None] when there is no such child, and the
    empty string when the child has no text. *)
Definition findtext (e : Element) (t : string) : option string :=
  (λ ic, default EmptyString (text ic.2)) <$> find e t.

(** The children selected by [Element.findall(tag)] for a tag that is a
    name: the child elements of that name, so never a node of another
    kind. *)
Definition findall (cs : list Element) (t : Tag) : list Element :=
  filter (λ c, tag c = t) cs.

(** [Element.findall(path)] called with the [tag] of some node as its
    path: a path that is not a string is refused with a [TypeError]. *)
Definition findall_path (cs : list Element) (path : Tag)
    : result (list Element) :=
  if is_name path then Ok (findall cs path) else Raise TypeError.

(** [list.insert(i, x)] for a non-negative index: past the end it
    appends. *)
Definition insert_at {A : Type} (i : nat) (x : A) (l : list A) : list A :=
  take i l ++ x :: drop i l.

(** [for dev in e.findall(step): body dev], where the body mutates [dev] in
    place: the selected children are distinct nodes, visited in document
    order, so the loop rebuilds the child list node by node and stops at
    the first exception. *)
Definition each_child {M : Type → Type} `{!MBind M, !MRet M}
    (sel : Element → bool) (body : Element → M Element) (e : Element)
    : M Element :=
  cs ← mapM (λ c, if sel c then body c else mret c) (children e);
  mret (with_children cs e).

(** ** The migration context *)

Section MigrationContext.
Context {ConnInfo DiskInfo : Type}.

(** [LibvirtLiveMigrateBDMInfo]: [connection_info] is [None] when the
    stored value is falsy, [disk_info] is what [as_disk_info()]
    returns. *)
Record BDMInfo : Type := mkBDMInfo {
  serial : string;
  connection_info : option ConnInfo;
  disk_info : DiskInfo }.

(** [LibvirtLiveMigrateData]: an address field is [None] when
    [obj_attr_is_set] is false, and otherwise holds [str] of the
    field. *)
Record MigrateData : Type := mkMigrateData {
  graphics_listen_addr_vnc : option string;
  graphics_listen_addr_spice : option string;
  serial_listen_addr_field : option string;
  bdms : list BDMInfo }.

End MigrationContext.
Arguments BDMInfo : clear implicits.
Arguments MigrateData : clear implicits.

(** ** graphics_listen_addrs, serial_listen_addr *)

(** The dictionary [{'vnc': ..., 'spice': ...}], or [None] when neither
    address is set. *)
Definition graphics_listen_addrs {C D : Type} (migrate_data : MigrateData C D)
    : option (gmap string (option string)) :=
  let vnc := graphics_listen_addr_vnc migrate_data in
  let spice := graphics_listen_addr_spice migrate_data in
  let listen_addrs :=
    if bool_decide (is_Some vnc ∨ is_Some spice)
    then Some (<["spice":=None]> (<["vnc":=None]> ∅))
    else None in
  let listen_addrs :=
    match vnc with
    | Some a => <["vnc":=Some a]> <$> listen_addrs
    | None => listen_addrs
    end in
  match spice with
  | Some a => <["spice":=Some a]> <$> listen_addrs
  | None => listen_addrs
  end.

Definition serial_listen_addr {C D : Type} (migrate_data : MigrateData C D)
    : option string :=
  serial_listen_addr_field migrate_data.

(** The subscript [listen_addrs[gr_type]]: [None] is not subscriptable, and
    a dictionary raises [KeyError] on a missing key. *)
Definition getitem (listen_addrs : option (gmap string (option string)))
    (key : string) : result (option string) :=
  match listen_addrs with
  | None => Raise TypeError
  | Some d =>
      match d !! key with
      | Some v => Ok v
      | None => Raise KeyError
      end
  end.

(** ** _update_graphics_xml *)

(** The body of the loop of lines 68-75 for one [graphics] node. *)
Definition update_graphics_dev
    (listen_addrs : option (gmap string (option string))) (dev : Element)
    : result Element :=
  let listen_tag := find dev "listen" in
  match get dev "type" with
  | Some gr_type =>
      if bool_decide (gr_type = "vnc" ∨ gr_type = "spice") then
        dev ← match listen_tag with
              | Some (i, listen_tag) =>
                  addr ← getitem listen_addrs gr_type;
                  listen_tag ← set listen_tag "address" addr;
                  mret (with_children (<[i:=listen_tag]> (children dev)) dev)
              | None => mret dev
              end;
        match get dev "listen" with
        | Some _ => addr ← getitem listen_addrs gr_type; set dev "listen" addr
        | None => mret dev
        end
      else mret dev
  | None => mret dev
  end.

Definition _update_graphics_xml {C D : Type} (xml_doc : Element)
    (migrate_data : MigrateData C D) : result Element :=
  let listen_addrs := graphics_listen_addrs migrate_data in
  each_child (has_tag "devices")
    (each_child (has_tag "graphics") (update_graphics_dev listen_addrs))
    xml_doc.

(** ** _update_serial_xml *)

(** The body of the loops of lines 81-86 for one [source] node. *)
Definition update_serial_source (listen_addr : option string) (dev : Element)
    : result Element :=
  match get dev "host" with
  | Some _ => set dev "host" listen_addr
  | None => mret dev
  end.

(** The step [name[@type='tcp']] of a path. *)
Definition is_tcp (name : string) (e : Element) : bool :=
  has_tag name e && bool_decide (get e "type" = Some "tcp").

(** One loop over [./devices/name[@type='tcp']/source]. *)
Definition update_tcp_sources (name : string) (listen_addr : option string)
    (xml_doc : Element) : result Element :=
  each_child (has_tag "devices")
    (each_child (is_tcp name)
       (each_child (has_tag "source") (update_serial_source listen_addr)))
    xml_doc.

Definition _update_serial_xml {C D : Type} (xml_doc : Element)
    (migrate_data : MigrateData C D) : result Element :=
  let listen_addr := serial_listen_addr migrate_data in
  xml_doc ← update_tcp_sources "serial" listen_addr xml_doc;
  update_tcp_sources "console" listen_addr xml_doc.

(** ** _update_volume_xml *)

(** [for item_dst in xml_doc2.findall(item_src.tag)] (lines 120-123), for
    the source child found at index [cnt].  [attached] tells whether
    [item_src] is still a child of the disk node: [remove] raises
    [ValueError] for an element that is not. *)
Fixpoint replace_item (cnt : nat) (attached : bool) (matches : list Element)
    (disk_dev : list Element) : result (list Element) :=
  match matches with
  | [] => Ok disk_dev
  | item_dst :: matches =>
      if attached then
        let disk_dev := delete cnt disk_dev in
        let item_dst := with_tail None item_dst in
        let disk_dev := insert_at cnt item_dst disk_dev in
        replace_item cnt false matches disk_dev
      else Raise ValueError
  end.

(** [for cnt, item_src in enumerate(disk_dev)] (lines 117-123) from index
    [cnt] on, over the child list as the body leaves it.  [last] is the
    value the variable [cnt] holds, if any; a child moved into the disk
    node leaves the destination fragment [xml_doc2].  The result is the
    final value of [cnt] and both child lists.  The enumeration yields
    the children that are not elements too, and for such a child the call
    [xml_doc2.findall(item_src.tag)] raises.  The enumeration goes by
    index; lxml goes from a child to its next sibling, which is the same
    child as long as the body leaves the child count alone, and the body
    either does so or raises. *)
Fixpoint replace_loop (fuel : nat) (cnt : nat) (last : option nat)
    (disk_dev xml_doc2 : list Element)
    : result (option nat * list Element * list Element) :=
  match disk_dev !! cnt with
  | None => Ok (last, disk_dev, xml_doc2)
  | Some item_src =>
      match fuel with
      | O => Raise OutOfFuel
      | S fuel =>
          matches ← findall_path xml_doc2 (tag item_src);
          disk_dev ← replace_item cnt true matches disk_dev;
          let xml_doc2 := filter (λ c, tag c ≠ tag item_src) xml_doc2 in
          replace_loop fuel (S cnt) (Some cnt) disk_dev xml_doc2
      end
  end.

(** [for item_dst in list(xml_doc2)] (lines 127-129): every child left in
    the fragment, element or not. *)
Definition insert_rest (cnt : nat) (xml_doc2 disk_dev : list Element)
    : list Element :=
  foldl (λ disk_dev item_dst, insert_at cnt (with_tail None item_dst) disk_dev)
        disk_dev xml_doc2.

(** Python truthiness of a string or [None]. *)
Definition truthy (s : option string) : bool :=
  match s with
  | Some s => negb (bool_decide (s = EmptyString))
  | None => false
  end.

Section Volume.
Context {ConnInfo DiskInfo : Type}.

(** What the volume patch threads through its loop over the disks: the
    arguments of the calls made to [get_volume_config], in call order,
    and the function-level variable [cnt], unbound at first. *)
Record vol_state : Type := mkVolState {
  calls : list (ConnInfo * DiskInfo);
  cnt_var : option nat }.

Definition VM (A : Type) : Type := vol_state → result A * vol_state.

#[global] Instance VM_ret : MRet VM := λ A a st, (Ok a, st).
#[global] Instance VM_bind : MBind VM := λ A B k m st,
  match m st with
  | (Ok a, st) => k a st
  | (Raise e, st) => (Raise e, st)
  end.

(** [get_volume_config(connection_info, disk_info)] followed by
    [etree.XML(conf.to_xml(), parser)]: the destination fragment, or the
    exception raised on the way. *)
Definition provider : Type := ConnInfo → DiskInfo → result Element.

Definition call_provider (get_volume_config : provider)
    (ci : ConnInfo) (di : DiskInfo) : VM Element := λ st,
  (get_volume_config ci di, mkVolState (calls st ++ [(ci, di)]) (cnt_var st)).

(** [bdm_info_by_serial = {x.serial: x for x in migrate_bdm_info}]. *)
Definition bdm_info_by_serial (migrate_bdm_info : list (BDMInfo ConnInfo DiskInfo))
    : gmap string (BDMInfo ConnInfo DiskInfo) :=
  foldl (λ d x, <[serial x := x]> d) ∅ migrate_bdm_info.

(** Lines 117-129 on the children of one disk node. *)
Definition merge_children (disk_dev xml_doc2 : list Element)
    : VM (list Element) := λ st,
  match replace_loop (length disk_dev) 0 (cnt_var st) disk_dev xml_doc2 with
  | Raise e => (Raise e, st)
  | Ok (cnt, disk_dev, xml_doc2) =>
      let st := mkVolState (calls st) cnt in
      match xml_doc2, cnt with
      | [], _ => (Ok disk_dev, st)
      | _ :: _, None => (Raise UnboundLocalError, st)
      | _ :: _, Some cnt => (Ok (insert_rest cnt xml_doc2 disk_dev), st)
      end
  end.

(** The body of the loop of lines 99-129 for one [disk] node. *)
Definition update_disk_dev (get_volume_config : provider)
    (by_serial : gmap string (BDMInfo ConnInfo DiskInfo)) (disk_dev : Element)
    : VM Element :=
  let serial_source := findtext disk_dev "serial" in
  let bdm_info := serial_source ≫= (by_serial !!.) in
  match serial_source, bdm_info with
  | Some serial_source, Some bdm_info =>
      match connection_info bdm_info with
      | Some conn =>
          if bool_decide (is_Some (by_serial !! serial_source)) then
            xml_doc2 ← call_provider get_volume_config conn
                                     (disk_info bdm_info);
            let serial_dest := findtext xml_doc2 "serial" in
            if truthy serial_dest
               && bool_decide (Some serial_source = serial_dest)
            then
              cs ← merge_children (children disk_dev) (children xml_doc2);
              mret (with_children cs disk_dev)
            else mret disk_dev
          else mret disk_dev
      | None => mret disk_dev
      end
  | _, _ => mret disk_dev
  end.

(** The volume patch on a tree, as a computation on [vol_state]. *)
Definition update_volumes (get_volume_config : provider)
    (migrate_data : MigrateData ConnInfo DiskInfo) (xml_doc : Element)
    : VM Element :=
  let by_serial := bdm_info_by_serial (bdms migrate_data) in
  each_child (has_tag "devices")
    (each_child (has_tag "disk") (update_disk_dev get_volume_config by_serial))
    xml_doc.

(** [_update_volume_xml]: the patched tree (or the exception) and the
    calls made to the provider. *)
Definition _update_volume_xml (xml_doc : Element)
    (migrate_data : MigrateData ConnInfo DiskInfo)
    (get_volume_config : provider)
    : result Element * list (ConnInfo * DiskInfo) :=
  let r := update_volumes get_volume_config migrate_data xml_doc
             (mkVolState [] None) in
  (r.1, calls r.2).

(** [get_updated_guest_xml] on the parsed descriptor: the three patches
    in order. *)
Definition get_updated_guest_xml (xml_doc : Element)
    (migrate_data : MigrateData ConnInfo DiskInfo)
    (get_volume_config : provider)
    : result Element * list (ConnInfo * DiskInfo) :=
  match _update_graphics_xml xml_doc migrate_data
          ≫= (λ xml_doc, _update_serial_xml xml_doc migrate_data) with
  | Ok xml_doc => _update_volume_xml xml_doc migrate_data get_volume_config
  | Raise e => (Raise e, [])
  end.

End Volume.
Arguments vol_state : clear implicits.
Arguments VM : clear implicits.
Arguments provider : clear implicits.


(** ** Vocabulary of the statements *)

(** [dev] is the [j]-th child of the [i]-th child of the root, and that
    child of the root is a [devices] element: with a tag test on [dev] this
    is what [./devices/<tag>] selects. *)
Definition device_at (xml_doc : Element) (i j : nat) (dev : Element) : Prop :=
  ∃ devices, children xml_doc !! i = Some devices
             ∧ tag devices = "devices"
             ∧ children devices !! j = Some dev.

(** [src] is the [k]-th child of such a device, selected by
    [./devices/name[@type='tcp']/source]. *)
Definition tcp_source_at (name : string) (xml_doc : Element) (i j k : nat)
    (src : Element) : Prop :=
  ∃ dev, device_at xml_doc i j dev
         ∧ is_tcp name dev = true
         ∧ children dev !! k = Some src
         ∧ tag src = "source".

(** What one step of [each_child] does to a child. *)
Definition visited (sel : Element → bool) (body : Element → result Element)
    (x y : Element) : Prop :=
  if sel x then body x = Ok y else y = x.

(** The listen address the context holds for a graphics type. *)
Definition graphics_address {C D : Type} (migrate_data : MigrateData C D)
    (gr_type : string) : option string :=
  if bool_decide (gr_type = "vnc") then graphics_listen_addr_vnc migrate_data
  else if bool_decide (gr_type = "spice")
       then graphics_listen_addr_spice migrate_data
       else None.

(** ** Sample descriptors *)

Definition leaf (t : string) (a : list (string * string)) : Element :=
  mkElement t (list_to_map a) None None [].

Definition node (t : string) (a : list (string * string))
    (cs : list Element) : Element :=
  mkElement t (list_to_map a) None None cs.

(** A comment [<!--s-->]. *)
Definition comment (s : string) : Element :=
  mkElement Comment ∅ (Some s) None [].

(** A context with no address set and no block device. *)
Definition no_addresses : MigrateData unit unit :=
  mkMigrateData None None None [].

(** [<domain><devices><graphics type='vnc' listen='127.0.0.1'/></devices></domain>] *)
Definition vnc_graphics : Element :=
  leaf "graphics" [("type", "vnc"); ("listen", "127.0.0.1")].

Definition vnc_domain : Element :=
  node "domain" [] [node "devices" [] [vnc_graphics]].

(** [<domain><devices><serial type='tcp'><source host='127.0.0.1'
    mode='bind'/></serial></devices></domain>] *)
Definition tcp_source : Element :=
  leaf "source" [("host", "127.0.0.1"); ("mode", "bind")].

Definition serial_domain : Element :=
  node "domain" []
       [node "devices" [] [node "serial" [("type", "tcp")] [tcp_source]]].

(** The same-tag replacement seen child by child: the children of the disk
    node are taken one after the other, and each takes the destination
    children of its tag out of the fragment; a child that is not an
    element stops the loop with a [TypeError]. *)
Fixpoint merge_loop (disk_dev xml_doc2 : list Element)
    : result (list Element * list Element) :=
  match disk_dev with
  | [] => Ok ([], xml_doc2)
  | item_src :: disk_dev =>
      if is_element item_src then
        match findall xml_doc2 (tag item_src) with
        | [] =>
            r ← merge_loop disk_dev xml_doc2;
            mret (item_src :: r.1, r.2)
        | [item_dst] =>
            r ← merge_loop disk_dev
                  (filter (λ c, tag c ≠ tag item_src) xml_doc2);
            mret (with_tail None item_dst :: r.1, r.2)
        | _ :: _ :: _ => Raise ValueError
        end
      else Raise TypeError
  end.

(** What the same-tag replacement leaves in the place of the child
    [item_src] of a disk node, [before] being the children that precede
    it, for a destination fragment whose children have pairwise distinct
    tags: the destination child of the same tag, its tail cleared, unless
    there is none or an earlier child of that tag already took it. *)
Definition merged_child (xml_doc2 before : list Element) (item_src : Element)
    : Element :=
  match findall xml_doc2 (tag item_src) with
  | item_dst :: _ =>
      if bool_decide (tag item_src ∈ tag <$> before) then item_src
      else with_tail None item_dst
  | [] => item_src
  end.

(** A child list on which the same-tag replacement against the fragment
    [xml_doc2] has nothing left to change: every child that would take a
    destination child already is that child with its tail cleared. *)
Fixpoint stable (disk_dev xml_doc2 : list Element) : Prop :=
  match disk_dev with
  | [] => True
  | item_src :: disk_dev =>
      (∀ item_dst, item_dst ∈ xml_doc2 → tag item_dst = tag item_src →
                   item_src = with_tail None item_dst)
      ∧ stable disk_dev (filter (λ c, tag c ≠ tag item_src) xml_doc2)
  end.

(** Lines 117-129 on a non-empty child list, without the bookkeeping:
    the same-tag replacement, then the remaining destination children
    inserted at the index of the last child. *)
Definition merged (disk_dev xml_doc2 : list Element) : result (list Element) :=
  r ← merge_loop disk_dev xml_doc2;
  mret (insert_rest (length disk_dev - 1) r.2 r.1).

Section VolumeView.
Context {ConnInfo DiskInfo : Type}.

(** What the body of the volume loop does to one [disk] node, without
    the bookkeeping of [vol_state]. *)
Definition disk_patch (get_volume_config : provider ConnInfo DiskInfo)
    (by_serial : gmap string (BDMInfo ConnInfo DiskInfo))
    (disk_dev : Element) : result Element :=
  match findtext disk_dev "serial" with
  | None => Ok disk_dev
  | Some serial_source =>
      match by_serial !! serial_source with
      | None => Ok disk_dev
      | Some bdm_info =>
          match connection_info bdm_info with
          | None => Ok disk_dev
          | Some conn =>
              xml_doc2 ← get_volume_config conn (disk_info bdm_info);
              let serial_dest := findtext xml_doc2 "serial" in
              if truthy serial_dest
                 && bool_decide (Some serial_source = serial_dest)
              then
                cs ← merged (children disk_dev) (children xml_doc2);
                mret (with_children cs disk_dev)
              else mret disk_dev
          end
      end
  end.

(** The disk node is one the volume loop passes over: it has no [serial]
    child, or no block device mapping of the context has its serial, or
    the mapping the dictionary holds for its serial has no connection
    info. *)
Definition skipped (migrate_data : MigrateData ConnInfo DiskInfo)
    (disk_dev : Element) : Prop :=
  match findtext disk_dev "serial" with
  | None => True
  | Some serial_source =>
      (∀ bdm_info, bdm_info ∈ bdms migrate_data →
                   serial bdm_info ≠ serial_source)
      ∨ ∃ bdm_info,
          bdm_info_by_serial (bdms migrate_data) !! serial_source
          = Some bdm_info
          ∧ connection_info bdm_info = None
  end.

End VolumeView.

(** Every device a pass selects with [sel] is returned as it is by the
    body of the pass. *)
Definition fixed_under (sel : Element → bool)
    (body : Element → result Element) (xml_doc : Element) : Prop :=
  ∀ i j dev, device_at xml_doc i j dev → sel dev = true → body dev = Ok dev.

(** ** More sample descriptors: a disk and what the destination says *)

Definition text_leaf (t s : string) : Element :=
  mkElement t ∅ (Some s) None [].

(** Children of the source disk, each followed by white space. *)
Definition src_driver : Element :=
  with_tail (Some " ") (leaf "driver" [("name", "qemu"); ("type", "raw")]).
Definition src_source : Element :=
  with_tail (Some " ") (leaf "source" [("dev", "/dev/sda")]).
Definition src_serial : Element :=
  with_tail (Some " ") (text_leaf "serial" "S1").
Definition src_address : Element :=
  with_tail (Some " ") (leaf "address" [("type", "pci"); ("slot", "0x04")]).

Definition sample_disk : Element :=
  node "disk" [("type", "block"); ("device", "disk")]
       [src_driver; src_source; src_serial; src_address].

(** Children of the fragment the destination returns for serial S1. *)
Definition dst_driver : Element :=
  leaf "driver" [("name", "qemu"); ("type", "raw"); ("cache", "none")].
Definition dst_source : Element := leaf "source" [("dev", "/dev/sdb")].
Definition dst_serial : Element := text_leaf "serial" "S1".
Definition dst_iotune : Element := leaf "iotune" [].

Definition sample_fragment : Element :=
  node "disk" [("type", "block"); ("device", "disk")]
       [dst_driver; dst_source; dst_serial; dst_iotune].

Definition sample_domain : Element :=
  node "domain" []
       [node "devices" []
             [vnc_graphics;
              node "serial" [("type", "tcp")] [tcp_source];
              sample_disk]].

Definition sample_context : MigrateData string string :=
  mkMigrateData (Some "10.0.0.2") None (Some "10.0.0.3")
                [mkBDMInfo "S1" (Some "iscsi") "vdb"].

Definition sample_provider : provider string string :=
  λ _ _, Ok sample_fragment.

(** The sample domain after the patch. *)
Definition patched_domain : Element :=
  node "domain" []
       [node "devices" []
             [leaf "graphics" [("type", "vnc"); ("listen", "10.0.0.2")];
              node "serial" [("type", "tcp")]
                   [leaf "source" [("host", "10.0.0.3"); ("mode", "bind")]];
              node "disk" [("type", "block"); ("device", "disk")]
                   [dst_driver; dst_source; dst_serial; dst_iotune;
                    src_address]]].

(** A context whose only block device has another serial. *)
Definition other_context : MigrateData string string :=
  mkMigrateData (Some "10.0.0.2") None (Some "10.0.0.3")
                [mkBDMInfo "S2" (Some "iscsi") "vdb"].

(** A provider whose fragment has two children of one tag. *)
Definition twin_fragment : Element :=
  node "disk" [] [dst_serial; leaf "hint" [("n", "1")]; leaf "hint" [("n", "2")]].

Definition twin_provider : provider string string :=
  λ _ _, Ok twin_fragment.

Definition small_domain : Element :=
  node "domain" [] [node "devices" [] [node "disk" [] [src_serial]]].

(** * Further definitions *)

(** Thresholds in ascending order, the order [update_downtime] expects of
    its steps. *)
Definition ascending (downtime_steps : list step) : Prop :=
  StronglySorted (λ a b : step, (a.1 ≤ b.1)%Z) downtime_steps.

(** What the serial patch may do to a child [c] of a device: nothing but
    give a new value to the [host] attribute of a [source] child that has
    one. *)
Definition host_only (c c' : Element) : Prop :=
  tag c' = tag c ∧ text c' = text c ∧ tail c' = tail c
  ∧ children c' = children c
  ∧ (∀ key, key ≠ "host" → get c' key = get c key)
  ∧ (is_Some (get c' "host") ↔ is_Some (get c "host"))
  ∧ (tag c ≠ "source" ∨ get c "host" = None → c' = c).

(** What [xml_doc.findall('./devices/disk')] returns. *)
Definition disk_nodes (xml_doc : Element) : list Element :=
  devices ← filter (λ c, tag c = "devices") (children xml_doc);
  filter (λ c, tag c = "disk") (children devices).

(** ** save_stats

    [JobInfo] as [nova.virt.libvirt.guest.JobInfo] has it, for the six
    counters the function reads.  The migration and the instance are the
    records the function writes into; [rest] stands for their fields it
    does not touch. *)

Module JobInfo.
Record t : Type := mk {
  memory_total : Z;
  memory_processed : Z;
  memory_remaining : Z;
  disk_total : Z;
  disk_processed : Z;
  disk_remaining : Z }.
End JobInfo.

Module Migration.
Record t (R : Type) : Type := mk {
  memory_total : Z;
  memory_processed : Z;
  memory_remaining : Z;
  disk_total : Z;
  disk_processed : Z;
  disk_remaining : Z;
  rest : R }.
Arguments mk {R}.
Arguments memory_total {R}.
Arguments memory_processed {R}.
Arguments memory_remaining {R}.
Arguments disk_total {R}.
Arguments disk_processed {R}.
Arguments disk_remaining {R}.
Arguments rest {R}.
End Migration.

Module InstanceRecord.
Record t (R : Type) : Type := mk {
  progress : Z;
  rest : R }.
Arguments mk {R}.
Arguments progress {R}.
Arguments rest {R}.
End InstanceRecord.

Section SaveStats.
Context {MR IR : Type}.

(** A call to [save()], with the record as it is when the call is made. *)
Inductive save_call : Type :=
| SaveMigration (migration : Migration.t MR)
| SaveInstance (instance : InstanceRecord.t IR).

(** What a run of [save_stats] leaves: the exception it ended with, if
    any, the two records as the function left them, and the calls to
    [save()] it made, in order. *)
Record stats_run : Type := mkStatsRun {
  raised : option exn;
  instance_after : InstanceRecord.t IR;
  migration_after : Migration.t MR;
  save_calls : list save_call }.

(** [save] is the persistence layer: what each call to [save()] answers. *)
Definition save_stats (save : save_call → result unit)
    (instance : InstanceRecord.t IR) (migration : Migration.t MR)
    (info : JobInfo.t) (remaining : Z) : stats_run :=
  let migration :=
    Migration.mk (JobInfo.memory_total info)
                 (JobInfo.memory_processed info)
                 (JobInfo.memory_remaining info)
                 (JobInfo.disk_total info)
                 (JobInfo.disk_processed info)
                 (JobInfo.disk_remaining info)
                 (Migration.rest migration) in
  match save (SaveMigration migration) with
  | Raise e => mkStatsRun (Some e) instance migration [SaveMigration migration]
  | Ok _ =>
      let instance :=
        InstanceRecord.mk (100 - remaining)%Z (InstanceRecord.rest instance) in
      match save (SaveInstance instance) with
      | Raise e =>
          mkStatsRun (Some e) instance migration
                     [SaveMigration migration; SaveInstance instance]
      | Ok _ =>
          mkStatsRun None instance migration
                     [SaveMigration migration; SaveInstance instance]
      end
  end.

End SaveStats.
Arguments save_call : clear implicits.
Arguments stats_run : clear implicits.

(** ** Sample descriptors for the further properties *)

(** The sample domain after the graphics patch alone, after the serial
    patch alone and after the volume patch alone. *)
Definition graphics_patched_domain : Element :=
  node "domain" []
       [node "devices" []
             [leaf "graphics" [("type", "vnc"); ("listen", "10.0.0.2")];
              node "serial" [("type", "tcp")] [tcp_source];
              sample_disk]].

Definition serial_patched_domain : Element :=
  node "domain" []
       [node "devices" []
             [vnc_graphics;
              node "serial" [("type", "tcp")]
                   [leaf "source" [("host", "10.0.0.3"); ("mode", "bind")]];
              sample_disk]].

Definition volume_patched_domain : Element :=
  node "domain" []
       [node "devices" []
             [vnc_graphics;
              node "serial" [("type", "tcp")] [tcp_source];
              node "disk" [("type", "block"); ("device", "disk")]
                   [dst_driver; dst_source; dst_serial; dst_iotune;
                    src_address]]].

(** A context with both graphics addresses. *)
Definition both_addresses : MigrateData unit unit :=
  mkMigrateData (Some "10.0.0.2") (Some "10.0.0.2") None [].

(** A provider whose fragment is for another serial, and one that
    raises. *)
Definition stale_provider : provider string string :=
  λ _ _, Ok (node "disk" [] [text_leaf "serial" "S9"]).

Definition failing_provider : provider string string :=
  λ _ _, Raise (OtherError "timeout").

(** The sample disk with a comment among its children, and a domain that
    holds it. *)
Definition commented_disk : Element :=
  node "disk" [("type", "block"); ("device", "disk")]
       [src_driver; comment " boot volume "; src_source; src_serial;
        src_address].

Definition commented_domain : Element :=
  node "domain" [] [node "devices" [] [commented_disk]].
(** * Properties *)

Local Open Scope Z_scope.

(** ** AbortPolicy *)

(** C1: [should_abort] answers true exactly when the progress timeout is
    nonzero and strictly exceeded by [now - progress_time], or the
    completion timeout is nonzero and strictly exceeded by [elapsed]; with
    both timeouts zero it never aborts, and reaching a timeout exactly does
    not abort. *)
Theorem should_abort_iff (now progress_time progress_timeout
    elapsed completion_timeout : Z) :
  (should_abort now progress_time progress_timeout elapsed completion_timeout
     = true
   ↔ (progress_timeout ≠ 0 ∧ now - progress_time > progress_timeout)
     ∨ (completion_timeout ≠ 0 ∧ elapsed > completion_timeout))
  ∧ should_abort now progress_time 0 elapsed 0 = false
  ∧ should_abort now (now - progress_timeout) progress_timeout
                 completion_timeout completion_timeout = false.
Proof.
  unfold should_abort. split; [|split].
  - destruct (Z.eqb_spec progress_timeout 0) as [Hp|Hp];
      destruct (Z.eqb_spec completion_timeout 0) as [Hc|Hc];
      destruct (Z.gtb_spec (now - progress_time) progress_timeout) as [Hs|Hs];
      destruct (Z.gtb_spec elapsed completion_timeout) as [Hd|Hd];
      simpl; split; intros H; try done; try lia; intuition lia.
  - reflexivity.
  - replace (now - (now - progress_timeout)) with progress_timeout by lia.
    rewrite !Z.gtb_ltb, !Z.ltb_irrefl, !andb_false_r. reflexivity.
Qed.

(** ** OutcomeResolver *)

(** C3: every outcome of the activity query is mapped to one job type: an
    active guest gives FAILED, an inactive guest COMPLETED, a libvirt error
    with code VIR_ERR_NO_DOMAIN gives COMPLETED and a libvirt error with any
    other code gives FAILED. *)
Theorem find_job_type_total (guest : Guest) :
  match is_active guest with
  | Returns true => find_job_type guest = Returns VIR_DOMAIN_JOB_FAILED
  | Returns false => find_job_type guest = Returns VIR_DOMAIN_JOB_COMPLETED
  | Raises ex =>
      if bool_decide (get_error_code ex = VIR_ERR_NO_DOMAIN)
      then find_job_type guest = Returns VIR_DOMAIN_JOB_COMPLETED
      else find_job_type guest = Returns VIR_DOMAIN_JOB_FAILED
  end.
Proof.
  unfold find_job_type.
  destruct (is_active guest) as [[|]|ex]; simpl; try reflexivity.
  case_bool_decide as Hcode.
  - rewrite Hcode. reflexivity.
  - apply Z.eqb_neq in Hcode. rewrite Hcode. reflexivity.
Qed.

(** ** DowntimeScheduler *)

Lemma scan_steps_from (downtime_steps : list step) (elapsed : Z)
    (thisstep : option step) :
  foldl (fun thisstep st => if elapsed >? st.1 then Some st else thisstep)
        thisstep downtime_steps
  = match last_step_below downtime_steps elapsed with
    | Some st => Some st
    | None => thisstep
    end.
Proof.
  unfold last_step_below.
  revert thisstep. induction downtime_steps as [|st l IH]; intros thisstep.
  - reflexivity.
  - simpl. rewrite IH.
    destruct (Z.gtb_spec elapsed st.1) as [Hgt|Hle].
    + rewrite filter_cons_True by lia. rewrite last_cons.
      by destruct (last _).
    + rewrite filter_cons_False by lia. done.
Qed.

Lemma scan_steps_last (downtime_steps : list step) (elapsed : Z) :
  scan_steps downtime_steps elapsed = last_step_below downtime_steps elapsed.
Proof.
  unfold scan_steps. rewrite scan_steps_from.
  by destruct (last_step_below downtime_steps elapsed).
Qed.

(** Whatever the hypervisor answers, the call wrapped in its handler
    returns. *)
Lemma configure_swallowed (guest : Guest) (ms : Z) :
  try_except (migrate_configure_max_downtime guest ms) (fun e => Returns tt)
  = Returns tt.
Proof.
  by destruct (migrate_configure_max_downtime guest ms) as [[]|ex].
Qed.

Lemma update_downtime_none (guest : Guest) (olddowntime : option Z)
    (downtime_steps : list step) (elapsed : Z) :
  last_step_below downtime_steps elapsed = None →
  update_downtime guest olddowntime downtime_steps elapsed
  = mkDowntimeResult (Returns olddowntime) [].
Proof.
  intros Hsel. unfold update_downtime. by rewrite scan_steps_last, Hsel.
Qed.

Lemma update_downtime_selected (guest : Guest) (olddowntime : option Z)
    (downtime_steps : list step) (elapsed : Z) (st : step) :
  last_step_below downtime_steps elapsed = Some st →
  update_downtime guest olddowntime downtime_steps elapsed
  = if bool_decide (olddowntime = Some st.2)
    then mkDowntimeResult (Returns olddowntime) []
    else mkDowntimeResult (Returns (Some st.2)) [st.2].
Proof.
  intros Hsel. unfold update_downtime. rewrite scan_steps_last, Hsel.
  case_bool_decide as Hold.
  - by rewrite bool_decide_true.
  - rewrite bool_decide_false by congruence.
    by rewrite configure_swallowed.
Qed.

(** C2: [update_downtime] goes by the last step, in sequence order, whose
    threshold is strictly below [elapsed]: without such a step it returns
    the old downtime; when the step's value is the old downtime it returns
    the old downtime and makes no call; otherwise it returns the step's
    value. *)
Theorem update_downtime_selects (guest : Guest) (olddowntime : option Z)
    (downtime_steps : list step) (elapsed : Z) :
  match last_step_below downtime_steps elapsed with
  | None =>
      update_downtime guest olddowntime downtime_steps elapsed
      = mkDowntimeResult (Returns olddowntime) []
  | Some st =>
      if bool_decide (olddowntime = Some st.2)
      then update_downtime guest olddowntime downtime_steps elapsed
           = mkDowntimeResult (Returns olddowntime) []
      else update_downtime guest olddowntime downtime_steps elapsed
           = mkDowntimeResult (Returns (Some st.2)) [st.2]
  end.
Proof.
  destruct (last_step_below downtime_steps elapsed) as [st|] eqn:Hsel.
  - rewrite (update_downtime_selected _ _ _ _ _ Hsel).
    by case_bool_decide.
  - by apply update_downtime_none.
Qed.

(** C4: when the selected step's value differs from the old downtime and
    the hypervisor call raises, [update_downtime] still returns the step's
    value, having made the call; nothing is raised to the caller. *)
Theorem update_downtime_apply_failure (guest : Guest) (olddowntime : option Z)
    (downtime_steps : list step) (elapsed : Z) (st : step)
    (ex : libvirtError) :
  last_step_below downtime_steps elapsed = Some st →
  olddowntime ≠ Some st.2 →
  migrate_configure_max_downtime guest st.2 = Raises ex →
  update_downtime guest olddowntime downtime_steps elapsed
  = mkDowntimeResult (Returns (Some st.2)) [st.2].
Proof.
  intros Hsel Hold Hfail.
  rewrite (update_downtime_selected _ _ _ _ _ Hsel).
  by rewrite bool_decide_false.
Qed.

Lemma update_downtime_apply_failure_witness :
  update_downtime failing_guest (Some 100) [(0, 100); (10, 200); (30, 300)] 15
  = mkDowntimeResult (Returns (Some 200)) [200].
Proof.
  apply (update_downtime_apply_failure failing_guest (Some 100)
           [(0, 100); (10, 200); (30, 300)] 15 (10, 200)
           (mklibvirtError 1 "internal error")).
  - reflexivity.
  - discriminate.
  - reflexivity.
Defined.

(** C10: with no downtime set yet and some step's threshold strictly below
    [elapsed], the no-change branch is not taken: the call to the
    hypervisor is made with the selected step's value, and that value is
    returned. *)
Theorem update_downtime_unset (guest : Guest) (downtime_steps : list step)
    (elapsed : Z) :
  (∃ st, st ∈ downtime_steps ∧ st.1 < elapsed) →
  ∃ st, last_step_below downtime_steps elapsed = Some st
        ∧ update_downtime guest None downtime_steps elapsed
          = mkDowntimeResult (Returns (Some st.2)) [st.2].
Proof.
  intros (st0 & Hin & Hlt).
  destruct (last_step_below downtime_steps elapsed) as [st|] eqn:Hsel.
  - exists st. split; [done|].
    rewrite (update_downtime_selected _ _ _ _ _ Hsel).
    by rewrite bool_decide_false.
  - exfalso. unfold last_step_below in Hsel.
    apply last_None in Hsel.
    assert (st0 ∈ filter (λ st : step, st.1 < elapsed) downtime_steps) as Hf
      by (apply list_elem_of_filter; done).
    revert Hf. unfold step in *. rewrite Hsel. apply not_elem_of_nil.
Qed.

Lemma update_downtime_unset_witness :
  ∃ st, last_step_below [(0, 100); (10, 200); (30, 300)] 15 = Some st
        ∧ update_downtime failing_guest None [(0, 100); (10, 200); (30, 300)] 15
          = mkDowntimeResult (Returns (Some st.2)) [st.2].
Proof.
  apply (update_downtime_unset failing_guest [(0, 100); (10, 200); (30, 300)] 15).
  exists (0, 100). split; [|reflexivity].
  apply list_elem_of_here.
Defined.

Local Close Scope Z_scope.

(** ** Traversals *)

Lemma with_children_id (e : Element) : with_children (children e) e = e.
Proof. by destruct e. Qed.

Section Traversal.
Implicit Types (sel : Element → bool) (body : Element → result Element).

Lemma mapM_cons {A B : Type} (f : A → result B) (x : A) (l : list A) :
  mapM f (x :: l)
  = match f x with
    | Ok y => match mapM f l with
              | Ok k => Ok (y :: k)
              | Raise e => Raise e
              end
    | Raise e => Raise e
    end.
Proof. reflexivity. Qed.

Lemma mapM_Ok {A B : Type} (f : A → result B) (l : list A) (k : list B) :
  mapM f l = Ok k ↔ Forall2 (λ x y, f x = Ok y) l k.
Proof.
  revert k. induction l as [|x l IH]; intros k.
  - split.
    + intros [= <-]. constructor.
    + intros Hk. by inversion Hk.
  - rewrite mapM_cons. split.
    + destruct (f x) as [y|e] eqn:Hx; [|done].
      destruct (mapM f l) as [k'|e] eqn:Hl; [|done].
      intros [= <-]. constructor; [done|]. by apply IH.
    + intros Hk. inversion Hk as [|? y ? k' Hy Hk']; subst.
      apply IH in Hk'. by rewrite Hy, Hk'.
Qed.

(** When every exception of [f] on [l] is [e], a raising element makes
    the whole loop raise [e]. *)
Lemma mapM_Raise {A B : Type} (f : A → result B) (l : list A) (e : exn) :
  Forall (λ x, ∀ e', f x = Raise e' → e' = e) l →
  Exists (λ x, ∃ e', f x = Raise e') l →
  mapM f l = Raise e.
Proof.
  induction l as [|x l IH]; intros Hall Hex; [by inversion Hex|].
  apply Forall_cons in Hall as [Hx Hall]. rewrite mapM_cons.
  destruct (f x) as [y|e'] eqn:Hfx.
  - apply Exists_cons in Hex as [[e' He']|Hex]; [congruence|].
    by rewrite (IH Hall Hex).
  - by rewrite (Hx e').
Qed.

Lemma visited_iff sel body (x y : Element) :
  (if sel x then body x else mret x) = Ok y ↔ visited sel body x y.
Proof.
  unfold visited. destruct (sel x); [done|].
  split; [by intros [= ->]|by intros ->].
Qed.

Lemma each_child_Ok sel body (e e' : Element) :
  each_child sel body e = Ok e'
  ↔ ∃ cs, Forall2 (visited sel body) (children e) cs
          ∧ e' = with_children cs e.
Proof.
  unfold each_child.
  pose proof (mapM_Ok (λ c, if sel c then body c else mret c) (children e))
    as Hm.
  destruct (mapM _ (children e)) as [cs|err]; simpl.
  - split.
    + intros [= <-]. exists cs. split; [|done].
      eapply Forall2_impl; [by apply Hm|]. intros x y. apply visited_iff.
    + intros (cs' & Hcs' & ->).
      assert (Ok cs = Ok cs') as [= ->]; [|done].
      apply Hm. eapply Forall2_impl; [exact Hcs'|].
      intros x y. apply visited_iff.
  - split; [done|]. intros (cs' & Hcs' & ->).
    assert (Raise err = Ok cs') as Habs; [|done].
    apply Hm. eapply Forall2_impl; [exact Hcs'|].
    intros x y. apply visited_iff.
Qed.

(** A node all of whose selected children are left as they are by the
    body comes out unchanged. *)
Lemma each_child_fixed sel body (e : Element) :
  (∀ x, x ∈ children e → sel x = true → body x = Ok x) →
  each_child sel body e = Ok e.
Proof.
  intros Hfix. apply each_child_Ok. exists (children e).
  split; [|by rewrite with_children_id].
  apply Forall2_same_length_lookup. split; [done|].
  intros i x y Hx Hy. assert (y = x) as -> by congruence.
  unfold visited. destruct (sel x) eqn:Hs; [|done].
  apply Hfix; [|done]. by eapply list_elem_of_lookup_2.
Qed.

(** A second pass over the result of a pass changes nothing when the
    body, run on a node it produced, returns that node. *)
Lemma each_child_idem sel body (e e' : Element) :
  (∀ x y, sel x = true → body x = Ok y → sel y = true → body y = Ok y) →
  each_child sel body e = Ok e' →
  each_child sel body e' = Ok e'.
Proof.
  intros Hidem (cs & Hcs & ->)%each_child_Ok.
  apply each_child_fixed. simpl. intros y Hy Hsy.
  apply list_elem_of_lookup in Hy as [i Hy].
  destruct (Forall2_lookup_r _ _ _ _ _ Hcs Hy) as (x & Hx & Hv).
  unfold visited in Hv. destruct (sel x) eqn:Hsx.
  - by eapply Hidem.
  - subst y. congruence.
Qed.

Lemma each_child_lookup sel body (e e' : Element) (i : nat) (x : Element) :
  each_child sel body e = Ok e' →
  children e !! i = Some x →
  ∃ y, children e' !! i = Some y ∧ visited sel body x y.
Proof.
  intros (cs & Hcs & ->)%each_child_Ok Hx. simpl.
  by eapply Forall2_lookup_l.
Qed.

Lemma each_child_tag sel body (e e' : Element) :
  each_child sel body e = Ok e' → tag e' = tag e.
Proof. by intros (cs & Hcs & ->)%each_child_Ok. Qed.

Lemma each_child_attrib sel body (e e' : Element) :
  each_child sel body e = Ok e' → attrib e' = attrib e.
Proof. by intros (cs & Hcs & ->)%each_child_Ok. Qed.

(** When the body can only raise [err], a selected child on which it
    raises makes the pass raise [err]. *)
Lemma each_child_Raise sel body (e x : Element) (err : exn) :
  (∀ y err', body y = Raise err' → err' = err) →
  x ∈ children e → sel x = true → (∃ err', body x = Raise err') →
  each_child sel body e = Raise err.
Proof.
  intros Honly Hx Hs Hr. unfold each_child.
  rewrite (mapM_Raise _ _ err); [done| |].
  - apply Forall_forall. intros y _ err'.
    destruct (sel y); [apply Honly|done].
  - apply Exists_exists. exists x. split; [done|]. by rewrite Hs.
Qed.

Lemma each_child_only_raises sel body (err : exn) :
  (∀ y err', body y = Raise err' → err' = err) →
  ∀ e err', each_child sel body e = Raise err' → err' = err.
Proof.
  intros Honly e err'. unfold each_child, mbind, result_bind.
  destruct (mapM _ (children e)) as [cs|err''] eqn:Hm; [done|].
  intros [= ->]. revert Hm. generalize (children e) as l.
  induction l as [|x l IH]; [done|]. rewrite mapM_cons.
  destruct (if sel x then body x else mret x) as [y|e0] eqn:Hx.
  - destruct (mapM _ l); [done|]. intros [= ->]. by apply IH.
  - intros [= ->]. destruct (sel x); [by eapply Honly|done].
Qed.

End Traversal.

(** ** Passes over [./devices/...] *)

Section DevicePass.
Context (sel : Element → bool) (body : Element → result Element).

Local Abbreviation pass :=
  (each_child (has_tag "devices") (each_child sel body)).

Lemma has_tag_true (t : string) (e : Element) :
  has_tag t e = true ↔ tag e = t.
Proof. unfold has_tag. by rewrite bool_decide_eq_true. Qed.

Lemma device_at_node (xml_doc : Element) (i j : nat) (dev : Element) :
  device_at xml_doc i j dev → node_at [i; j] xml_doc = Some dev.
Proof.
  intros (devices & Hi & _ & Hj). simpl. rewrite Hi. simpl. by rewrite Hj.
Qed.

(** A pass keeps every device where it is and runs the body on the
    selected ones. *)
Lemma pass_device (xml_doc xml_doc' : Element) (i j : nat) (dev : Element) :
  pass xml_doc = Ok xml_doc' →
  device_at xml_doc i j dev →
  ∃ dev', device_at xml_doc' i j dev' ∧ visited sel body dev dev'.
Proof.
  intros Hpass (devices & Hi & Htag & Hj).
  destruct (each_child_lookup _ _ _ _ _ _ Hpass Hi) as (devices' & Hi' & Hv).
  unfold visited in Hv. rewrite (proj2 (has_tag_true _ _) Htag) in Hv.
  destruct (each_child_lookup _ _ _ _ _ _ Hv Hj) as (dev' & Hj' & Hv').
  exists dev'. split; [|done]. exists devices'.
  split; [done|]. split; [|done]. by rewrite (each_child_tag _ _ _ _ Hv).
Qed.

(** The devices of the result all come from devices of the input. *)
Lemma pass_device_inv (xml_doc xml_doc' : Element) (i j : nat)
    (dev' : Element) :
  pass xml_doc = Ok xml_doc' →
  device_at xml_doc' i j dev' →
  ∃ dev, device_at xml_doc i j dev ∧ visited sel body dev dev'.
Proof.
  intros (cs & Hcs & ->)%each_child_Ok (devices' & Hi' & Htag' & Hj').
  simpl in Hi'.
  destruct (Forall2_lookup_r _ _ _ _ _ Hcs Hi') as (devices & Hi & Hv).
  unfold visited in Hv. destruct (has_tag "devices" devices) eqn:Hd.
  - apply each_child_Ok in Hv as (ds & Hds & ->). simpl in *.
    destruct (Forall2_lookup_r _ _ _ _ _ Hds Hj') as (dev & Hj & Hv).
    exists dev. split; [|done]. exists devices. by rewrite <- has_tag_true.
  - subst devices'. apply has_tag_true in Htag'. congruence.
Qed.

Lemma pass_fixed (xml_doc : Element) :
  (∀ i j dev, device_at xml_doc i j dev → sel dev = true →
              body dev = Ok dev) →
  pass xml_doc = Ok xml_doc.
Proof.
  intros Hfix. apply each_child_fixed. intros devices Hin Htag.
  apply each_child_fixed. intros dev Hdev Hsel.
  apply list_elem_of_lookup in Hin as [i Hi].
  apply list_elem_of_lookup in Hdev as [j Hj].
  apply (Hfix i j); [|done]. exists devices. by rewrite <- has_tag_true.
Qed.

Lemma pass_only_raises (err : exn) :
  (∀ y err', body y = Raise err' → err' = err) →
  ∀ xml_doc err', pass xml_doc = Raise err' → err' = err.
Proof.
  intros Honly. by apply each_child_only_raises, each_child_only_raises.
Qed.

Lemma pass_Raise (xml_doc : Element) (i j : nat) (dev : Element)
    (err : exn) :
  (∀ y err', body y = Raise err' → err' = err) →
  device_at xml_doc i j dev → sel dev = true →
  (∃ err', body dev = Raise err') →
  pass xml_doc = Raise err.
Proof.
  intros Honly (devices & Hi & Htag & Hj) Hsel Hr.
  apply (each_child_Raise _ _ _ devices).
  - by apply each_child_only_raises.
  - by eapply list_elem_of_lookup_2.
  - by apply has_tag_true.
  - exists err. eapply each_child_Raise; [done| |done..].
    by eapply list_elem_of_lookup_2.
Qed.

(** A pass whose body never raises returns. *)
Lemma each_child_total sel' body' (e : Element) :
  (∀ x, ∃ y, body' x = Ok y) → ∃ e', each_child sel' body' e = Ok e'.
Proof.
  intros Htot.
  destruct (each_child sel' body' e) as [e'|err] eqn:He; [by eexists|].
  exfalso. revert He. unfold each_child.
  assert (∃ cs, mapM (λ c, if sel' c then body' c else mret c) (children e)
                = Ok cs) as [cs ->]; [|done].
  induction (children e) as [|x l [cs IH]]; [by eexists|].
  rewrite mapM_cons, IH.
  destruct (sel' x); [|by eexists].
  destruct (Htot x) as [y ->]. by eexists.
Qed.

End DevicePass.

(** ** Graphics patch *)

Section Graphics.
Context {C D : Type} (migrate_data : MigrateData C D).

Local Abbreviation listen_addrs := (graphics_listen_addrs migrate_data).

(** The address the context holds for a graphics type. *)
Lemma getitem_vnc :
  getitem listen_addrs "vnc"
  = match listen_addrs with
    | Some _ => Ok (graphics_listen_addr_vnc migrate_data)
    | None => Raise TypeError
    end.
Proof.
  unfold graphics_listen_addrs, getitem.
  destruct (graphics_listen_addr_vnc migrate_data) as [v|],
           (graphics_listen_addr_spice migrate_data) as [s|]; simpl;
    try rewrite bool_decide_true by (eauto using mk_is_Some); simpl;
    try done.
Qed.

Lemma getitem_spice :
  getitem listen_addrs "spice"
  = match listen_addrs with
    | Some _ => Ok (graphics_listen_addr_spice migrate_data)
    | None => Raise TypeError
    end.
Proof.
  unfold graphics_listen_addrs, getitem.
  destruct (graphics_listen_addr_vnc migrate_data) as [v|],
           (graphics_listen_addr_spice migrate_data) as [s|]; simpl;
    try rewrite bool_decide_true by (eauto using mk_is_Some); simpl;
    try done.
Qed.

Lemma getitem_graphics (gr_type : string) (err : exn) :
  gr_type = "vnc" ∨ gr_type = "spice" →
  getitem listen_addrs gr_type = Raise err → err = TypeError.
Proof.
  intros [->| ->]; [rewrite getitem_vnc|rewrite getitem_spice];
    destruct listen_addrs; congruence.
Qed.

Lemma set_only_TypeError (e : Element) (key : string) (v : option string)
    (err : exn) :
  set e key v = Raise err → err = TypeError.
Proof. destruct v; simpl; congruence. Qed.

Lemma update_graphics_dev_only_TypeError (dev : Element) (err : exn) :
  update_graphics_dev listen_addrs dev = Raise err → err = TypeError.
Proof.
  unfold update_graphics_dev.
  destruct (get dev "type") as [gr_type|]; [|done].
  case_bool_decide as Hty; [|done].
  destruct (find dev "listen") as [[i listen_tag]|]; simpl.
  - destruct (getitem listen_addrs gr_type) as [addr|err'] eqn:Hget; simpl;
      [|intros [= <-]; by eapply getitem_graphics].
    destruct (set listen_tag "address" addr) as [lt|err'] eqn:Hset; simpl;
      [|intros [= <-]; by eapply set_only_TypeError].
    destruct (get _ "listen"); [|done]. simpl.
    apply set_only_TypeError.
  - destruct (get dev "listen"); [|done].
    destruct (getitem listen_addrs gr_type) as [addr|err'] eqn:Hget; simpl;
      [|intros [= <-]; by eapply getitem_graphics].
    apply set_only_TypeError.
Qed.

End Graphics.

Lemma list_find_insert_same {A : Type} (P : A → Prop) `{!∀ x, Decision (P x)}
    (l : list A) (i : nat) (x y : A) :
  list_find P l = Some (i, x) → P y → list_find P (<[i:=y]> l) = Some (i, y).
Proof.
  intros (Hi & Hx & Hbefore)%list_find_Some Hy.
  apply list_find_Some. split; [|split; [done|]].
  - apply list_lookup_insert_eq. by eapply lookup_lt_Some.
  - intros j z Hj Hlt. rewrite list_lookup_insert_ne in Hj by lia.
    by eapply Hbefore.
Qed.

(** The graphics body run on a node it produced returns that node. *)
Lemma update_graphics_dev_idem
    (listen_addrs : option (gmap string (option string))) (x y : Element) :
  update_graphics_dev listen_addrs x = Ok y →
  update_graphics_dev listen_addrs y = Ok y.
Proof.
  unfold update_graphics_dev.
  destruct (get x "type") as [gr_type|] eqn:Hty;
    [|intros [= <-]; by rewrite Hty].
  case_bool_decide as Hvs;
    [|intros [= <-]; rewrite Hty; by rewrite bool_decide_false].
  destruct (find x "listen") as [[i listen_tag]|] eqn:Hfind; simpl.
  - destruct (getitem listen_addrs gr_type) as [[addr|]|err] eqn:Hget;
      simpl; [|done..].
    change (get (with_children _ x) "listen") with (get x "listen").
    set (lt' := with_attrib _ listen_tag).
    assert (find (with_children (<[i:=lt']> (children x)) x) "listen"
            = Some (i, lt')) as Hfind'.
    { unfold find in *. simpl. eapply list_find_insert_same; [done|].
      apply list_find_Some in Hfind as (_ & Htag & _). done. }
    assert (with_attrib (<["address":=addr]>
                           (<["address":=addr]> (attrib listen_tag))) lt'
            = lt') as Hlt'.
    { unfold lt', with_attrib. simpl. by rewrite insert_insert_eq. }
    destruct (get x "listen") as [old|] eqn:Hl; intros [= <-].
    + replace (get (with_attrib _ _) "type") with (Some gr_type)
        by (unfold get in *; simpl; by rewrite lookup_insert_ne).
      rewrite bool_decide_true by done.
      change (find (with_attrib ?a ?e) "listen") with (find e "listen").
      rewrite Hfind', Hget. simpl. rewrite Hlt', list_insert_insert_eq.
      unfold get. simpl. rewrite lookup_insert_eq. simpl.
      unfold with_attrib, with_children. simpl. by rewrite insert_insert_eq.
    + change (get (with_children ?cs ?e) ?k) with (get e k).
      rewrite Hty, bool_decide_true, Hfind', Hget by done. simpl.
      rewrite Hlt'. unfold get in *. simpl. rewrite Hl. simpl.
      unfold with_children. simpl. by rewrite list_insert_insert_eq.
  - destruct (get x "listen") as [old|] eqn:Hl.
    + destruct (getitem listen_addrs gr_type) as [[addr|]|err] eqn:Hget;
        simpl; [|done..]. intros [= <-].
      replace (get (with_attrib _ _) "type") with (Some gr_type)
        by (unfold get in *; simpl; by rewrite lookup_insert_ne).
      rewrite bool_decide_true by done.
      change (find (with_attrib ?a ?e) "listen") with (find e "listen").
      rewrite Hfind. simpl. unfold get. simpl. rewrite lookup_insert_eq.
      rewrite Hget. simpl.
      unfold with_attrib. simpl. by rewrite insert_insert_eq.
    + intros [= <-]. rewrite Hty, bool_decide_true, Hfind by done. simpl.
      by rewrite Hl.
Qed.

Section GraphicsPatch.
Context {C D : Type} (migrate_data : MigrateData C D).

Local Abbreviation listen_addrs := (graphics_listen_addrs migrate_data).

Lemma getitem_no_address (gr_type : string) :
  gr_type = "vnc" ∨ gr_type = "spice" →
  graphics_address migrate_data gr_type = None →
  getitem listen_addrs gr_type = Ok None
  ∨ getitem listen_addrs gr_type = Raise TypeError.
Proof.
  unfold graphics_address.
  intros [->| ->]; simpl; intros Hnone;
    [rewrite getitem_vnc|rewrite getitem_spice];
    rewrite Hnone; destruct listen_addrs; auto.
Qed.

(** C8 (amended): a vnc or spice graphics node for whose type the context
    holds no listen address is left as it is only when it has neither a
    [listen] child nor a [listen] attribute; when it has one of them the
    graphics patch raises [TypeError]. *)
Theorem graphics_without_address (xml_doc : Element) (i j : nat)
    (dev : Element) (gr_type : string) :
  device_at xml_doc i j dev →
  tag dev = "graphics" →
  get dev "type" = Some gr_type →
  gr_type = "vnc" ∨ gr_type = "spice" →
  graphics_address migrate_data gr_type = None →
  match find dev "listen", get dev "listen" with
  | None, None =>
      update_graphics_dev listen_addrs dev = Ok dev
      ∧ ∀ xml_doc', _update_graphics_xml xml_doc migrate_data = Ok xml_doc' →
                    node_at [i; j] xml_doc' = Some dev
  | _, _ => _update_graphics_xml xml_doc migrate_data = Raise TypeError
  end.
Proof.
  intros Hat Htag Hty Hvs Hnone.
  assert (match find dev "listen", get dev "listen" with
          | None, None => update_graphics_dev listen_addrs dev = Ok dev
          | _, _ => update_graphics_dev listen_addrs dev = Raise TypeError
          end) as Hdev.
  { unfold update_graphics_dev. rewrite Hty, bool_decide_true by done.
    destruct (getitem_no_address gr_type Hvs Hnone) as [-> | ->];
      destruct (find dev "listen") as [[k listen_tag]|]; simpl;
      destruct (get dev "listen"); done. }
  destruct (find dev "listen") as [[k listen_tag]|];
    [|destruct (get dev "listen")].
  3: {
    split; [done|]. intros xml_doc' Hpass.
    destruct (pass_device _ _ _ _ _ _ _ Hpass Hat) as (dev' & Hat' & Hv).
    unfold visited in Hv.
    rewrite (proj2 (has_tag_true _ _) Htag), Hdev in Hv.
    injection Hv as <-. by apply device_at_node. }
  all: eapply pass_Raise;
    [apply update_graphics_dev_only_TypeError|exact Hat
    |by apply has_tag_true|].
  - destruct (get dev "listen"); by eexists.
  - by eexists.
Qed.

(** A second run of the graphics patch on its own result changes
    nothing. *)
Lemma update_graphics_xml_idem (xml_doc xml_doc' : Element) :
  _update_graphics_xml xml_doc migrate_data = Ok xml_doc' →
  _update_graphics_xml xml_doc' migrate_data = Ok xml_doc'.
Proof.
  apply each_child_idem. intros devices devices' _ Hd _. revert Hd.
  apply each_child_idem. intros x y _ Hx _.
  by eapply update_graphics_dev_idem.
Qed.

End GraphicsPatch.

Lemma graphics_without_address_witness :
  match find (leaf "graphics" [("type", "vnc")]) "listen",
        get (leaf "graphics" [("type", "vnc")]) "listen" with
  | None, None =>
      update_graphics_dev (graphics_listen_addrs no_addresses)
                          (leaf "graphics" [("type", "vnc")])
      = Ok (leaf "graphics" [("type", "vnc")])
      ∧ ∀ xml_doc',
          _update_graphics_xml
            (node "domain" []
                  [node "devices" [] [leaf "graphics" [("type", "vnc")]]])
            no_addresses = Ok xml_doc' →
          node_at [0; 0]%nat xml_doc' = Some (leaf "graphics" [("type", "vnc")])
  | _, _ =>
      _update_graphics_xml
        (node "domain" []
              [node "devices" [] [leaf "graphics" [("type", "vnc")]]])
        no_addresses = Raise TypeError
  end.
Proof.
  apply (graphics_without_address no_addresses
           (node "domain" []
                 [node "devices" [] [leaf "graphics" [("type", "vnc")]]])
           0%nat 0%nat (leaf "graphics" [("type", "vnc")]) "vnc").
  - eexists. repeat split; reflexivity.
  - reflexivity.
  - reflexivity.
  - by left.
  - reflexivity.
Defined.

(** C8, as claimed, fails: with no address in the context, a vnc graphics
    node that carries a [listen] attribute makes the graphics patch raise
    [TypeError] instead of being skipped. *)
Lemma graphics_without_address_raises :
  device_at vnc_domain 0 0 vnc_graphics
  ∧ tag vnc_graphics = "graphics"
  ∧ get vnc_graphics "type" = Some "vnc"
  ∧ graphics_address no_addresses "vnc" = None
  ∧ _update_graphics_xml vnc_domain no_addresses = Raise TypeError
  ∧ _update_graphics_xml vnc_domain no_addresses ≠ Ok vnc_domain.
Proof.
  assert (_update_graphics_xml vnc_domain no_addresses = Raise TypeError)
    as Hraise by (vm_compute; reflexivity).
  split; [eexists; repeat split; reflexivity|].
  do 4 (split; [reflexivity || exact Hraise|]).
  by rewrite Hraise.
Qed.

(** ** Serial patch *)

Lemma is_tcp_true (name : string) (e : Element) :
  is_tcp name e = true ↔ tag e = name ∧ get e "type" = Some "tcp".
Proof.
  unfold is_tcp. rewrite andb_true_iff, has_tag_true.
  by rewrite bool_decide_eq_true.
Qed.

Lemma update_serial_source_tag (listen_addr : option string)
    (src src' : Element) :
  update_serial_source listen_addr src = Ok src' → tag src' = tag src.
Proof.
  unfold update_serial_source. destruct (get src "host"); [|by intros [= <-]].
  destruct listen_addr; simpl; [|done]. by intros [= <-].
Qed.

Lemma update_serial_source_only_TypeError (listen_addr : option string)
    (src : Element) (err : exn) :
  update_serial_source listen_addr src = Raise err → err = TypeError.
Proof.
  unfold update_serial_source. destruct (get src "host"); [|done].
  apply set_only_TypeError.
Qed.

Lemma update_serial_source_idem (listen_addr : option string)
    (src src' : Element) :
  update_serial_source listen_addr src = Ok src' →
  update_serial_source listen_addr src' = Ok src'.
Proof.
  unfold update_serial_source. destruct (get src "host") eqn:Hhost.
  - destruct listen_addr as [addr|]; simpl; [|done]. intros [= <-].
    unfold get. simpl. rewrite lookup_insert_eq. simpl.
    unfold with_attrib. simpl. by rewrite insert_insert_eq.
  - intros [= <-]. by rewrite Hhost.
Qed.

Section SerialPatch.
Context (listen_addr : option string).

Local Abbreviation sources :=
  (each_child (has_tag "source") (update_serial_source listen_addr)).

(** One loop keeps every selected [source] node in place; it runs the
    body on the nodes under the device name it looks for and leaves the
    nodes under another name alone. *)
Lemma tcp_pass_source (name name' : string) (xml_doc xml_doc' : Element)
    (i j k : nat) (src : Element) :
  update_tcp_sources name listen_addr xml_doc = Ok xml_doc' →
  tcp_source_at name' xml_doc i j k src →
  ∃ src', tcp_source_at name' xml_doc' i j k src'
          ∧ if bool_decide (name' = name)
            then update_serial_source listen_addr src = Ok src'
            else src' = src.
Proof.
  intros Hpass (dev & Hat & Htcp & Hk & Htag).
  destruct (pass_device _ _ _ _ _ _ _ Hpass Hat) as (dev' & Hat' & Hv).
  apply is_tcp_true in Htcp as [Hname Htype].
  unfold visited in Hv. case_bool_decide as Hn.
  - subst name'.
    rewrite (proj2 (is_tcp_true name dev)) in Hv by done.
    destruct (each_child_lookup _ _ _ _ _ _ Hv Hk) as (src' & Hk' & Hv').
    unfold visited in Hv'. rewrite (proj2 (has_tag_true _ _) Htag) in Hv'.
    exists src'. split; [|done]. exists dev'. split; [done|].
    split; [|split; [done|]].
    + apply is_tcp_true. unfold get.
      by rewrite (each_child_tag _ _ _ _ Hv), (each_child_attrib _ _ _ _ Hv).
    + by rewrite (update_serial_source_tag _ _ _ Hv').
  - assert (is_tcp name dev = false) as Hno.
    { apply not_true_is_false. rewrite is_tcp_true.
      intros [Hname' _]. congruence. }
    rewrite Hno in Hv. subst dev'.
    exists src. split; [|done]. exists dev.
    by rewrite is_tcp_true.
Qed.

Lemma tcp_source_node (name : string) (xml_doc : Element) (i j k : nat)
    (src : Element) :
  tcp_source_at name xml_doc i j k src →
  node_at [i; j; k] xml_doc = Some src.
Proof.
  intros (dev & (devices & Hi & _ & Hj) & _ & Hk & _).
  simpl. rewrite Hi. simpl. rewrite Hj. simpl. by rewrite Hk.
Qed.

Lemma tcp_pass_only_TypeError (name : string) (xml_doc : Element)
    (err : exn) :
  update_tcp_sources name listen_addr xml_doc = Raise err → err = TypeError.
Proof.
  apply pass_only_raises, each_child_only_raises.
  intros y err'. apply update_serial_source_only_TypeError.
Qed.

Lemma tcp_pass_Raise (name : string) (xml_doc : Element) (i j k : nat)
    (src : Element) :
  tcp_source_at name xml_doc i j k src →
  (∃ err, update_serial_source listen_addr src = Raise err) →
  update_tcp_sources name listen_addr xml_doc = Raise TypeError.
Proof.
  intros (dev & Hat & Htcp & Hk & Htag) Hr.
  eapply pass_Raise; [|exact Hat|exact Htcp|].
  - apply each_child_only_raises.
    intros y err'. apply update_serial_source_only_TypeError.
  - exists TypeError. eapply each_child_Raise; [| |by apply has_tag_true|done].
    + intros y err'. apply update_serial_source_only_TypeError.
    + by eapply list_elem_of_lookup_2.
Qed.

Lemma tcp_pass_fixed (name : string) (xml_doc : Element) :
  (∀ i j k src, tcp_source_at name xml_doc i j k src →
                update_serial_source listen_addr src = Ok src) →
  update_tcp_sources name listen_addr xml_doc = Ok xml_doc.
Proof.
  intros Hfix. apply pass_fixed. intros i j dev Hat Htcp.
  apply each_child_fixed. intros src Hsrc Htag.
  apply list_elem_of_lookup in Hsrc as [k Hk].
  apply (Hfix i j k). exists dev. by rewrite <- has_tag_true.
Qed.

End SerialPatch.

(** C7 (amended): when the context holds a serial listen address, the
    serial patch returns, and every [source] child of a tcp [serial] or
    [console] device that carries a [host] attribute has it overwritten
    with that address, the other [source] children being left as they are;
    when the context holds no serial listen address, the patch raises
    [TypeError] as soon as one such [source] child carries a [host]
    attribute, and returns the tree unchanged when none does. *)
Theorem serial_patch {C D : Type} (migrate_data : MigrateData C D)
    (xml_doc : Element) :
  match serial_listen_addr migrate_data with
  | Some addr =>
      ∃ xml_doc', _update_serial_xml xml_doc migrate_data = Ok xml_doc'
        ∧ ∀ name i j k src,
            name = "serial" ∨ name = "console" →
            tcp_source_at name xml_doc i j k src →
            node_at [i; j; k] xml_doc'
            = Some (match get src "host" with
                    | Some _ => with_attrib (<["host":=addr]> (attrib src)) src
                    | None => src
                    end)
  | None =>
      (∀ name i j k src,
         name = "serial" ∨ name = "console" →
         tcp_source_at name xml_doc i j k src →
         is_Some (get src "host") →
         _update_serial_xml xml_doc migrate_data = Raise TypeError)
      ∧ ((∀ name i j k src,
            name = "serial" ∨ name = "console" →
            tcp_source_at name xml_doc i j k src →
            get src "host" = None) →
         _update_serial_xml xml_doc migrate_data = Ok xml_doc)
  end.
Proof.
  unfold _update_serial_xml.
  destruct (serial_listen_addr migrate_data) as [addr|].
  - assert (∀ x, ∃ y, update_serial_source (Some addr) x = Ok y) as Htot.
    { intros x. unfold update_serial_source.
      destruct (get x "host"); by eexists. }
    assert (∀ name doc, ∃ doc', update_tcp_sources name (Some addr) doc
                                = Ok doc') as Hpass.
    { intros name doc. apply each_child_total. intros devices.
      apply each_child_total. intros dev. by apply each_child_total. }
    destruct (Hpass "serial" xml_doc) as [doc1 H1].
    destruct (Hpass "console" doc1) as [doc2 H2].
    exists doc2. split; [by rewrite H1|].
    intros name i j k src Hname Hsrc.
    destruct (tcp_pass_source _ "serial" name _ _ i j k src H1 Hsrc)
      as (src1 & Hsrc1 & Hv1).
    destruct (tcp_pass_source _ "console" name _ _ i j k src1 H2 Hsrc1)
      as (src2 & Hsrc2 & Hv2).
    rewrite (tcp_source_node _ _ _ _ _ _ Hsrc2). f_equal.
    destruct Hname as [-> | ->];
      rewrite bool_decide_true in * by done;
      rewrite bool_decide_false in * by done; subst;
      unfold update_serial_source in *;
      clear Htot; destruct (get src "host"); simpl in *;
      unfold mret, result_ret in *; congruence.
  - split.
    + intros name i j k src Hname Hsrc [host Hhost].
      assert (∃ err, update_serial_source None src = Raise err) as Hr.
      { exists TypeError. unfold update_serial_source. by rewrite Hhost. }
      destruct (update_tcp_sources "serial" None xml_doc) as [doc1|err] eqn:H1;
        simpl; [|by rewrite (tcp_pass_only_TypeError _ _ _ _ H1)].
      destruct Hname as [-> | ->].
      * by rewrite (tcp_pass_Raise _ _ _ _ _ _ _ Hsrc Hr) in H1.
      * destruct (tcp_pass_source _ "serial" "console" _ _ i j k src H1 Hsrc)
          as (src1 & Hsrc1 & Hv1).
        rewrite bool_decide_false in Hv1 by done. subst src1.
        by eapply tcp_pass_Raise.
    + intros Hnone.
      assert (∀ name, name = "serial" ∨ name = "console" →
                      update_tcp_sources name None xml_doc = Ok xml_doc) as Hfix.
      { intros name Hname. apply tcp_pass_fixed. intros i j k src Hsrc.
        unfold update_serial_source. by rewrite (Hnone name i j k src). }
      rewrite Hfix by auto. simpl. apply Hfix. auto.
Qed.

Lemma serial_patch_witness :
  ∃ xml_doc', _update_serial_xml sample_domain sample_context = Ok xml_doc'
    ∧ ∀ name i j k src,
        name = "serial" ∨ name = "console" →
        tcp_source_at name sample_domain i j k src →
        node_at [i; j; k] xml_doc'
        = Some (match get src "host" with
                | Some _ =>
                    with_attrib (<["host":="10.0.0.3"]> (attrib src)) src
                | None => src
                end).
Proof. exact (serial_patch sample_context sample_domain). Defined.

(** C7, as claimed, fails: with no serial listen address in the context, a
    tcp serial device whose [source] carries a [host] attribute makes the
    serial patch raise [TypeError] instead of leaving the node as it
    is. *)
Lemma serial_without_address_raises :
  tcp_source_at "serial" serial_domain 0 0 0 tcp_source
  ∧ is_Some (get tcp_source "host")
  ∧ serial_listen_addr no_addresses = None
  ∧ _update_serial_xml serial_domain no_addresses = Raise TypeError
  ∧ _update_serial_xml serial_domain no_addresses ≠ Ok serial_domain.
Proof.
  assert (_update_serial_xml serial_domain no_addresses = Raise TypeError)
    as Hraise by (vm_compute; reflexivity).
  split.
  { eexists. split; [eexists; repeat split; reflexivity|].
    repeat split; reflexivity. }
  split; [by eexists|]. split; [reflexivity|]. split; [exact Hraise|].
  by rewrite Hraise.
Qed.

(** ** Volume patch: the merge of one disk node *)

Lemma insert_at_delete {A : Type} (pre : list A) (x y : A) (l : list A) :
  insert_at (length pre) y (delete (length pre) (pre ++ x :: l))
  = pre ++ y :: l.
Proof.
  unfold insert_at.
  assert (delete (length pre) (pre ++ x :: l) = pre ++ l) as ->.
  { induction pre as [|p pre IH]; simpl; [done|]. by rewrite IH. }
  rewrite take_app_length, drop_app_length. done.
Qed.

(** One source child: no match leaves the list alone, one match replaces
    the child in place, a second match finds the child already removed. *)
Lemma replace_item_cases (pre : list Element) (item_src : Element)
    (l matches : list Element) :
  replace_item (length pre) true matches (pre ++ item_src :: l)
  = match matches with
    | [] => Ok (pre ++ item_src :: l)
    | [item_dst] => Ok (pre ++ with_tail None item_dst :: l)
    | _ :: _ :: _ => Raise ValueError
    end.
Proof.
  destruct matches as [|d [|d' matches]]; simpl; try done.
  by rewrite insert_at_delete.
Qed.

Lemma filter_tag_ne_id (t : Tag) (l : list Element) :
  findall l t = [] → filter (λ c, tag c ≠ t) l = l.
Proof.
  unfold findall. induction l as [|x l IH]; [done|].
  destruct (decide (tag x = t)) as [Heq|Hne].
  - by rewrite filter_cons_True.
  - rewrite filter_cons_False by done. intros Hl.
    rewrite filter_cons_True by done. by rewrite IH.
Qed.

(** The enumeration, given as many iterations as there are children left,
    visits every child: it computes what [merge_loop] computes, and leaves
    in [cnt] the index of the last child. *)
Lemma replace_loop_merge (cs pre ds : list Element) (fuel : nat)
    (last : option nat) :
  length cs ≤ fuel →
  replace_loop fuel (length pre) last (pre ++ cs) ds
  = match merge_loop cs ds with
    | Ok (cs', ds') =>
        Ok (match cs with
            | [] => last
            | _ :: _ => Some (length pre + length cs - 1)
            end, pre ++ cs', ds')
    | Raise e => Raise e
    end.
Proof.
  revert pre ds fuel last.
  induction cs as [|c cs IH]; intros pre ds fuel last Hfuel.
  - destruct fuel; simpl; rewrite app_nil_r;
      by rewrite lookup_ge_None_2 by lia.
  - destruct fuel as [|fuel]; [simpl in Hfuel; lia|].
    simpl in Hfuel. cbn [replace_loop merge_loop].
    rewrite list_lookup_middle by done.
    unfold findall_path, is_element.
    destruct (is_name (tag c)); [|done].
    cbn [mbind result_bind]. rewrite replace_item_cases.
    assert (∀ x last',
      replace_loop fuel (S (length pre)) last' (pre ++ x :: cs)
                   (filter (λ c0, tag c0 ≠ tag c) ds)
      = match merge_loop cs (filter (λ c0, tag c0 ≠ tag c) ds) with
        | Ok (cs', ds') =>
            Ok (match cs with
                | [] => last'
                | _ :: _ => Some (length pre + S (length cs) - 1)
                end, pre ++ x :: cs', ds')
        | Raise e => Raise e
        end) as Hrest.
    { intros x last'.
      specialize (IH (pre ++ [x]) (filter (λ c0, tag c0 ≠ tag c) ds)
                     fuel last' ltac:(lia)).
      rewrite length_app in IH. simpl in IH.
      rewrite Nat.add_1_r, <- app_assoc in IH. simpl in IH. rewrite IH.
      destruct (merge_loop cs _) as [[cs' ds']|e]; [|done].
      rewrite <- app_assoc. simpl.
      destruct cs; [done|]. do 4 f_equal. simpl. lia. }
    destruct (findall ds (tag c)) as [|d [|d' matches]] eqn:Hmatch; simpl.
    + rewrite Hrest. rewrite (filter_tag_ne_id _ _ Hmatch).
      destruct (merge_loop cs ds) as [[cs' ds']|e]; simpl; [|done].
      destruct cs; simpl; [do 4 f_equal; lia|done].
    + rewrite Hrest.
      destruct (merge_loop cs _) as [[cs' ds']|e]; simpl; [|done].
      destruct cs; simpl; [do 4 f_equal; lia|done].
    + done.
Qed.

Lemma insert_rest_app (cnt : nat) (ds cs : list Element) :
  cnt ≤ length cs →
  insert_rest cnt ds cs
  = take cnt cs ++ reverse (with_tail None <$> ds) ++ drop cnt cs.
Proof.
  unfold insert_rest. revert cs.
  induction ds as [|d ds IH]; intros cs Hcnt; simpl.
  - by rewrite take_drop.
  - rewrite IH by (unfold insert_at; rewrite length_app, length_take; lia).
    unfold insert_at.
    rewrite take_app_le by (rewrite length_take; lia).
    rewrite take_take, Nat.min_id.
    rewrite drop_app_ge by (rewrite length_take; lia).
    rewrite length_take, Nat.min_l, Nat.sub_diag by lia. simpl.
    rewrite reverse_cons, <- !app_assoc. done.
Qed.

Section DistinctTags.
Local Abbreviation tags l := (tag <$> l).
Local Abbreviation unseen seen := (filter (λ d : Element, tag d ∉ tags seen)).

Lemma NoDup_tags_filter (P : Element → Prop) `{!∀ x, Decision (P x)}
    (ds : list Element) :
  NoDup (tags ds) → NoDup (tags (filter P ds)).
Proof.
  induction ds as [|d ds IH]; [done|].
  rewrite fmap_cons, NoDup_cons. intros [Hnotin Hnd].
  rewrite filter_cons. destruct (decide (P d)); [|by apply IH].
  rewrite fmap_cons, NoDup_cons. split; [|by apply IH].
  intros (x & Htx & Hx)%list_elem_of_fmap.
  apply list_elem_of_filter in Hx as [_ Hx].
  apply Hnotin, list_elem_of_fmap. eauto.
Qed.

(** A fragment with distinct tags holds at most one child of a tag. *)
Lemma findall_NoDup (ds : list Element) (t : Tag) :
  NoDup (tags ds) → findall ds t = [] ∨ ∃ d, findall ds t = [d].
Proof.
  unfold findall. induction ds as [|d ds IH]; [by left|].
  rewrite fmap_cons, NoDup_cons. intros [Hnotin Hnd].
  rewrite filter_cons. destruct (decide (tag d = t)) as [Ht|Ht];
    [|by apply IH].
  right. exists d. f_equal.
  destruct (filter _ ds) as [|x l] eqn:Hf; [done|]. exfalso.
  assert (x ∈ filter (λ c, tag c = t) ds) as Hx
    by (rewrite Hf; apply list_elem_of_here).
  apply list_elem_of_filter in Hx as [Hxt Hx].
  apply Hnotin, list_elem_of_fmap. exists x. split; [congruence|done].
Qed.

Lemma findall_elem (ds : list Element) (t : Tag) (d : Element)
    (l : list Element) :
  findall ds t = d :: l → d ∈ ds ∧ tag d = t.
Proof.
  intros Hf.
  assert (d ∈ findall ds t) as Hd by (rewrite Hf; apply list_elem_of_here).
  apply list_elem_of_filter in Hd. tauto.
Qed.

Lemma findall_unseen (seen ds : list Element) (t : Tag) :
  findall (unseen seen ds) t
  = if bool_decide (t ∈ tags seen) then [] else findall ds t.
Proof.
  unfold findall. rewrite list_filter_filter. case_bool_decide as Hseen.
  - induction ds as [|d ds IH]; [done|].
    rewrite filter_cons_False; [done|]. intros [-> Hd]. done.
  - apply list_filter_iff. intros d. split; [tauto|].
    intros <-. done.
Qed.

Lemma unseen_nil (ds : list Element) : unseen [] ds = ds.
Proof.
  induction ds as [|d ds IH]; [done|].
  rewrite filter_cons_True by apply not_elem_of_nil. by rewrite IH.
Qed.

Lemma unseen_snoc (seen ds : list Element) (c : Element) :
  filter (λ d, tag d ≠ tag c) (unseen seen ds) = unseen (seen ++ [c]) ds.
Proof.
  rewrite list_filter_filter. apply list_filter_iff. intros d.
  rewrite fmap_app, elem_of_app. simpl.
  rewrite list_elem_of_singleton. tauto.
Qed.

(** With distinct tags in the fragment and only elements among the
    children of the disk node the child-by-child merge returns, keeps the
    child count, and leaves [merged_child] at every position. *)
Lemma merge_loop_unseen (ds cs pre : list Element) :
  NoDup (tags ds) →
  Forall is_element cs →
  ∃ cs', merge_loop cs (unseen pre ds) = Ok (cs', unseen (pre ++ cs) ds)
         ∧ length cs' = length cs
         ∧ ∀ i c, cs !! i = Some c →
                  cs' !! i = Some (merged_child ds (pre ++ take i cs) c).
Proof.
  intros Hnd Hel. revert pre.
  induction Hel as [|c cs Hc Hel IH]; intros pre.
  - exists []. rewrite app_nil_r. done.
  - destruct (IH (pre ++ [c])) as (cs' & Hloop & Hlen & Hat).
    rewrite <- app_assoc in Hloop. simpl in Hloop.
    cbn [merge_loop]. rewrite (Is_true_true_1 _ Hc), findall_unseen.
    assert (∀ x, (∀ i c0, (c :: cs) !! i = Some c0 →
              (x :: cs') !! i
              = Some (merged_child ds (pre ++ take i (c :: cs)) c0))
            ↔ x = merged_child ds pre c) as Hpoint.
    { intros x. split.
      - intros Hx. specialize (Hx 0 c eq_refl). simpl in Hx.
        rewrite app_nil_r in Hx. congruence.
      - intros -> [|i] c0 Hi; simpl in *.
        + injection Hi as <-. by rewrite app_nil_r.
        + rewrite (Hat i c0 Hi). by rewrite <- app_assoc. }
    case_bool_decide as Hseen.
    + rewrite <- (filter_tag_ne_id (tag c) (unseen pre ds)),
        unseen_snoc, Hloop
        by (by rewrite findall_unseen, bool_decide_true).
      eexists. split; [done|]. split; [simpl; by rewrite Hlen|].
      apply Hpoint. unfold merged_child. rewrite bool_decide_true by done.
      by destruct (findall ds (tag c)).
    + destruct (findall_NoDup ds (tag c) Hnd) as [Hf|[d Hf]]; rewrite Hf.
      * rewrite <- (filter_tag_ne_id (tag c) (unseen pre ds)),
          unseen_snoc, Hloop
          by (by rewrite findall_unseen, bool_decide_false).
        eexists. split; [done|]. split; [simpl; by rewrite Hlen|].
        apply Hpoint. unfold merged_child. by rewrite Hf.
      * rewrite unseen_snoc, Hloop.
        eexists. split; [done|]. split; [simpl; by rewrite Hlen|].
        apply Hpoint. unfold merged_child.
        by rewrite Hf, bool_decide_false.
Qed.

End DistinctTags.


(** ** Volume patch: a second merge changes nothing *)

Section Stable.
Local Abbreviation tags l := (tag <$> l).
Local Abbreviation unseen seen := (filter (λ d : Element, tag d ∉ tags seen)).

Lemma NoDup_tags_inj (ds : list Element) (d d' : Element) :
  NoDup (tags ds) → d ∈ ds → d' ∈ ds → tag d = tag d' → d = d'.
Proof.
  intros Hnd (i & Hi)%list_elem_of_lookup (j & Hj)%list_elem_of_lookup Ht.
  assert (i = j) as ->; [|congruence].
  eapply NoDup_lookup; [exact Hnd| |].
  - by rewrite list_lookup_fmap, Hi.
  - by rewrite list_lookup_fmap, Hj, Ht.
Qed.

Lemma stable_sub (cs ds ds' : list Element) :
  stable cs ds → (∀ d, d ∈ ds' → d ∈ ds) → stable cs ds'.
Proof.
  revert ds ds'. induction cs as [|c cs IH]; [done|].
  intros ds ds' [Hhead Hrest] Hsub. split.
  - intros d Hd. apply Hhead. auto.
  - eapply IH; [exact Hrest|]. intros d.
    rewrite !list_elem_of_filter. intros [Ht Hd]. auto.
Qed.

Lemma unseen_cons (c : Element) (cs ds : list Element) :
  unseen (c :: cs) ds = unseen cs (filter (λ d, tag d ≠ tag c) ds).
Proof.
  rewrite list_filter_filter. apply list_filter_iff. intros d.
  rewrite fmap_cons, not_elem_of_cons. tauto.
Qed.

Lemma stable_app (A B ds : list Element) :
  stable (A ++ B) ds ↔ stable A ds ∧ stable B (unseen A ds).
Proof.
  revert ds. induction A as [|a A IH]; intros ds.
  - simpl. rewrite unseen_nil. tauto.
  - rewrite <- app_comm_cons. cbn [stable].
    rewrite IH, unseen_cons. tauto.
Qed.

Lemma elements_tags (cs cs' : list Element) :
  tags cs' = tags cs → Forall is_element cs → Forall is_element cs'.
Proof.
  intros Htags Hel.
  apply (proj1 (Forall_fmap tag (λ t, Is_true (is_name t)) cs')).
  rewrite Htags.
  exact (proj2 (Forall_fmap tag (λ t, Is_true (is_name t)) cs) Hel).
Qed.

(** The child-by-child merge returns only when every child it went
    through is an element. *)
Lemma merge_loop_elements (cs ds : list Element) r :
  merge_loop cs ds = Ok r → Forall is_element cs.
Proof.
  revert ds r. induction cs as [|c cs IH]; intros ds r; [done|].
  cbn [merge_loop]. destruct (is_element c) eqn:Hc; [|done].
  intros Hrun. constructor; [by rewrite Hc|].
  destruct (findall ds (tag c)) as [|d [|d' l]]; [| |done].
  - destruct (merge_loop cs ds) as [r'|e] eqn:Hloop; [|done]. eauto.
  - destruct (merge_loop cs _) as [r'|e] eqn:Hloop; [|done]. eauto.
Qed.

(** The child-by-child merge produces a stable list with the tags of the
    list it started from. *)
Lemma merge_loop_stable (cs ds cs' ds' : list Element) :
  NoDup (tags ds) →
  merge_loop cs ds = Ok (cs', ds') →
  stable cs' ds ∧ tags cs' = tags cs.
Proof.
  revert ds cs' ds'. induction cs as [|c cs IH]; intros ds cs' ds' Hnd.
  - by intros [= <- <-].
  - cbn [merge_loop]. destruct (is_element c); [|done].
    destruct (findall_NoDup ds (tag c) Hnd) as [Hf|[d Hf]]; rewrite Hf.
    + destruct (merge_loop cs ds) as [[cs1 ds1]|e] eqn:Hloop; [|done].
      simpl. intros [= <- <-].
      destruct (IH _ _ _ Hnd Hloop) as [Hst Htags]. split.
      * split.
        -- intros d Hd Ht.
           assert (d ∈ findall ds (tag c)) as Hin
             by (by apply list_elem_of_filter).
           rewrite Hf in Hin. by apply not_elem_of_nil in Hin.
        -- by rewrite (filter_tag_ne_id _ _ Hf).
      * by rewrite !fmap_cons, Htags.
    + destruct (merge_loop cs _) as [[cs1 ds1]|e] eqn:Hloop; [|done].
      simpl. intros [= <- <-].
      destruct (IH _ _ _ (NoDup_tags_filter _ _ Hnd) Hloop) as [Hst Htags].
      destruct (findall_elem _ _ _ _ Hf) as [Hd Htd]. split.
      * split;
          [|change (tag (with_tail None d)) with (tag d); by rewrite Htd].
        intros d' Hd' Ht'. f_equal.
        eapply NoDup_tags_inj; [done..|]. simpl in Ht'. congruence.
      * rewrite !fmap_cons, Htags. simpl. by rewrite Htd.
Qed.

(** On a stable list the child-by-child merge changes nothing. *)
Lemma stable_merge_loop (cs ds : list Element) :
  NoDup (tags ds) → Forall is_element cs → stable cs ds →
  merge_loop cs ds = Ok (cs, unseen cs ds).
Proof.
  intros Hnd Hel. revert ds Hnd.
  induction Hel as [|c cs Hc Hel IH]; intros ds Hnd Hst.
  - by rewrite unseen_nil.
  - destruct Hst as [Hhead Hrest]. cbn [merge_loop].
    rewrite (Is_true_true_1 _ Hc), unseen_cons.
    destruct (findall_NoDup ds (tag c) Hnd) as [Hf|[d Hf]]; rewrite Hf.
    + rewrite (filter_tag_ne_id _ _ Hf) in *.
      by rewrite (IH ds Hnd Hrest).
    + rewrite (IH _ (NoDup_tags_filter _ _ Hnd) Hrest). simpl.
      destruct (findall_elem _ _ _ _ Hf) as [Hd Htd].
      by rewrite <- (Hhead d Hd Htd).
Qed.

(** Destination children with cleared tails, in any order, form a stable
    list. *)
Lemma stable_fragment (X ds : list Element) :
  NoDup (tags ds) → NoDup (tags X) →
  (∀ x, x ∈ X → ∃ d, d ∈ ds ∧ x = with_tail None d) →
  stable X ds.
Proof.
  revert ds. induction X as [|x X IH]; [done|].
  intros ds Hnd HX Hfrom.
  rewrite fmap_cons in HX. apply NoDup_cons in HX as [Hx HX]. split.
  - intros d Hd Ht.
    destruct (Hfrom x (list_elem_of_here _ _)) as (d0 & Hd0 & ->).
    f_equal. eapply NoDup_tags_inj; [exact Hnd|done|done|].
    simpl in Ht. done.
  - apply IH; [by apply NoDup_tags_filter|done|].
    intros x' Hx'.
    destruct (Hfrom x' (list_elem_of_further _ _ _ Hx')) as (d & Hd & ->).
    exists d. split; [|done]. apply list_elem_of_filter. split; [|done].
    intros Ht. apply Hx, list_elem_of_fmap. exists (with_tail None d).
    by rewrite <- Ht.
Qed.

(** In a stable list the first child of a tag the fragment has is the
    fragment's child. *)
Lemma stable_find (cs ds : list Element) (d : Element) :
  stable cs ds → d ∈ ds → tag d ∈ tags cs →
  ∃ i, list_find (λ c, tag c = tag d) cs = Some (i, with_tail None d).
Proof.
  revert ds. induction cs as [|c cs IH]; intros ds Hst Hd Hin.
  - by apply not_elem_of_nil in Hin.
  - destruct Hst as [Hhead Hrest]. cbn [list_find].
    destruct (decide (tag c = tag d)) as [Heq|Hne].
    + exists 0. by rewrite (Hhead d Hd (eq_sym Heq)).
    + apply elem_of_cons in Hin as [Hin|Hin]; [done|].
      destruct (IH _ Hrest) as [i Hi]; [|done|].
      * apply list_elem_of_filter. split; [congruence|done].
      * exists (S i). by rewrite Hi.
Qed.


Lemma filter_none {A : Type} (P : A → Prop) `{!∀ x, Decision (P x)}
    (l : list A) :
  (∀ x, x ∈ l → ¬ P x) → filter P l = [].
Proof.
  induction l as [|x l IH]; [done|]. intros Hno.
  rewrite filter_cons_False by (apply Hno, list_elem_of_here).
  apply IH. intros y Hy. apply Hno. by apply list_elem_of_further.
Qed.

Lemma tags_clear_tail (ds : list Element) :
  tags (with_tail None <$> ds) = tags ds.
Proof. rewrite <- list_fmap_compose. by apply list_fmap_ext. Qed.

(** The merge of a disk node run on its own result returns that result,
    whenever the fragment's children are elements with pairwise distinct
    tags. *)
Lemma merged_idem (cs ds cs' : list Element) :
  NoDup (tags ds) → Forall is_element ds → cs ≠ [] →
  merged cs ds = Ok cs' →
  merged cs' ds = Ok cs'
  ∧ stable cs' ds
  ∧ (∀ t, t ∈ tags cs → t ∈ tags cs')
  ∧ cs' ≠ [].
Proof.
  intros Hnd Hds Hne Hrun.
  assert (Forall is_element cs) as Hel.
  { unfold merged in Hrun.
    destruct (merge_loop cs ds) as [r|e] eqn:Hloop; [|done].
    by eapply merge_loop_elements. }
  revert Hrun. unfold merged.
  destruct (merge_loop_unseen ds cs [] Hnd Hel) as (cs1 & Hloop & Hlen & _).
  rewrite unseen_nil in Hloop. simpl in Hloop. rewrite Hloop. simpl.
  destruct (merge_loop_stable _ _ _ _ Hnd Hloop) as [Hst Htags].
  pose proof (elements_tags _ _ Htags Hel) as Hel1.
  set (ds1 := unseen cs ds) in *. set (k := length cs - 1).
  rewrite insert_rest_app by lia.
  set (X := reverse (with_tail None <$> ds1)).
  intros [= <-].
  rewrite <- (take_drop k cs1) in Hst. apply stable_app in Hst as [Hst1 Hst2].
  assert (tags cs = tags (take k cs1) ++ tags (drop k cs1)) as Hsplit
    by (by rewrite <- fmap_app, take_drop).
  assert (∀ d, d ∈ ds1 ↔ d ∈ ds ∧ tag d ∉ tags cs) as Hds1.
  { intros d. unfold ds1. rewrite list_elem_of_filter. tauto. }
  assert (∀ x, x ∈ X ↔ ∃ d, d ∈ ds1 ∧ x = with_tail None d) as HX.
  { intros x. unfold X. rewrite elem_of_reverse, list_elem_of_fmap.
    split; [intros (d & -> & Hd)|intros (d & Hd & ->)]; eauto. }
  assert (stable (take k cs1 ++ X ++ drop k cs1) ds) as Hstable.
  { apply stable_app. split; [done|]. apply stable_app. split.
    - apply stable_fragment.
      + by apply NoDup_tags_filter.
      + unfold X. rewrite fmap_reverse, reverse_Permutation.
        rewrite tags_clear_tail. by apply NoDup_tags_filter.
      + intros x (d & Hd & ->)%HX. exists d. split; [|done].
        apply Hds1 in Hd as [Hd Hnew]. apply list_elem_of_filter.
        split; [|done]. intros Hin. apply Hnew. rewrite Hsplit.
        apply elem_of_app. by left.
    - eapply stable_sub; [exact Hst2|].
      intros d. rewrite list_elem_of_filter. tauto. }
  assert (∀ t, t ∈ tags cs → t ∈ tags (take k cs1 ++ X ++ drop k cs1))
    as Hkeep.
  { intros t. rewrite Hsplit, !fmap_app, !elem_of_app. tauto. }
  assert (Forall is_element (take k cs1 ++ X ++ drop k cs1)) as Hels.
  { rewrite !Forall_app. split; [by apply Forall_take|].
    split; [|by apply Forall_drop].
    apply Forall_forall. intros x (d & Hd & ->)%HX.
    apply Hds1 in Hd as [Hd _].
    exact (proj1 (Forall_forall _ _) Hds d Hd). }
  split; [|split; [done|split; [done|]]].
  - rewrite (stable_merge_loop _ _ Hnd Hels Hstable). simpl.
    rewrite filter_none; [done|].
    intros d Hd Hnew. apply Hnew.
    destruct (decide (tag d ∈ tags cs)) as [Hin|Hout]; [by apply Hkeep|].
    rewrite !fmap_app, !elem_of_app. right. left.
    apply list_elem_of_fmap. exists (with_tail None d). split; [done|].
    apply HX. exists d. split; [|done]. by apply Hds1.
  - intros Hnil. apply (f_equal length) in Hnil.
    rewrite !length_app, length_take, length_drop in Hnil.
    destruct cs; [done|]. simpl in *. lia.
Qed.

End Stable.

(** ** Volume patch: one disk node *)

Section Disk.
Context {ConnInfo DiskInfo : Type}.
Context (get_volume_config : provider ConnInfo DiskInfo).
Implicit Types (st : vol_state ConnInfo DiskInfo).
Implicit Types (bdm_info : BDMInfo ConnInfo DiskInfo).

Local Abbreviation tags l := (tag <$> l).

Lemma merge_children_run (cs ds : list Element) st :
  cs ≠ [] →
  (merge_children cs ds st).1 = merged cs ds.
Proof.
  intros Hne. unfold merge_children, merged.
  pose proof (replace_loop_merge cs [] ds (length cs) (cnt_var st)
                ltac:(done)) as Hrun.
  simpl in Hrun. rewrite Hrun.
  destruct (merge_loop cs ds) as [[cs1 ds1]|e]; [|done].
  destruct cs as [|c cs]; [done|]. simpl.
  by destruct ds1.
Qed.

(** The dictionary holds a mapping for a serial exactly when the
    sequence has one, and what it holds comes from the sequence. *)
Lemma bdm_info_by_serial_None (l : list (BDMInfo ConnInfo DiskInfo))
    (s : string) :
  bdm_info_by_serial l !! s = None ↔ ∀ bdm_info, bdm_info ∈ l →
                                                 serial bdm_info ≠ s.
Proof.
  unfold bdm_info_by_serial. induction l as [|b l IH] using rev_ind.
  - simpl. split; [|done]. intros _ b Hb. by apply not_elem_of_nil in Hb.
  - rewrite foldl_app. simpl. rewrite lookup_insert_None, IH. split.
    + intros [Hl Hb] b' [Hb'|Hb']%elem_of_app; [by apply Hl|].
      apply list_elem_of_singleton in Hb'. by subst.
    + intros Hall. split.
      * intros b' Hb'. apply Hall, elem_of_app. by left.
      * apply Hall, elem_of_app. right. by apply list_elem_of_singleton.
Qed.

Lemma bdm_info_by_serial_Some (l : list (BDMInfo ConnInfo DiskInfo))
    (s : string) bdm_info :
  bdm_info_by_serial l !! s = Some bdm_info →
  bdm_info ∈ l ∧ serial bdm_info = s.
Proof.
  unfold bdm_info_by_serial. induction l as [|b l IH] using rev_ind.
  - simpl. by rewrite lookup_empty.
  - rewrite foldl_app. simpl. rewrite lookup_insert_Some.
    intros [[<- <-]|[Hne Hl]].
    + split; [|done]. apply elem_of_app. right.
      by apply list_elem_of_singleton.
    + destruct (IH Hl) as [Hin Hs]. split; [|done].
      apply elem_of_app. by left.
Qed.

Section WithContext.
Context (migrate_data : MigrateData ConnInfo DiskInfo).

Local Abbreviation by_serial :=
  (bdm_info_by_serial (bdms migrate_data)).

(** The tree the body returns does not depend on the state it is run
    in. *)
Lemma update_disk_dev_fst (disk_dev : Element) st :
  (update_disk_dev get_volume_config by_serial disk_dev st).1
  = disk_patch get_volume_config by_serial disk_dev.
Proof.
  unfold update_disk_dev, disk_patch.
  destruct (findtext disk_dev "serial") as [s|] eqn:Hs; [|done]. simpl.
  destruct (by_serial !! s) as [b|] eqn:Hb; [|done].
  destruct (connection_info b) as [conn|]; [|done].
  rewrite bool_decide_true by eauto.
  unfold mbind, VM_bind, call_provider.
  destruct (get_volume_config conn (disk_info b)) as [frag|e]; [|done].
  simpl.
  destruct (truthy (findtext frag "serial") && _); [|done].
  assert (children disk_dev ≠ []) as Hne.
  { unfold findtext, find in Hs. by destruct (children disk_dev). }
  pose proof (merge_children_run (children disk_dev) (children frag)
                {| calls := calls st ++ [(conn, disk_info b)];
                   cnt_var := cnt_var st |} Hne) as Hrun.
  destruct (merge_children _ _ _) as [[cs|e] st']; simpl in *;
    by rewrite <- Hrun.
Qed.

(** A skipped disk is returned as it is, in the state it was met in:
    no call is recorded. *)
Lemma update_disk_dev_skipped (disk_dev : Element) st :
  skipped migrate_data disk_dev →
  update_disk_dev get_volume_config by_serial disk_dev st
  = (Ok disk_dev, st).
Proof.
  unfold skipped, update_disk_dev.
  destruct (findtext disk_dev "serial") as [s|]; [|done]. simpl.
  intros [Hnone|(b & Hb & Hconn)].
  - apply bdm_info_by_serial_None in Hnone. by rewrite Hnone.
  - by rewrite Hb, Hconn.
Qed.

Lemma disk_patch_skipped (disk_dev : Element) :
  skipped migrate_data disk_dev →
  disk_patch get_volume_config by_serial disk_dev = Ok disk_dev.
Proof.
  intros Hskip.
  rewrite <- (update_disk_dev_fst disk_dev (mkVolState [] None)).
  by rewrite update_disk_dev_skipped.
Qed.

End WithContext.
End Disk.

(** ** Volume patch: the loop over the disks *)

Section VolumeLoop.
Context {ConnInfo DiskInfo : Type}.
Implicit Types (st : vol_state ConnInfo DiskInfo).
Implicit Types (f : Element → VM ConnInfo DiskInfo Element).
Implicit Types (g : Element → result Element).

Lemma vm_bind_run {A B : Type} (m : VM ConnInfo DiskInfo A)
    (k : A → VM ConnInfo DiskInfo B) st :
  (m ≫= k) st
  = match m st with
    | (Ok a, st) => k a st
    | (Raise e, st) => (Raise e, st)
    end.
Proof. reflexivity. Qed.

Lemma vm_mapM_cons f (x : Element) (l : list Element) st :
  mapM f (x :: l) st
  = match f x st with
    | (Ok y, st) =>
        match mapM f l st with
        | (Ok k, st) => (Ok (y :: k), st)
        | (Raise e, st) => (Raise e, st)
        end
    | (Raise e, st) => (Raise e, st)
    end.
Proof.
  cbn [mapM]. rewrite vm_bind_run.
  destruct (f x st) as [[y|e] st1]; [|done].
  rewrite vm_bind_run. by destruct (mapM f l st1) as [[k|e] st2].
Qed.

(** The tree a loop returns is the one computed without the state,
    whenever that holds of its body. *)
Lemma vm_mapM_fst f g (l : list Element) st :
  (∀ x st, (f x st).1 = g x) →
  (mapM f l st).1 = mapM g l.
Proof.
  intros Hfg. revert st. induction l as [|x l IH]; intros st; [done|].
  rewrite vm_mapM_cons, mapM_cons. specialize (Hfg x st).
  destruct (f x st) as [[y|e] st1]; simpl in Hfg; rewrite <- Hfg; [|done].
  specialize (IH st1).
  destruct (mapM f l st1) as [[k|e] st2]; simpl in IH; by rewrite <- IH.
Qed.

Lemma vm_each_child_fst (sel : Element → bool) f g (e : Element) st :
  (∀ x st, (f x st).1 = g x) →
  (each_child sel f e st).1 = each_child sel g e.
Proof.
  intros Hfg. unfold each_child.
  pose proof (vm_mapM_fst (λ c, if sel c then f c else mret c)
                (λ c, if sel c then g c else mret c) (children e) st) as Hm.
  rewrite vm_bind_run.
  destruct (mapM (M:=VM ConnInfo DiskInfo) _ (children e) st)
    as [[cs|err] st1];
    simpl in Hm; rewrite <- Hm; try done;
    intros x st'; destruct (sel x); auto.
Qed.

(** A loop whose body returns every selected child as it is, in the
    state it was given, does the same. *)
Lemma vm_each_child_fixed (sel : Element → bool) f (e : Element) st :
  (∀ x st, x ∈ children e → sel x = true → f x st = (Ok x, st)) →
  each_child sel f e st = (Ok e, st).
Proof.
  intros Hfix. unfold each_child. rewrite vm_bind_run.
  assert (mapM (λ c, if sel c then f c else mret c) (children e) st
          = (Ok (children e), st)) as ->.
  { revert Hfix. generalize (children e) as l.
    induction l as [|x l IH]; intros Hfix; [done|].
    rewrite vm_mapM_cons.
    assert ((if sel x then f x else mret x) st = (Ok x, st)) as ->.
    { destruct (sel x) eqn:Hs; [|done].
      apply Hfix; [apply list_elem_of_here|done]. }
    rewrite IH; [done|]. intros y st' Hy. apply Hfix.
    by apply list_elem_of_further. }
  unfold mret, VM_ret. by rewrite with_children_id.
Qed.

End VolumeLoop.

Section VolumePatch.
Context {ConnInfo DiskInfo : Type}.
Context (get_volume_config : provider ConnInfo DiskInfo).
Context (migrate_data : MigrateData ConnInfo DiskInfo).

Local Abbreviation by_serial := (bdm_info_by_serial (bdms migrate_data)).
Local Abbreviation volume_pass :=
  (each_child (has_tag "devices")
     (each_child (has_tag "disk") (disk_patch get_volume_config by_serial))).

(** The tree the volume patch returns is the one the pass with
    [disk_patch] computes. *)
Lemma update_volume_xml_fst (xml_doc : Element) :
  (_update_volume_xml xml_doc migrate_data get_volume_config).1
  = volume_pass xml_doc.
Proof.
  unfold _update_volume_xml, update_volumes. simpl.
  apply vm_each_child_fst. intros devices st.
  apply vm_each_child_fst. intros disk st'.
  apply update_disk_dev_fst.
Qed.

(** C5: a disk node without a [serial] child, or whose serial no block
    device mapping of the context has, or whose mapping has no
    connection info, is passed over: the body of the loop returns it
    unchanged and records no call to the provider, and in the tree the
    volume patch returns the node is where and as it was. *)
Theorem volume_patch_skips (xml_doc : Element) (i j : nat)
    (disk_dev : Element) :
  device_at xml_doc i j disk_dev →
  tag disk_dev = "disk" →
  skipped migrate_data disk_dev →
  (∀ st, update_disk_dev get_volume_config by_serial disk_dev st
         = (Ok disk_dev, st))
  ∧ ∀ xml_doc' made,
      _update_volume_xml xml_doc migrate_data get_volume_config
      = (Ok xml_doc', made) →
      node_at [i; j] xml_doc' = Some disk_dev.
Proof.
  intros Hat Htag Hskip. split.
  - intros st. by apply update_disk_dev_skipped.
  - intros xml_doc' made Hrun.
    pose proof (update_volume_xml_fst xml_doc) as Hfst.
    rewrite Hrun in Hfst. simpl in Hfst. symmetry in Hfst.
    destruct (pass_device _ _ _ _ _ _ _ Hfst Hat) as (disk' & Hat' & Hv).
    unfold visited in Hv.
    rewrite (proj2 (has_tag_true _ _) Htag) in Hv.
    rewrite disk_patch_skipped in Hv by done.
    injection Hv as <-. by apply device_at_node.
Qed.

(** When every disk of the descriptor is passed over, the volume patch
    returns the descriptor and makes no call to the provider. *)
Lemma volume_patch_all_skipped (xml_doc : Element) :
  (∀ i j disk_dev, device_at xml_doc i j disk_dev → tag disk_dev = "disk" →
                   skipped migrate_data disk_dev) →
  _update_volume_xml xml_doc migrate_data get_volume_config
  = (Ok xml_doc, []).
Proof.
  intros Hall. unfold _update_volume_xml, update_volumes.
  rewrite vm_each_child_fixed; [done|].
  intros devices st Hdev Hdt. apply vm_each_child_fixed.
  intros disk st' Hdisk Hkt. apply update_disk_dev_skipped.
  apply list_elem_of_lookup in Hdev as [i Hi].
  apply list_elem_of_lookup in Hdisk as [j Hj].
  apply (Hall i j); [|by apply has_tag_true].
  exists devices. by rewrite <- has_tag_true.
Qed.

End VolumePatch.

(** ** Idempotence *)

Section DiskIdempotence.
Context {ConnInfo DiskInfo : Type}.
Context (get_volume_config : provider ConnInfo DiskInfo).
Context (by_serial : gmap string (BDMInfo ConnInfo DiskInfo)).

Hypothesis distinct_tags : ∀ conn info xml_doc2,
  get_volume_config conn info = Ok xml_doc2 →
  NoDup (tag <$> children xml_doc2).
Hypothesis only_elements : ∀ conn info xml_doc2,
  get_volume_config conn info = Ok xml_doc2 →
  Forall is_element (children xml_doc2).

Lemma disk_patch_tag (x y : Element) :
  disk_patch get_volume_config by_serial x = Ok y → tag y = tag x.
Proof.
  unfold disk_patch.
  destruct (findtext x "serial") as [s|]; [|by intros [= <-]].
  destruct (by_serial !! s) as [b|]; [|by intros [= <-]].
  destruct (connection_info b) as [conn|]; [|by intros [= <-]].
  destruct (get_volume_config conn (disk_info b)) as [frag|e]; [|done].
  simpl. destruct (truthy _ && _); [|by intros [= <-]].
  destruct (merged _ _) as [cs|e]; [|done]. by intros [= <-].
Qed.

(** The body of the volume pass run on a disk node it produced returns
    that node. *)
Lemma disk_patch_idem (x y : Element) :
  disk_patch get_volume_config by_serial x = Ok y →
  disk_patch get_volume_config by_serial y = Ok y.
Proof.
  unfold disk_patch.
  destruct (findtext x "serial") as [s|] eqn:Hs;
    [|intros [= <-]; by rewrite Hs].
  destruct (by_serial !! s) as [b|] eqn:Hb;
    [|intros [= <-]; by rewrite Hs, Hb].
  destruct (connection_info b) as [conn|] eqn:Hconn;
    [|intros [= <-]; by rewrite Hs, Hb, Hconn].
  destruct (get_volume_config conn (disk_info b)) as [frag|e] eqn:Hfrag;
    [|done].
  simpl.
  destruct (truthy (findtext frag "serial")
            && bool_decide (Some s = findtext frag "serial")) eqn:Hsame;
    [|intros [= <-]; rewrite Hs, Hb, Hconn, Hfrag; simpl; by rewrite Hsame].
  destruct (merged (children x) (children frag)) as [cs|e] eqn:Hm; [|done].
  simpl. intros [= <-].
  assert (children x ≠ []) as Hne.
  { unfold findtext, find in Hs. by destruct (children x). }
  destruct (merged_idem _ _ _ (distinct_tags _ _ _ Hfrag)
              (only_elements _ _ _ Hfrag) Hne Hm)
    as (Hm' & Hst & Hkeep & Hne').
  apply andb_true_iff in Hsame as [Htruthy Hdest].
  apply bool_decide_eq_true in Hdest.
  assert (findtext (with_children cs x) "serial" = Some s) as Hs'.
  { rewrite Hdest. unfold findtext, find in *. simpl.
    destruct (list_find _ (children frag)) as [[k d]|] eqn:Hfd; [|done].
    apply list_find_Some in Hfd as (Hk & Htd & _).
    destruct (list_find _ (children x)) as [[i c]|] eqn:Hfc; [|done].
    apply list_find_Some in Hfc as (Hi & Htc & _).
    destruct (stable_find cs (children frag) d Hst) as [i' Hi'].
    - by eapply list_elem_of_lookup_2.
    - apply Hkeep, list_elem_of_fmap. exists c.
      split; [congruence|]. by eapply list_elem_of_lookup_2.
    - rewrite Htd in Hi'. by rewrite Hi'. }
  rewrite Hs', Hb, Hconn, Hfrag. simpl.
  rewrite Htruthy, bool_decide_true by done. simpl.
  change (children (with_children cs x)) with cs. rewrite Hm'. simpl.
  done.
Qed.

End DiskIdempotence.

Section Passes.
Implicit Types (sel : Element → bool) (body : Element → result Element).

Local Abbreviation pass sel body :=
  (each_child (has_tag "devices") (each_child sel body)).

(** A pass whose body is idempotent leaves a tree on which it has
    nothing to do. *)
Lemma pass_establishes sel body (xml_doc xml_doc' : Element) :
  (∀ x y, sel x = true → body x = Ok y → body y = Ok y) →
  pass sel body xml_doc = Ok xml_doc' →
  fixed_under sel body xml_doc'.
Proof.
  intros Hidem Hpass i j dev' Hat' Hsel'.
  destruct (pass_device_inv _ _ _ _ _ _ _ Hpass Hat') as (dev & Hat & Hv).
  unfold visited in Hv. destruct (sel dev) eqn:Hsel.
  - by eapply Hidem.
  - subst dev'. congruence.
Qed.

(** A pass that produces no device another pass selects does not undo
    what the other pass did. *)
Lemma pass_preserves sel body sel' body' (xml_doc xml_doc' : Element) :
  (∀ x y, sel' x = true → body' x = Ok y → sel y = false) →
  fixed_under sel body xml_doc →
  pass sel' body' xml_doc = Ok xml_doc' →
  fixed_under sel body xml_doc'.
Proof.
  intros Hother Hfix Hpass i j dev' Hat' Hsel.
  destruct (pass_device_inv _ _ _ _ _ _ _ Hpass Hat') as (dev & Hat & Hv).
  unfold visited in Hv. destruct (sel' dev) eqn:Hsel'.
  - rewrite (Hother _ _ Hsel' Hv) in Hsel. done.
  - subst dev'. by eapply Hfix.
Qed.

End Passes.

Lemma update_graphics_dev_tag
    (listen_addrs : option (gmap string (option string))) (x y : Element) :
  update_graphics_dev listen_addrs x = Ok y → tag y = tag x.
Proof.
  unfold update_graphics_dev.
  destruct (get x "type") as [gr_type|]; [|by intros [= <-]].
  case_bool_decide; [|by intros [= <-]].
  destruct (find x "listen") as [[i listen_tag]|]; simpl.
  - destruct (getitem listen_addrs gr_type) as [[addr|]|e]; simpl; [|done..].
    destruct (get _ "listen"); simpl; by intros [= <-].
  - destruct (get x "listen"); [|by intros [= <-]].
    destruct (getitem listen_addrs gr_type) as [[addr|]|e]; simpl; [|done..].
    by intros [= <-].
Qed.

Lemma has_tag_other (t : Tag) (t' : string) (x : Element) :
  t ≠ t' → tag x = t → has_tag t' x = false.
Proof. intros Hne Ht. unfold has_tag. by rewrite bool_decide_false by congruence. Qed.

Lemma is_tcp_other (t : Tag) (name : string) (x : Element) :
  t ≠ name → tag x = t → is_tcp name x = false.
Proof. intros Hne Ht. unfold is_tcp. by rewrite (has_tag_other t). Qed.

Section PatchIdempotence.
Context {ConnInfo DiskInfo : Type}.
Context (get_volume_config : provider ConnInfo DiskInfo).
Context (migrate_data : MigrateData ConnInfo DiskInfo).

Local Abbreviation by_serial := (bdm_info_by_serial (bdms migrate_data)).
Local Abbreviation graphics_body :=
  (update_graphics_dev (graphics_listen_addrs migrate_data)).
Local Abbreviation sources_body :=
  (each_child (has_tag "source")
     (update_serial_source (serial_listen_addr migrate_data))).
Local Abbreviation disk_body := (disk_patch get_volume_config by_serial).

(** X26: when every fragment the provider returns has only elements as
    children, with pairwise distinct tags, the descriptor patch run on a
    tree it returned, with the same context and provider, returns that
    tree again; the graphics patch alone does so whatever the provider. *)
Theorem patch_idempotent (xml_doc xml_doc' : Element)
    (made : list (ConnInfo * DiskInfo)) :
  (∀ conn info xml_doc2,
     get_volume_config conn info = Ok xml_doc2 →
     NoDup (tag <$> children xml_doc2)
     ∧ Forall is_element (children xml_doc2)) →
  get_updated_guest_xml xml_doc migrate_data get_volume_config
  = (Ok xml_doc', made) →
  (get_updated_guest_xml xml_doc' migrate_data get_volume_config).1
  = Ok xml_doc'
  ∧ ∀ doc doc', _update_graphics_xml doc migrate_data = Ok doc' →
                _update_graphics_xml doc' migrate_data = Ok doc'.
Proof.
  intros Hdistinct Hrun. split; [|apply update_graphics_xml_idem].
  unfold get_updated_guest_xml in *.
  destruct (_update_graphics_xml xml_doc migrate_data) as [d1|e] eqn:H1;
    [|done].
  simpl in Hrun. unfold _update_serial_xml in Hrun.
  destruct (update_tcp_sources "serial" _ d1) as [d2|e] eqn:H2; [|done].
  simpl in Hrun.
  destruct (update_tcp_sources "console" _ d2) as [d3|e] eqn:H3; [|done].
  pose proof (update_volume_xml_fst get_volume_config migrate_data d3) as H4.
  rewrite Hrun in H4. simpl in H4. symmetry in H4.
  assert (fixed_under (has_tag "graphics") graphics_body xml_doc') as Fg.
  { eapply pass_preserves; [| |exact H4].
    { intros x y Hx%has_tag_true Hy%disk_patch_tag.
      apply (has_tag_other "disk"); [done|congruence]. }
    eapply pass_preserves; [| |exact H3].
    { intros x y [Hx _]%is_tcp_true Hy%each_child_tag.
      apply (has_tag_other "console"); [done|congruence]. }
    eapply pass_preserves; [| |exact H2].
    { intros x y [Hx _]%is_tcp_true Hy%each_child_tag.
      apply (has_tag_other "serial"); [done|congruence]. }
    eapply pass_establishes; [|exact H1].
    intros x y _. apply update_graphics_dev_idem. }
  assert (∀ x y, sources_body x = Ok y → sources_body y = Ok y) as Hsrc.
  { intros x y. apply each_child_idem. intros a b _ Hab _.
    by eapply update_serial_source_idem. }
  assert (fixed_under (is_tcp "serial") sources_body xml_doc') as Fs.
  { eapply pass_preserves; [| |exact H4].
    { intros x y Hx%has_tag_true Hy%disk_patch_tag.
      apply (is_tcp_other "disk"); [done|congruence]. }
    eapply pass_preserves; [| |exact H3].
    { intros x y [Hx _]%is_tcp_true Hy%each_child_tag.
      apply (is_tcp_other "console"); [done|congruence]. }
    eapply pass_establishes; [|exact H2]. intros x y _. apply Hsrc. }
  assert (fixed_under (is_tcp "console") sources_body xml_doc') as Fc.
  { eapply pass_preserves; [| |exact H4].
    { intros x y Hx%has_tag_true Hy%disk_patch_tag.
      apply (is_tcp_other "disk"); [done|congruence]. }
    eapply pass_establishes; [|exact H3]. intros x y _. apply Hsrc. }
  assert (fixed_under (has_tag "disk") disk_body xml_doc') as Fd.
  { eapply pass_establishes; [|exact H4].
    intros x y _. apply disk_patch_idem.
    - intros conn info frag Hfrag. by apply (Hdistinct conn info).
    - intros conn info frag Hfrag. by apply (Hdistinct conn info). }
  unfold _update_graphics_xml. rewrite (pass_fixed _ _ _ Fg). simpl.
  unfold _update_serial_xml, update_tcp_sources.
  rewrite (pass_fixed _ _ _ Fs). simpl. rewrite (pass_fixed _ _ _ Fc).
  rewrite update_volume_xml_fst. by apply pass_fixed.
Qed.

End PatchIdempotence.

(** ** The properties on the sample descriptors *)

Example sample_patch :
  get_updated_guest_xml sample_domain sample_context sample_provider
  = (Ok patched_domain, [("iscsi", "vdb")]).
Proof. vm_compute. reflexivity. Qed.

Lemma sample_fragment_distinct : NoDup (tag <$> children sample_fragment).
Proof. apply (bool_decide_unpack _). vm_compute. exact I. Qed.

Lemma sample_disk_elements : Forall is_element (children sample_disk).
Proof. repeat constructor. Qed.

Lemma sample_fragment_elements :
  Forall is_element (children sample_fragment).
Proof. repeat constructor. Qed.



Lemma volume_patch_skips_witness :
  (∀ st, update_disk_dev sample_provider
           (bdm_info_by_serial (bdms other_context)) sample_disk st
         = (Ok sample_disk, st))
  ∧ ∀ xml_doc' made,
      _update_volume_xml sample_domain other_context sample_provider
      = (Ok xml_doc', made) →
      node_at [0; 2] xml_doc' = Some sample_disk.
Proof.
  apply (volume_patch_skips sample_provider other_context sample_domain
           0 2 sample_disk).
  - eexists. repeat split; reflexivity.
  - reflexivity.
  - left. intros bdm_info Hin. apply list_elem_of_singleton in Hin.
    subst bdm_info. discriminate.
Defined.

Lemma patch_idempotent_witness :
  (get_updated_guest_xml patched_domain sample_context sample_provider).1
  = Ok patched_domain
  ∧ ∀ doc doc', _update_graphics_xml doc sample_context = Ok doc' →
                _update_graphics_xml doc' sample_context = Ok doc'.
Proof.
  apply (patch_idempotent sample_provider sample_context sample_domain
           patched_domain [("iscsi", "vdb")]).
  - intros conn info xml_doc2 [= <-].
    split; [exact sample_fragment_distinct|exact sample_fragment_elements].
  - vm_compute. reflexivity.
Defined.

(** C6 does not hold of the code: the fragment of [twin_provider] has two
    [hint] children; the first patch of the small domain returns and puts
    both into the disk node (lines 127-129), and the patch of that result
    raises [ValueError] instead of returning it: for the first [hint] child
    of the disk node line 120 finds two destination children, and line 121
    removes the source child a second time. *)
Lemma patch_not_idempotent :
  ∃ xml_doc' made,
    get_updated_guest_xml small_domain sample_context twin_provider
    = (Ok xml_doc', made)
    ∧ (get_updated_guest_xml xml_doc' sample_context twin_provider).1
      = Raise ValueError
    ∧ (get_updated_guest_xml xml_doc' sample_context twin_provider).1
      ≠ Ok xml_doc'.
Proof.
  eexists _, _. split; [vm_compute; reflexivity|].
  assert (∀ r : result Element, r = Raise ValueError →
            r = Raise ValueError ∧ r ≠ Ok
              (node "domain" []
                 [node "devices" []
                    [node "disk" []
                       [leaf "hint" [("n", "2")]; leaf "hint" [("n", "1")];
                        dst_serial]]])) as Hboth
    by (intros r ->; split; [done|discriminate]).
  apply Hboth. vm_compute. reflexivity.
Qed.

(** * Further properties *)

(** ** graphics_listen_addrs *)

(** X1: [graphics_listen_addrs] returns [None] exactly when neither address
    is set; otherwise it returns a dictionary with the two keys [vnc] and
    [spice] and no other, each holding the address of its type or
    [None]. *)
Theorem graphics_listen_addrs_shape {C D : Type}
    (migrate_data : MigrateData C D) :
  match graphics_listen_addr_vnc migrate_data,
        graphics_listen_addr_spice migrate_data with
  | None, None => graphics_listen_addrs migrate_data = None
  | vnc, spice =>
      ∃ d, graphics_listen_addrs migrate_data = Some d
           ∧ d !! "vnc" = Some vnc
           ∧ d !! "spice" = Some spice
           ∧ ∀ k, k ≠ "vnc" → k ≠ "spice" → d !! k = None
  end.
Proof.
  unfold graphics_listen_addrs.
  destruct (graphics_listen_addr_vnc migrate_data) as [v|],
           (graphics_listen_addr_spice migrate_data) as [s|];
    try rewrite bool_decide_true by (eauto using mk_is_Some);
    try (rewrite bool_decide_false; [done|]; intros [[? [=]]|[? [=]]]);
    simpl; eexists; (split; [reflexivity|]);
    (split; [done|]); (split; [done|]);
    intros k Hv Hs; by rewrite ?lookup_insert_ne, lookup_empty by done.
Qed.

(** ** should_abort *)

Local Open Scope Z_scope.

(** X2: once [should_abort] answers true it keeps answering true as time
    passes, for the same time of last progress and the same timeouts. *)
Theorem should_abort_monotone (now now' progress_time progress_timeout
    elapsed elapsed' completion_timeout : Z) :
  now ≤ now' → elapsed ≤ elapsed' →
  should_abort now progress_time progress_timeout elapsed completion_timeout
  = true →
  should_abort now' progress_time progress_timeout elapsed' completion_timeout
  = true.
Proof.
  unfold should_abort. intros Hnow Hel.
  destruct (Z.eqb_spec progress_timeout 0) as [Hp|Hp];
    destruct (Z.eqb_spec completion_timeout 0) as [Hc|Hc];
    destruct (Z.gtb_spec (now - progress_time) progress_timeout);
    destruct (Z.gtb_spec elapsed completion_timeout);
    destruct (Z.gtb_spec (now' - progress_time) progress_timeout);
    destruct (Z.gtb_spec elapsed' completion_timeout);
    simpl; try done; lia.
Qed.

Lemma should_abort_monotone_witness :
  should_abort 120 0 60 10 0 = true.
Proof.
  apply (should_abort_monotone 61 120 0 60 5 10 0); [lia|lia|reflexivity].
Defined.

(** ** update_downtime *)

(** X3: the value [update_downtime] returns is settled: called again with
    that value as the current downtime, the same steps and the same
    elapsed time, it returns the value again and makes no call to the
    hypervisor. *)
Theorem update_downtime_settles (guest guest' : Guest)
    (olddowntime : option Z) (downtime_steps : list step) (elapsed : Z) :
  ∃ v, returned (update_downtime guest olddowntime downtime_steps elapsed)
       = Returns v
       ∧ update_downtime guest' v downtime_steps elapsed
         = mkDowntimeResult (Returns v) [].
Proof.
  destruct (last_step_below downtime_steps elapsed) as [st|] eqn:Hsel.
  - rewrite (update_downtime_selected _ _ _ _ _ Hsel).
    case_bool_decide as Hold; simpl.
    + exists olddowntime. split; [done|].
      rewrite (update_downtime_selected _ _ _ _ _ Hsel).
      by rewrite bool_decide_true.
    + exists (Some st.2). split; [done|].
      rewrite (update_downtime_selected _ _ _ _ _ Hsel).
      by rewrite bool_decide_true.
  - rewrite (update_downtime_none _ _ _ _ Hsel). exists olddowntime.
    split; [done|]. by rewrite (update_downtime_none _ _ _ _ Hsel).
Qed.

(** X4: [update_downtime] never raises and calls the hypervisor at most
    once; when it makes no call it returns the old downtime, and when it
    makes a call the value passed is the value returned, differs from the
    old downtime, and is the downtime of a step of the list whose
    threshold is strictly below the elapsed time. *)
Theorem update_downtime_calls (guest : Guest) (olddowntime : option Z)
    (downtime_steps : list step) (elapsed : Z) :
  (update_downtime guest olddowntime downtime_steps elapsed
   = mkDowntimeResult (Returns olddowntime) [])
  ∨ ∃ st, st ∈ downtime_steps ∧ st.1 < elapsed
          ∧ olddowntime ≠ Some st.2
          ∧ update_downtime guest olddowntime downtime_steps elapsed
            = mkDowntimeResult (Returns (Some st.2)) [st.2].
Proof.
  destruct (last_step_below downtime_steps elapsed) as [st|] eqn:Hsel.
  - rewrite (update_downtime_selected _ _ _ _ _ Hsel).
    case_bool_decide as Hold; [by left|]. right. exists st.
    unfold last_step_below in Hsel. apply last_Some in Hsel as [l Hl].
    assert (st ∈ filter (λ st : step, st.1 < elapsed) downtime_steps) as Hin.
    { unfold step in *. rewrite Hl. apply elem_of_app. right.
      apply list_elem_of_here. }
    apply list_elem_of_filter in Hin as [Hlt Hin]. done.
  - left. by apply update_downtime_none.
Qed.

(** X5: when the steps come with their thresholds in ascending order and
    some threshold is strictly below the elapsed time, the downtime
    [update_downtime] returns is that of a step with the greatest threshold
    strictly below the elapsed time. *)
Theorem update_downtime_greatest (guest : Guest) (olddowntime : option Z)
    (downtime_steps : list step) (elapsed : Z) :
  ascending downtime_steps →
  (∃ st, st ∈ downtime_steps ∧ st.1 < elapsed) →
  ∃ sel, sel ∈ downtime_steps ∧ sel.1 < elapsed
         ∧ (∀ st, st ∈ downtime_steps → st.1 < elapsed → st.1 ≤ sel.1)
         ∧ returned (update_downtime guest olddowntime downtime_steps elapsed)
           = Returns (Some sel.2).
Proof.
  intros Hasc (st0 & Hin0 & Hlt0).
  destruct (last_step_below downtime_steps elapsed) as [sel|] eqn:Hsel.
  - exists sel. unfold last_step_below in Hsel.
    destruct (last_filter_Some _ _ _ Hsel) as (l1 & l2 & -> & Hl2).
    assert (sel.1 < elapsed) as Hlt.
    { apply last_Some in Hsel as [l Hl].
      assert (sel ∈ filter (λ st : step, st.1 < elapsed)
                           (l1 ++ sel :: l2)) as Hin.
      { unfold step in *. rewrite Hl. apply elem_of_app. right.
        apply list_elem_of_here. }
      by apply list_elem_of_filter in Hin as [? _]. }
    split; [apply elem_of_app; right; apply list_elem_of_here|].
    split; [done|]. split.
    + intros st [Hin|Hin]%elem_of_app Hst.
      * apply (StronglySorted_app_1_elem_of _ l1 (sel :: l2) st sel Hasc Hin).
        apply list_elem_of_here.
      * apply elem_of_cons in Hin as [->|Hin]; [lia|].
        rewrite Forall_forall in Hl2. by destruct (Hl2 st Hin).
    + rewrite (update_downtime_selected _ _ _ _ sel)
        by (unfold last_step_below; exact Hsel).
      case_bool_decide as Hold; [by rewrite Hold|done].
  - exfalso. unfold last_step_below in Hsel. apply last_None in Hsel.
    assert (st0 ∈ filter (λ st : step, st.1 < elapsed) downtime_steps) as Hf
      by (apply list_elem_of_filter; done).
    revert Hf. unfold step in *. rewrite Hsel. apply not_elem_of_nil.
Qed.

Lemma sample_steps_ascending : ascending [(0, 100); (10, 200); (30, 300)].
Proof. repeat constructor; simpl; lia. Qed.

Lemma update_downtime_greatest_witness :
  ∃ sel, sel ∈ [(0, 100); (10, 200); (30, 300)] ∧ sel.1 < 15
         ∧ (∀ st, st ∈ [(0, 100); (10, 200); (30, 300)] → st.1 < 15 →
                  st.1 ≤ sel.1)
         ∧ returned (update_downtime failing_guest (Some 100)
                       [(0, 100); (10, 200); (30, 300)] 15)
           = Returns (Some sel.2).
Proof.
  apply (update_downtime_greatest failing_guest (Some 100)
           [(0, 100); (10, 200); (30, 300)] 15).
  - exact sample_steps_ascending.
  - exists (0, 100). split; [apply list_elem_of_here|reflexivity].
Defined.

Local Close Scope Z_scope.

(** ** bdm_info_by_serial *)

(** X6: the dictionary built from the block device mappings holds, under a
    serial, the last mapping of the sequence that has it; when the serials
    of the sequence are pairwise distinct, every mapping is found under its
    serial. *)
Theorem bdm_info_by_serial_last {ConnInfo DiskInfo : Type} :
  (∀ (l1 l2 : list (BDMInfo ConnInfo DiskInfo)) b,
     (∀ x, x ∈ l2 → serial x ≠ serial b) →
     bdm_info_by_serial (l1 ++ b :: l2) !! serial b = Some b)
  ∧ (∀ (l : list (BDMInfo ConnInfo DiskInfo)) b,
       NoDup (serial <$> l) → b ∈ l →
       bdm_info_by_serial l !! serial b = Some b).
Proof.
  assert (∀ (l1 l2 : list (BDMInfo ConnInfo DiskInfo)) b,
            (∀ x, x ∈ l2 → serial x ≠ serial b) →
            bdm_info_by_serial (l1 ++ b :: l2) !! serial b = Some b) as Hlast.
  { intros l1 l2 b. unfold bdm_info_by_serial.
    induction l2 as [|x l2 IH] using rev_ind; intros Hl2.
    - rewrite foldl_app. simpl. apply lookup_insert_eq.
    - rewrite app_comm_cons, app_assoc, foldl_app. simpl.
      rewrite lookup_insert_ne.
      + apply IH. intros y Hy. apply Hl2, elem_of_app. by left.
      + apply Hl2, elem_of_app. right. apply list_elem_of_here. }
  split; [exact Hlast|].
  intros l b Hnd Hb. apply list_elem_of_split in Hb as (l1 & l2 & ->).
  apply Hlast. intros x Hx Heq.
  rewrite fmap_app, fmap_cons in Hnd.
  apply NoDup_app in Hnd as (_ & _ & Hnd). apply NoDup_cons in Hnd as [Hnd _].
  apply Hnd, list_elem_of_fmap. by exists x.
Qed.

(** ** Passes: what they keep *)

(** A loop over selected children returns the node with a child list of
    the same length. *)
Lemma each_child_shape (sel : Element → bool)
    (body : Element → result Element) (e e' : Element) :
  each_child sel body e = Ok e' →
  tag e' = tag e ∧ attrib e' = attrib e ∧ text e' = text e
  ∧ tail e' = tail e ∧ length (children e') = length (children e).
Proof.
  intros (cs & Hcs & ->)%each_child_Ok. repeat split.
  simpl. symmetry. by eapply Forall2_length.
Qed.

(** A loop returns when its body returns on every selected child. *)
Lemma each_child_returns (sel : Element → bool)
    (body : Element → result Element) (e : Element) :
  (∀ x, x ∈ children e → sel x = true → ∃ y, body x = Ok y) →
  ∃ e', each_child sel body e = Ok e'.
Proof.
  intros Hret.
  assert (∃ cs, Forall2 (visited sel body) (children e) cs) as [cs Hcs].
  { revert Hret. generalize (children e) as l.
    induction l as [|x l IH]; intros Hret; [by exists []|].
    destruct IH as [cs Hcs].
    { intros y Hy. apply Hret. by apply list_elem_of_further. }
    destruct (sel x) eqn:Hs.
    - destruct (Hret x (list_elem_of_here _ _) Hs) as [y Hy].
      exists (y :: cs). constructor; [|done]. unfold visited. by rewrite Hs.
    - exists (x :: cs). constructor; [|done]. unfold visited. by rewrite Hs. }
  exists (with_children cs e). apply each_child_Ok. by exists cs.
Qed.

Lemma pass_returns (sel : Element → bool) (body : Element → result Element)
    (xml_doc : Element) :
  (∀ i j dev, device_at xml_doc i j dev → sel dev = true →
              ∃ dev', body dev = Ok dev') →
  ∃ xml_doc',
    each_child (has_tag "devices") (each_child sel body) xml_doc = Ok xml_doc'.
Proof.
  intros Hret. apply each_child_returns. intros devices Hin Htag.
  apply each_child_returns. intros dev Hdev Hsel.
  apply list_elem_of_lookup in Hin as [i Hi].
  apply list_elem_of_lookup in Hdev as [j Hj].
  apply (Hret i j); [|done]. exists devices. by rewrite <- has_tag_true.
Qed.

(** A pass keeps the root's tag, attributes and number of children, and
    every child of the root that is not a [devices] element. *)
Lemma pass_root (sel : Element → bool) (body : Element → result Element)
    (xml_doc xml_doc' : Element) :
  each_child (has_tag "devices") (each_child sel body) xml_doc = Ok xml_doc' →
  tag xml_doc' = tag xml_doc ∧ attrib xml_doc' = attrib xml_doc
  ∧ length (children xml_doc') = length (children xml_doc)
  ∧ ∀ i c, children xml_doc !! i = Some c → tag c ≠ "devices" →
           children xml_doc' !! i = Some c.
Proof.
  intros Hpass.
  destruct (each_child_shape _ _ _ _ Hpass) as (Ht & Ha & _ & _ & Hl).
  repeat split; try done. intros i c Hi Hc.
  destruct (each_child_lookup _ _ _ _ _ _ Hpass Hi) as (c' & Hi' & Hv).
  unfold visited in Hv.
  assert (has_tag "devices" c = false) as Hno
    by (apply not_true_iff_false; by rewrite has_tag_true).
  rewrite Hno in Hv. by subst.
Qed.

(** A pass leaves alone the devices it does not select. *)
Lemma pass_unselected (sel : Element → bool)
    (body : Element → result Element) (xml_doc xml_doc' : Element)
    (i j : nat) (dev : Element) :
  each_child (has_tag "devices") (each_child sel body) xml_doc = Ok xml_doc' →
  device_at xml_doc i j dev → sel dev = false →
  device_at xml_doc' i j dev.
Proof.
  intros Hpass Hat Hsel.
  destruct (pass_device _ _ _ _ _ _ _ Hpass Hat) as (dev' & Hat' & Hv).
  unfold visited in Hv. rewrite Hsel in Hv. by subst.
Qed.

(** ** Graphics patch: what it does and what it leaves alone *)

Section GraphicsEffect.
Context {C D : Type} (migrate_data : MigrateData C D).

Local Abbreviation listen_addrs := (graphics_listen_addrs migrate_data).

Lemma getitem_address (gr_type : string) (v : option string) :
  gr_type = "vnc" ∨ gr_type = "spice" →
  getitem listen_addrs gr_type = Ok v →
  v = graphics_address migrate_data gr_type.
Proof.
  unfold graphics_address.
  intros [->| ->]; simpl;
    [rewrite getitem_vnc|rewrite getitem_spice];
    destruct listen_addrs; congruence.
Qed.

Lemma getitem_returns (gr_type : string) :
  gr_type = "vnc" ∨ gr_type = "spice" →
  is_Some (graphics_address migrate_data gr_type) →
  getitem listen_addrs gr_type
  = Ok (graphics_address migrate_data gr_type).
Proof.
  unfold graphics_address.
  intros [->| ->]; simpl; intros [a Ha];
    [rewrite getitem_vnc|rewrite getitem_spice];
    unfold graphics_listen_addrs; rewrite Ha;
    rewrite bool_decide_true by (eauto using mk_is_Some);
    simpl; by destruct (graphics_listen_addr_vnc migrate_data),
                       (graphics_listen_addr_spice migrate_data).
Qed.

(** What the body of the graphics loop does to a vnc or spice node on
    which it returns. *)
Lemma update_graphics_dev_effect (dev dev' : Element) (gr_type : string) :
  get dev "type" = Some gr_type →
  gr_type = "vnc" ∨ gr_type = "spice" →
  update_graphics_dev listen_addrs dev = Ok dev' →
  tag dev' = tag dev
  ∧ (∀ key, key ≠ "listen" → get dev' key = get dev key)
  ∧ get dev' "listen"
    = match get dev "listen" with
      | Some _ => graphics_address migrate_data gr_type
      | None => None
      end
  ∧ (is_Some (get dev "listen") →
     is_Some (graphics_address migrate_data gr_type))
  ∧ match find dev "listen" with
    | Some (k, listen_tag) =>
        ∃ listen_tag',
          find dev' "listen" = Some (k, listen_tag')
          ∧ get listen_tag' "address"
            = graphics_address migrate_data gr_type
          ∧ is_Some (graphics_address migrate_data gr_type)
          ∧ (∀ key, key ≠ "address" →
                    get listen_tag' key = get listen_tag key)
          ∧ children listen_tag' = children listen_tag
          ∧ length (children dev') = length (children dev)
          ∧ ∀ n, n ≠ k → children dev' !! n = children dev !! n
    | None => children dev' = children dev
    end.
Proof.
  intros Hty Hvs. unfold update_graphics_dev.
  rewrite Hty, bool_decide_true by done.
  destruct (find dev "listen") as [[k listen_tag]|] eqn:Hfind; simpl.
  - destruct (getitem listen_addrs gr_type) as [[addr|]|e] eqn:Hget;
      simpl; [|done..].
    apply getitem_address in Hget; [|done].
    change (get (with_children _ dev) "listen") with (get dev "listen").
    set (lt' := with_attrib _ listen_tag).
    assert (∃ lt'', find (with_children (<[k:=lt']> (children dev)) dev)
                         "listen" = Some (k, lt'')
                    ∧ get lt'' "address"
                      = graphics_address migrate_data gr_type
                    ∧ is_Some (graphics_address migrate_data gr_type)
                    ∧ (∀ key, key ≠ "address" →
                              get lt'' key = get listen_tag key)
                    ∧ children lt'' = children listen_tag) as Hchild.
    { exists lt'. split; [|split; [|split; [|split]]].
      - unfold find in *. simpl. eapply list_find_insert_same; [done|].
        apply list_find_Some in Hfind as (_ & Htag & _). done.
      - unfold get, lt'. simpl. by rewrite lookup_insert_eq.
      - rewrite <- Hget. by eexists.
      - intros key Hkey. unfold get, lt'. simpl.
        by rewrite lookup_insert_ne.
      - done. }
    destruct Hchild as (lt'' & Hfind' & Hrest).
    destruct (get dev "listen") as [old|] eqn:Hl; simpl; intros [= <-].
    + split; [done|]. split.
      { intros key Hkey. unfold get. simpl. by rewrite lookup_insert_ne. }
      split. { unfold get. simpl. by rewrite lookup_insert_eq. }
      split. { intros _. rewrite <- Hget. by eexists. }
      exists lt''. split; [exact Hfind'|].
      destruct Hrest as (? & ? & ? & ?). repeat split; try done.
      * simpl. by rewrite length_insert.
      * intros n Hn. simpl. by rewrite list_lookup_insert_ne.
    + split; [done|]. split; [done|]. split; [exact Hl|].
      split. { by intros [? [=]]. }
      exists lt''. split; [exact Hfind'|].
      destruct Hrest as (? & ? & ? & ?). repeat split; try done.
      * simpl. by rewrite length_insert.
      * intros n Hn. simpl. by rewrite list_lookup_insert_ne.
  - destruct (get dev "listen") as [old|] eqn:Hl.
    + destruct (getitem listen_addrs gr_type) as [[addr|]|e] eqn:Hget;
        simpl; [|done..].
      apply getitem_address in Hget; [|done]. intros [= <-].
      split; [done|]. split.
      { intros key Hkey. unfold get. simpl. by rewrite lookup_insert_ne. }
      split. { unfold get. simpl. by rewrite lookup_insert_eq. }
      split. { intros _. rewrite <- Hget. by eexists. }
      done.
    + intros [= <-]. split; [done|]. split; [done|]. split; [exact Hl|].
      split; [|done]. by intros [? [=]].
Qed.

(** X7: when the graphics patch returns, every vnc or spice graphics node
    is where it was; a [listen] attribute it had now holds the address of
    its type, and none was added; the [address] of its first [listen] child
    holds that address; its other attributes and children are as they
    were. *)
Theorem graphics_patch_effect (xml_doc xml_doc' : Element) (i j : nat)
    (dev : Element) (gr_type : string) :
  _update_graphics_xml xml_doc migrate_data = Ok xml_doc' →
  device_at xml_doc i j dev →
  tag dev = "graphics" →
  get dev "type" = Some gr_type →
  gr_type = "vnc" ∨ gr_type = "spice" →
  ∃ dev',
    device_at xml_doc' i j dev'
    ∧ tag dev' = "graphics"
    ∧ (∀ key, key ≠ "listen" → get dev' key = get dev key)
    ∧ get dev' "listen"
      = match get dev "listen" with
        | Some _ => graphics_address migrate_data gr_type
        | None => None
        end
    ∧ (is_Some (get dev "listen") →
       is_Some (graphics_address migrate_data gr_type))
    ∧ match find dev "listen" with
      | Some (k, listen_tag) =>
          ∃ listen_tag',
            find dev' "listen" = Some (k, listen_tag')
            ∧ get listen_tag' "address"
              = graphics_address migrate_data gr_type
            ∧ is_Some (graphics_address migrate_data gr_type)
            ∧ (∀ key, key ≠ "address" →
                      get listen_tag' key = get listen_tag key)
            ∧ children listen_tag' = children listen_tag
            ∧ length (children dev') = length (children dev)
            ∧ ∀ n, n ≠ k → children dev' !! n = children dev !! n
      | None => children dev' = children dev
      end.
Proof.
  intros Hpass Hat Htag Hty Hvs.
  destruct (pass_device _ _ _ _ _ _ _ Hpass Hat) as (dev' & Hat' & Hv).
  unfold visited in Hv. rewrite (proj2 (has_tag_true _ _) Htag) in Hv.
  destruct (update_graphics_dev_effect dev dev' gr_type Hty Hvs Hv)
    as (Ht & Hrest).
  exists dev'. split; [done|]. split; [congruence|]. exact Hrest.
Qed.

(** X8: when the graphics patch returns, the root keeps its tag, its
    attributes and its number of children; its children other than
    [devices] are unchanged, and so is every device that is not a graphics
    node of type vnc or spice. *)
Theorem graphics_patch_frame (xml_doc xml_doc' : Element) :
  _update_graphics_xml xml_doc migrate_data = Ok xml_doc' →
  tag xml_doc' = tag xml_doc ∧ attrib xml_doc' = attrib xml_doc
  ∧ length (children xml_doc') = length (children xml_doc)
  ∧ (∀ i c, children xml_doc !! i = Some c → tag c ≠ "devices" →
            children xml_doc' !! i = Some c)
  ∧ ∀ i j dev,
      device_at xml_doc i j dev →
      tag dev ≠ "graphics"
      ∨ get dev "type" ≠ Some "vnc" ∧ get dev "type" ≠ Some "spice" →
      device_at xml_doc' i j dev.
Proof.
  intros Hpass. destruct (pass_root _ _ _ _ Hpass) as (Ht & Ha & Hl & Hc).
  repeat split; try done. intros i j dev Hat Hother.
  destruct (pass_device _ _ _ _ _ _ _ Hpass Hat) as (dev' & Hat' & Hv).
  unfold visited in Hv. destruct (has_tag "graphics" dev) eqn:Hg;
    [|by subst].
  destruct Hother as [Hno|[Hvnc Hspice]];
    [by apply has_tag_true in Hg|].
  unfold update_graphics_dev in Hv.
  destruct (get dev "type") as [t|]; [|injection Hv as <-; done].
  rewrite bool_decide_false in Hv by (intros [->| ->]; done).
  injection Hv as <-. done.
Qed.

(** X9: the graphics patch returns when the context holds an address for
    the type of every vnc or spice graphics node of the descriptor. *)
Theorem graphics_patch_returns (xml_doc : Element) :
  (∀ i j dev gr_type,
     device_at xml_doc i j dev → tag dev = "graphics" →
     get dev "type" = Some gr_type →
     gr_type = "vnc" ∨ gr_type = "spice" →
     is_Some (graphics_address migrate_data gr_type)) →
  ∃ xml_doc', _update_graphics_xml xml_doc migrate_data = Ok xml_doc'.
Proof.
  intros Haddr. apply pass_returns. intros i j dev Hat Htag%has_tag_true.
  unfold update_graphics_dev.
  destruct (get dev "type") as [gr_type|] eqn:Hty; [|by eexists].
  case_bool_decide as Hvs; [|by eexists].
  specialize (Haddr i j dev gr_type Hat Htag Hty Hvs).
  rewrite (getitem_returns gr_type Hvs Haddr).
  destruct Haddr as [addr ->].
  destruct (find dev "listen") as [[k listen_tag]|]; simpl;
    destruct (get _ "listen"); by eexists.
Qed.

End GraphicsEffect.

(** ** Serial patch: what it leaves alone *)

Section SerialFrame.
Context (listen_addr : option string).

Lemma host_only_refl (c : Element) : host_only c c.
Proof. by repeat split. Qed.

Lemma host_only_trans (c c' c'' : Element) :
  host_only c c' → host_only c' c'' → host_only c c''.
Proof.
  intros (Ht & Hx & Hl & Hc & Hk & Hh & Hid) (Ht' & Hx' & Hl' & Hc' & Hk' & Hh' & Hid').
  split; [congruence|]. split; [congruence|]. split; [congruence|].
  split; [congruence|]. split.
  { intros key Hkey. by rewrite Hk', Hk. }
  split; [by rewrite Hh', Hh|].
  intros Hcond. rewrite (Hid Hcond) in *. by apply Hid'.
Qed.

Lemma update_serial_source_host_only (c c' : Element) :
  (if has_tag "source" c then update_serial_source listen_addr c = Ok c'
   else c' = c) →
  host_only c c'.
Proof.
  destruct (has_tag "source" c) eqn:Htag; [|intros ->; apply host_only_refl].
  apply has_tag_true in Htag. unfold update_serial_source.
  destruct (get c "host") as [old|] eqn:Hhost;
    [|intros [= <-]; apply host_only_refl].
  destruct listen_addr as [addr|]; simpl; [|done]. intros [= <-].
  repeat split; try done.
  - intros key Hkey. unfold get. simpl. by rewrite lookup_insert_ne.
  - intros _. unfold get. simpl. rewrite lookup_insert_eq. by eexists.
  - intros [Hno|Hno]; [done|]. congruence.
Qed.

(** One loop of the serial patch keeps every device in place, with its
    tag, attributes and number of children, and changes its children by
    [host_only]; a device that is not a tcp device of the name the loop
    looks for is unchanged. *)
Lemma tcp_pass_device (name : string) (xml_doc xml_doc' : Element)
    (i j : nat) (dev : Element) :
  update_tcp_sources name listen_addr xml_doc = Ok xml_doc' →
  device_at xml_doc i j dev →
  ∃ dev', device_at xml_doc' i j dev'
          ∧ tag dev' = tag dev ∧ attrib dev' = attrib dev
          ∧ length (children dev') = length (children dev)
          ∧ (is_tcp name dev = false → dev' = dev)
          ∧ ∀ k c, children dev !! k = Some c →
                   ∃ c', children dev' !! k = Some c' ∧ host_only c c'.
Proof.
  intros Hpass Hat.
  destruct (pass_device _ _ _ _ _ _ _ Hpass Hat) as (dev' & Hat' & Hv).
  exists dev'. split; [done|]. unfold visited in Hv.
  destruct (is_tcp name dev) eqn:Htcp.
  - destruct (each_child_shape _ _ _ _ Hv) as (Ht & Ha & _ & _ & Hl).
    repeat split; try done. intros k c Hk.
    destruct (each_child_lookup _ _ _ _ _ _ Hv Hk) as (c' & Hk' & Hv').
    exists c'. split; [done|]. by apply update_serial_source_host_only.
  - subst dev'. repeat split; try done. intros k c Hk. exists c.
    split; [done|]. apply host_only_refl.
Qed.

End SerialFrame.

(** The serial patch keeps the root and moves no device; a device that is
    not a tcp serial or console device is unchanged. *)
Lemma serial_patch_devices {C D : Type} (migrate_data : MigrateData C D)
    (xml_doc xml_doc' : Element) :
  _update_serial_xml xml_doc migrate_data = Ok xml_doc' →
  tag xml_doc' = tag xml_doc ∧ attrib xml_doc' = attrib xml_doc
  ∧ length (children xml_doc') = length (children xml_doc)
  ∧ (∀ i c, children xml_doc !! i = Some c → tag c ≠ "devices" →
            children xml_doc' !! i = Some c)
  ∧ ∀ i j dev,
      device_at xml_doc i j dev →
      ∃ dev', device_at xml_doc' i j dev'
              ∧ tag dev' = tag dev
              ∧ (is_tcp "serial" dev = false → is_tcp "console" dev = false →
                 dev' = dev).
Proof.
  unfold _update_serial_xml.
  destruct (update_tcp_sources "serial" _ xml_doc) as [d1|e] eqn:H1; [|done].
  simpl. intros H2.
  destruct (pass_root _ _ _ _ H1) as (Ht1 & Ha1 & Hl1 & Hc1).
  destruct (pass_root _ _ _ _ H2) as (Ht2 & Ha2 & Hl2 & Hc2).
  split; [congruence|]. split; [congruence|]. split; [congruence|].
  split. { intros i c Hi Hc. apply Hc2; [|done]. by apply Hc1. }
  intros i j dev Hat.
  destruct (tcp_pass_device _ _ _ _ _ _ _ H1 Hat)
    as (dev1 & Hat1 & Htag1 & _ & _ & Hid1 & _).
  destruct (tcp_pass_device _ _ _ _ _ _ _ H2 Hat1)
    as (dev2 & Hat2 & Htag2 & _ & _ & Hid2 & _).
  exists dev2. split; [done|]. split; [congruence|].
  intros Hs Hc. rewrite <- (Hid1 Hs). apply Hid2. by rewrite (Hid1 Hs).
Qed.

(** X10: when the serial patch returns, the root keeps its tag, its
    attributes and its number of children, and its children other than
    [devices] are unchanged; every device is where it was with its tag,
    its attributes and its number of children, and is unchanged unless it
    is a tcp serial or console device; the children of a device change at
    most in the [host] attribute of a [source] child that had one. *)
Theorem serial_patch_frame {C D : Type} (migrate_data : MigrateData C D)
    (xml_doc xml_doc' : Element) :
  _update_serial_xml xml_doc migrate_data = Ok xml_doc' →
  tag xml_doc' = tag xml_doc ∧ attrib xml_doc' = attrib xml_doc
  ∧ length (children xml_doc') = length (children xml_doc)
  ∧ (∀ i c, children xml_doc !! i = Some c → tag c ≠ "devices" →
            children xml_doc' !! i = Some c)
  ∧ ∀ i j dev,
      device_at xml_doc i j dev →
      ∃ dev', device_at xml_doc' i j dev'
              ∧ tag dev' = tag dev ∧ attrib dev' = attrib dev
              ∧ length (children dev') = length (children dev)
              ∧ (is_tcp "serial" dev = false → is_tcp "console" dev = false →
                 dev' = dev)
              ∧ ∀ k c, children dev !! k = Some c →
                       ∃ c', children dev' !! k = Some c' ∧ host_only c c'.
Proof.
  unfold _update_serial_xml.
  destruct (update_tcp_sources "serial" _ xml_doc) as [d1|e] eqn:H1; [|done].
  simpl. intros H2.
  destruct (pass_root _ _ _ _ H1) as (Ht1 & Ha1 & Hl1 & Hc1).
  destruct (pass_root _ _ _ _ H2) as (Ht2 & Ha2 & Hl2 & Hc2).
  split; [congruence|]. split; [congruence|]. split; [congruence|].
  split. { intros i c Hi Hc. apply Hc2; [|done]. by apply Hc1. }
  intros i j dev Hat.
  destruct (tcp_pass_device _ _ _ _ _ _ _ H1 Hat)
    as (dev1 & Hat1 & Htag1 & Hattr1 & Hlen1 & Hid1 & Hch1).
  destruct (tcp_pass_device _ _ _ _ _ _ _ H2 Hat1)
    as (dev2 & Hat2 & Htag2 & Hattr2 & Hlen2 & Hid2 & Hch2).
  exists dev2. split; [done|]. split; [congruence|]. split; [congruence|].
  split; [congruence|]. split.
  - intros Hs Hc. rewrite <- (Hid1 Hs). apply Hid2.
    by rewrite (Hid1 Hs).
  - intros k c Hk. destruct (Hch1 k c Hk) as (c1 & Hk1 & Hho1).
    destruct (Hch2 k c1 Hk1) as (c2 & Hk2 & Hho2).
    exists c2. split; [done|]. by eapply host_only_trans.
Qed.

(** ** The order of the patches *)

Section Swap.
Implicit Types (sel : Element → bool) (body : Element → result Element).

(** Two loops over the children of a node can be run in the other order
    when their steps can. *)
Lemma each_child_swap sel body sel' body' (e e1 e2 : Element) :
  (∀ x x1 x2, x ∈ children e →
     visited sel body x x1 → visited sel' body' x1 x2 →
     ∃ x1', visited sel' body' x x1' ∧ visited sel body x1' x2) →
  each_child sel body e = Ok e1 →
  each_child sel' body' e1 = Ok e2 →
  ∃ e1', each_child sel' body' e = Ok e1' ∧ each_child sel body e1' = Ok e2.
Proof.
  intros Hswap (cs1 & H1 & ->)%each_child_Ok (cs2 & H2 & ->)%each_child_Ok.
  simpl in H2.
  assert (∃ cs1', Forall2 (visited sel' body') (children e) cs1'
                  ∧ Forall2 (visited sel body) cs1' cs2) as (cs1' & Ha & Hb).
  { revert Hswap cs2 H2. induction H1 as [|x x1 l l1 Hx Hl IH];
      intros Hswap cs2 H2.
    - inversion H2; subst. exists []. split; constructor.
    - inversion H2 as [|? x2 ? l2 Hx2 Hl2]; subst.
      destruct (Hswap x x1 x2 (list_elem_of_here _ _) Hx Hx2)
        as (x1' & Hb1 & Ha1).
      destruct (IH (λ y y1 y2 Hy, Hswap y y1 y2 (list_elem_of_further _ _ _ Hy))
                   l2 Hl2) as (l1' & Hbl & Hal).
      exists (x1' :: l1'). split; by constructor. }
  exists (with_children cs1' e). split.
  - apply each_child_Ok. by exists cs1'.
  - apply each_child_Ok. exists cs2. by split.
Qed.

(** Two passes that select different devices, and produce no device the
    other selects, can be run in the other order. *)
Lemma pass_swap sel body sel' body' (xml_doc d1 d2 : Element) :
  (∀ x, sel x = true → sel' x = false) →
  (∀ x y, sel x = true → body x = Ok y → sel' y = false) →
  (∀ x y, sel' x = true → body' x = Ok y → sel y = false) →
  each_child (has_tag "devices") (each_child sel body) xml_doc = Ok d1 →
  each_child (has_tag "devices") (each_child sel' body') d1 = Ok d2 →
  ∃ d1', each_child (has_tag "devices") (each_child sel' body') xml_doc
         = Ok d1'
         ∧ each_child (has_tag "devices") (each_child sel body) d1' = Ok d2.
Proof.
  intros Hdis Hab Hba. apply each_child_swap.
  intros devices dv1 dv2 _ Hv1 Hv2. unfold visited in *.
  destruct (has_tag "devices" devices) eqn:Hdev.
  - assert (has_tag "devices" dv1 = true) as Hdev1.
    { apply has_tag_true. rewrite (each_child_tag _ _ _ _ Hv1).
      by apply has_tag_true. }
    rewrite Hdev1 in Hv2.
    destruct (each_child_swap sel body sel' body' devices dv1 dv2)
      as (dv1' & Hb & Ha); [|done|done|].
    + intros x x1 x2 _ Hx1 Hx2. unfold visited in *.
      destruct (sel x) eqn:Hs.
      * rewrite (Hab _ _ Hs Hx1) in Hx2. subst x2.
        exists x. rewrite (Hdis _ Hs), Hs. done.
      * subst x1. destruct (sel' x) eqn:Hs'.
        -- exists x2. split; [done|]. by rewrite (Hba _ _ Hs' Hx2).
        -- subst x2. exists x. by rewrite Hs.
    + exists dv1'. split; [done|].
      assert (has_tag "devices" dv1' = true) as ->; [|done].
      apply has_tag_true. rewrite (each_child_tag _ _ _ _ Hb).
      by apply has_tag_true.
  - subst dv1. rewrite Hdev in Hv2. subst dv2. exists devices.
    by rewrite Hdev.
Qed.

End Swap.

Section Order.
Context {C D : Type} (migrate_data : MigrateData C D).

Local Abbreviation graphics_body :=
  (update_graphics_dev (graphics_listen_addrs migrate_data)).
Local Abbreviation sources_body :=
  (each_child (has_tag "source")
     (update_serial_source (serial_listen_addr migrate_data))).

Lemma graphics_tcp_swap (name : string) (xml_doc d1 d2 : Element) :
  name ≠ "graphics" →
  (_update_graphics_xml xml_doc migrate_data = Ok d1
   ∧ update_tcp_sources name (serial_listen_addr migrate_data) d1 = Ok d2)
  → ∃ d1', update_tcp_sources name (serial_listen_addr migrate_data) xml_doc
           = Ok d1'
           ∧ _update_graphics_xml d1' migrate_data = Ok d2.
Proof.
  intros Hname [H1 H2]. eapply pass_swap; [| | |exact H1|exact H2].
  - intros x Hx%has_tag_true.
    apply (is_tcp_other "graphics"); [congruence|done].
  - intros x y Hx%has_tag_true Hy%update_graphics_dev_tag.
    apply (is_tcp_other "graphics"); congruence.
  - intros x y [Hx _]%is_tcp_true Hy%each_child_tag.
    apply (has_tag_other name); congruence.
Qed.

Lemma tcp_graphics_swap (name : string) (xml_doc d1 d2 : Element) :
  name ≠ "graphics" →
  (update_tcp_sources name (serial_listen_addr migrate_data) xml_doc = Ok d1
   ∧ _update_graphics_xml d1 migrate_data = Ok d2)
  → ∃ d1', _update_graphics_xml xml_doc migrate_data = Ok d1'
           ∧ update_tcp_sources name (serial_listen_addr migrate_data) d1'
             = Ok d2.
Proof.
  intros Hname [H1 H2]. eapply pass_swap; [| | |exact H1|exact H2].
  - intros x [Hx _]%is_tcp_true.
    apply (has_tag_other name); [congruence|done].
  - intros x y [Hx _]%is_tcp_true Hy%each_child_tag.
    apply (has_tag_other name); congruence.
  - intros x y Hx%has_tag_true Hy%update_graphics_dev_tag.
    apply (is_tcp_other "graphics"); congruence.
Qed.

(** X11: the graphics patch and the serial patch can be run in either
    order: one order returns a tree exactly when the other does, and the
    tree is the same. *)
Theorem graphics_serial_order (xml_doc xml_doc' : Element) :
  (_update_graphics_xml xml_doc migrate_data
     ≫= (λ d, _update_serial_xml d migrate_data)) = Ok xml_doc'
  ↔ (_update_serial_xml xml_doc migrate_data
       ≫= (λ d, _update_graphics_xml d migrate_data)) = Ok xml_doc'.
Proof.
  unfold _update_serial_xml. split.
  - destruct (_update_graphics_xml xml_doc migrate_data) as [g|e] eqn:Hg;
      [|done]. simpl.
    destruct (update_tcp_sources "serial" _ g) as [gs|e] eqn:Hs; [|done].
    simpl. intros Hc.
    destruct (graphics_tcp_swap "serial" _ _ _ ltac:(done) (conj Hg Hs))
      as (s & Hs' & Hg').
    destruct (graphics_tcp_swap "console" _ _ _ ltac:(done) (conj Hg' Hc))
      as (sc & Hc' & Hg'').
    by rewrite Hs'; simpl; rewrite Hc'.
  - destruct (update_tcp_sources "serial" _ xml_doc) as [s|e] eqn:Hs;
      [|done]. simpl.
    destruct (update_tcp_sources "console" _ s) as [sc|e] eqn:Hc; [|done].
    simpl. intros Hg.
    destruct (tcp_graphics_swap "console" _ _ _ ltac:(done) (conj Hc Hg))
      as (sg & Hg' & Hc').
    destruct (tcp_graphics_swap "serial" _ _ _ ltac:(done) (conj Hs Hg'))
      as (g & Hg'' & Hs').
    by rewrite Hg''; simpl; rewrite Hs'.
Qed.

End Order.

(** ** Volume patch: the merge, whatever the fragment *)

Section Merge.
Local Abbreviation tags l := (tag <$> l).
Local Abbreviation unseen seen := (filter (λ d : Element, tag d ∉ tags seen)).

Lemma findall_filter_other (t t' : Tag) (ds : list Element) :
  t ≠ t' → findall (filter (λ c, tag c ≠ t') ds) t = findall ds t.
Proof.
  intros Hne. unfold findall. rewrite list_filter_filter.
  apply list_filter_iff. intros d. split; [tauto|].
  intros Hd. split; [done|congruence].
Qed.

(** The same-tag replacement raises nothing but [ValueError] and
    [TypeError]. *)
Lemma merge_loop_only_raises (cs ds : list Element) (e : exn) :
  merge_loop cs ds = Raise e → e = ValueError ∨ e = TypeError.
Proof.
  revert ds. induction cs as [|c cs IH]; intros ds; [done|].
  cbn [merge_loop]. destruct (is_element c); [|intros [= <-]; by right].
  destruct (findall ds (tag c)) as [|d [|d' l]].
  - destruct (merge_loop cs ds) as [r|e'] eqn:Hl; [done|].
    simpl. intros [= <-]. by eapply IH.
  - destruct (merge_loop cs _) as [r|e'] eqn:Hl; [done|].
    simpl. intros [= <-]. by eapply IH.
  - intros [= <-]. by left.
Qed.

(** On elements it raises nothing but [ValueError]. *)
Lemma merge_loop_only_ValueError (cs ds : list Element) (e : exn) :
  Forall is_element cs → merge_loop cs ds = Raise e → e = ValueError.
Proof.
  intros Hel. revert ds.
  induction Hel as [|c cs Hc Hel IH]; intros ds; [done|].
  cbn [merge_loop]. rewrite (Is_true_true_1 _ Hc).
  destruct (findall ds (tag c)) as [|d [|d' l]].
  - destruct (merge_loop cs ds) as [r|e'] eqn:Hl; [done|].
    simpl. intros [= <-]. by eapply IH.
  - destruct (merge_loop cs _) as [r|e'] eqn:Hl; [done|].
    simpl. intros [= <-]. by eapply IH.
  - by intros [= <-].
Qed.

(** It raises [TypeError] only at a child that is not an element. *)
Lemma merge_loop_TypeError (cs ds : list Element) :
  merge_loop cs ds = Raise TypeError →
  ∃ c, c ∈ cs ∧ is_element c = false.
Proof.
  revert ds. induction cs as [|c cs IH]; intros ds; [done|].
  cbn [merge_loop]. destruct (is_element c) eqn:Hc.
  - assert (∀ ds', merge_loop cs ds' = Raise TypeError →
                   ∃ c0, c0 ∈ c :: cs ∧ is_element c0 = false) as Hrest.
    { intros ds' Hl. destruct (IH _ Hl) as (c0 & Hin & Hc0).
      exists c0. split; [by apply list_elem_of_further|done]. }
    destruct (findall ds (tag c)) as [|d [|d' l]]; [| |done].
    + destruct (merge_loop cs ds) as [r|e'] eqn:Hl; [done|].
      simpl. intros [= ->]. eauto.
    + destruct (merge_loop cs _) as [r|e'] eqn:Hl; [done|].
      simpl. intros [= ->]. eauto.
  - intros _. exists c. split; [apply list_elem_of_here|done].
Qed.

(** With distinct tags in the fragment, a child that is not an element
    makes it raise [TypeError]. *)
Lemma merge_loop_comment (cs ds : list Element) (c : Element) :
  NoDup (tags ds) → c ∈ cs → is_element c = false →
  merge_loop cs ds = Raise TypeError.
Proof.
  intros Hnd Hc Hcomment. revert ds Hnd.
  induction cs as [|x cs IH]; intros ds Hnd;
    [by apply not_elem_of_nil in Hc|].
  cbn [merge_loop]. destruct (is_element x) eqn:Hx; [|done].
  apply elem_of_cons in Hc as [->|Hc]; [congruence|].
  destruct (findall_NoDup ds (tag x) Hnd) as [Hf|[d Hf]]; rewrite Hf.
  - by rewrite (IH Hc ds Hnd).
  - by rewrite (IH Hc _ (NoDup_tags_filter _ _ Hnd)).
Qed.

(** When it returns, the children keep their tags and their number, and
    what is left of the fragment are its children of tags the disk node
    did not have. *)
Lemma merge_loop_rest (cs ds cs1 ds1 : list Element) :
  merge_loop cs ds = Ok (cs1, ds1) →
  tags cs1 = tags cs ∧ length cs1 = length cs ∧ ds1 = unseen cs ds.
Proof.
  revert ds cs1 ds1. induction cs as [|c cs IH]; intros ds cs1 ds1.
  - intros [= <- <-]. by rewrite unseen_nil.
  - cbn [merge_loop]. rewrite unseen_cons.
    destruct (is_element c); [|done].
    destruct (findall ds (tag c)) as [|d [|d' l]] eqn:Hf; [| |done].
    + destruct (merge_loop cs ds) as [[cs' ds']|e] eqn:Hl; [|done].
      simpl. intros [= <- <-].
      destruct (IH _ _ _ Hl) as (Ht & Hn & Hd).
      rewrite (filter_tag_ne_id _ _ Hf). rewrite !fmap_cons, Ht. simpl.
      by rewrite Hn.
    + destruct (merge_loop cs _) as [[cs' ds']|e] eqn:Hl; [|done].
      simpl. intros [= <- <-].
      destruct (IH _ _ _ Hl) as (Ht & Hn & Hd).
      destruct (findall_elem _ _ _ _ Hf) as [_ Htd].
      rewrite !fmap_cons, Ht. simpl. by rewrite Hn, Htd.
Qed.

Lemma findall_cons (c : Element) (cs : list Element) (t : Tag) :
  findall (c :: cs) t
  = if decide (tag c = t) then c :: findall cs t else findall cs t.
Proof. unfold findall. by rewrite filter_cons. Qed.

(** When it returns, the first child of a tag is the fragment's first
    child of that tag, its tail cleared, if the fragment has one, and the
    disk node's first child of that tag otherwise. *)
Lemma merge_loop_first (cs ds cs1 ds1 : list Element) (t : Tag) :
  merge_loop cs ds = Ok (cs1, ds1) →
  head (findall cs1 t)
  = match head (findall cs t), head (findall ds t) with
    | Some c, Some d => Some (with_tail None d)
    | Some c, None => Some c
    | None, _ => None
    end.
Proof.
  revert ds cs1 ds1. induction cs as [|c cs IH]; intros ds cs1 ds1.
  - by intros [= <- <-].
  - cbn [merge_loop]. rewrite (findall_cons c cs).
    destruct (is_element c); [|done].
    destruct (findall ds (tag c)) as [|d [|d' l]] eqn:Hf; [| |done].
    + destruct (merge_loop cs ds) as [[cs' ds']|e] eqn:Hl; [|done].
      simpl. intros [= <- <-]. rewrite findall_cons.
      destruct (decide (tag c = t)) as [<-|Hne].
      * by rewrite Hf.
      * by eapply IH.
    + destruct (merge_loop cs _) as [[cs' ds']|e] eqn:Hl; [|done].
      simpl. intros [= <- <-]. rewrite findall_cons. simpl.
      destruct (findall_elem _ _ _ _ Hf) as [_ Htd]. rewrite Htd.
      destruct (decide (tag c = t)) as [<-|Hne].
      * by rewrite Hf.
      * rewrite (IH _ _ _ Hl). by rewrite findall_filter_other.
Qed.

(** A child of a disk node of elements whose tag the fragment has twice
    makes it raise. *)
Lemma merge_loop_twice (cs ds : list Element) (c : Element) :
  Forall is_element cs →
  c ∈ cs → 2 ≤ length (findall ds (tag c)) →
  merge_loop cs ds = Raise ValueError.
Proof.
  intros Hel Hc Htwice.
  assert (∃ e, merge_loop cs ds = Raise e) as [e He];
    [|by rewrite He, (merge_loop_only_ValueError _ _ _ Hel He)].
  clear Hel. revert ds Htwice. induction cs as [|x cs IH]; intros ds Htwice;
    [by apply not_elem_of_nil in Hc|].
  cbn [merge_loop]. destruct (is_element x); [|by eexists].
  destruct (decide (tag x = tag c)) as [Heq|Hne].
  - rewrite Heq. destruct (findall ds (tag c)) as [|d [|d' l]];
      simpl in Htwice; [lia|lia|by eexists].
  - apply elem_of_cons in Hc as [->|Hc]; [done|].
    destruct (findall ds (tag x)) as [|d [|d' l]]; [| |by eexists].
    + destruct (IH Hc ds Htwice) as [e ->]. by eexists.
    + destruct (IH Hc (filter (λ c0, tag c0 ≠ tag x) ds)) as [e ->];
        [|by eexists].
      by rewrite findall_filter_other.
Qed.

End Merge.

Section MergeChildren.
Context {ConnInfo DiskInfo : Type}.
Implicit Types (st : vol_state ConnInfo DiskInfo).

(** X12: for a fragment whose children have pairwise distinct tags, the
    merge into a non-empty disk node whose children are all elements
    returns; the children of the node keep their places, each replaced by
    the fragment's child of its tag if it is the first of that tag; the
    fragment's children of other tags are inserted just before the last
    child, in reverse order, and [cnt] is left at the index of the last
    source child. *)
Theorem merge_children_shape (cs ds : list Element) st :
  cs ≠ [] → Forall is_element cs → NoDup (tag <$> ds) →
  ∃ cs1,
    length cs1 = length cs
    ∧ (∀ i c, cs !! i = Some c →
              cs1 !! i = Some (merged_child ds (take i cs) c))
    ∧ merge_children cs ds st
      = (Ok (take (length cs - 1) cs1
             ++ reverse (with_tail None
                           <$> filter (λ d, tag d ∉ tag <$> cs) ds)
             ++ drop (length cs - 1) cs1),
         mkVolState (calls st) (Some (length cs - 1))).
Proof.
  intros Hne Hel Hnd.
  destruct (merge_loop_unseen ds cs [] Hnd Hel)
    as (cs1 & Hloop & Hlen & Hat).
  rewrite unseen_nil in Hloop. simpl in Hloop.
  exists cs1. split; [done|]. split; [exact Hat|].
  unfold merge_children.
  pose proof (replace_loop_merge cs [] ds (length cs) (cnt_var st)
                ltac:(done)) as Hrun.
  simpl in Hrun. rewrite Hrun, Hloop.
  destruct cs as [|c cs]; [done|]. simpl length.
  replace (S (length cs) - 1) with (length cs) by lia.
  destruct (filter _ ds) as [|d rest] eqn:Hrest.
  - simpl. by rewrite take_drop.
  - rewrite insert_rest_app by (simpl in Hlen; lia). done.
Qed.

(** X13: when the children of the disk node are all elements and the
    fragment has two children of a tag that one of them has, the same-tag
    replacement raises [ValueError], and so does the merge. *)
Theorem merge_twice_raises (cs ds : list Element) (c : Element) st :
  Forall is_element cs →
  c ∈ cs → 2 ≤ length (findall ds (tag c)) →
  replace_loop (length cs) 0 (cnt_var st) cs ds = Raise ValueError
  ∧ merge_children cs ds st = (Raise ValueError, st).
Proof.
  intros Hel Hc Htwice.
  pose proof (replace_loop_merge cs [] ds (length cs) (cnt_var st)
                ltac:(done)) as Hrun.
  simpl in Hrun. rewrite (merge_loop_twice _ _ _ Hel Hc Htwice) in Hrun.
  split; [done|]. unfold merge_children. by rewrite Hrun.
Qed.

(** X25: a child of the disk node that is not an element (a comment, a
    processing instruction) makes the same-tag replacement raise
    [TypeError], and so the merge, when the fragment's children have
    pairwise distinct tags. *)
Theorem merge_comment_raises (cs ds : list Element) (c : Element) st :
  NoDup (tag <$> ds) →
  c ∈ cs → is_element c = false →
  replace_loop (length cs) 0 (cnt_var st) cs ds = Raise TypeError
  ∧ merge_children cs ds st = (Raise TypeError, st).
Proof.
  intros Hnd Hc Hcomment.
  pose proof (replace_loop_merge cs [] ds (length cs) (cnt_var st)
                ltac:(done)) as Hrun.
  simpl in Hrun. rewrite (merge_loop_comment _ _ _ Hnd Hc Hcomment) in Hrun.
  split; [done|]. unfold merge_children. by rewrite Hrun.
Qed.

End MergeChildren.

Lemma merge_children_shape_witness :
  ∃ cs1,
    length cs1 = length (children sample_disk)
    ∧ (∀ i c, children sample_disk !! i = Some c →
              cs1 !! i
              = Some (merged_child (children sample_fragment)
                                   (take i (children sample_disk)) c))
    ∧ merge_children (children sample_disk) (children sample_fragment)
                     (mkVolState [("iscsi", "vdb")] None)
      = (Ok (take (length (children sample_disk) - 1) cs1
             ++ reverse (with_tail None
                           <$> filter (λ d, tag d ∉ tag <$> children sample_disk)
                                      (children sample_fragment))
             ++ drop (length (children sample_disk) - 1) cs1),
         mkVolState [("iscsi", "vdb")]
                    (Some (length (children sample_disk) - 1))).
Proof.
  apply (merge_children_shape (children sample_disk)
           (children sample_fragment) (mkVolState [("iscsi", "vdb")] None)).
  - discriminate.
  - exact sample_disk_elements.
  - exact sample_fragment_distinct.
Defined.

Lemma merge_twice_raises_witness :
  replace_loop (length [leaf "hint" []]) 0 None [leaf "hint" []]
               (children twin_fragment)
  = Raise ValueError
  ∧ merge_children [leaf "hint" []] (children twin_fragment)
                   (mkVolState (@nil (string * string)) None)
    = (Raise ValueError, mkVolState [] None).
Proof.
  apply (merge_twice_raises [leaf "hint" []] (children twin_fragment)
           (leaf "hint" []) (mkVolState [] None)).
  - repeat constructor.
  - apply list_elem_of_here.
  - vm_compute. lia.
Defined.

Lemma merge_comment_raises_witness :
  replace_loop (length (children commented_disk)) 0 None
               (children commented_disk) (children sample_fragment)
  = Raise TypeError
  ∧ merge_children (children commented_disk) (children sample_fragment)
                   (mkVolState (@nil (string * string)) None)
    = (Raise TypeError, mkVolState [] None).
Proof.
  apply (merge_comment_raises (children commented_disk)
           (children sample_fragment) (comment " boot volume ")
           (mkVolState [] None)).
  - exact sample_fragment_distinct.
  - apply list_elem_of_further, list_elem_of_here.
  - reflexivity.
Defined.

(** ** Volume patch: the provider *)

Section Provider.
Context {ConnInfo DiskInfo : Type}.
Context (get_volume_config : provider ConnInfo DiskInfo).
Context (migrate_data : MigrateData ConnInfo DiskInfo).
Implicit Types (st : vol_state ConnInfo DiskInfo).

Local Abbreviation by_serial := (bdm_info_by_serial (bdms migrate_data)).
Local Abbreviation volume_pass :=
  (each_child (has_tag "devices")
     (each_child (has_tag "disk") (disk_patch get_volume_config by_serial))).

(** X14: when the fragment the provider returns for a disk does not carry
    the serial of the disk, or the serial is the empty string, the disk
    node is returned unchanged, and the call made to the provider is the
    only thing recorded. *)
Theorem stale_fragment_ignored (disk_dev xml_doc2 : Element) st
    (serial_source : string) (bdm_info : BDMInfo ConnInfo DiskInfo)
    (conn : ConnInfo) :
  findtext disk_dev "serial" = Some serial_source →
  by_serial !! serial_source = Some bdm_info →
  connection_info bdm_info = Some conn →
  get_volume_config conn (disk_info bdm_info) = Ok xml_doc2 →
  findtext xml_doc2 "serial" ≠ Some serial_source
  ∨ serial_source = EmptyString →
  update_disk_dev get_volume_config by_serial disk_dev st
  = (Ok disk_dev,
     mkVolState (calls st ++ [(conn, disk_info bdm_info)]) (cnt_var st)).
Proof.
  intros Hs Hb Hconn Hfrag Hstale. unfold update_disk_dev.
  rewrite Hs. simpl. rewrite Hb, Hconn.
  rewrite bool_decide_true by eauto.
  rewrite vm_bind_run. unfold call_provider. rewrite Hfrag.
  assert (truthy (findtext xml_doc2 "serial")
          && bool_decide (Some serial_source = findtext xml_doc2 "serial")
          = false) as ->; [|done].
  destruct Hstale as [Hne| ->].
  - rewrite bool_decide_false by congruence. apply andb_false_r.
  - destruct (findtext xml_doc2 "serial") as [s|]; [|done].
    destruct (decide (s = EmptyString)) as [->|Hne]; [done|].
    rewrite (bool_decide_false (Some EmptyString = Some s)) by congruence.
    apply andb_false_r.
Qed.

(** X15: when the provider raises for a disk that is not passed over, the
    body of the loop raises that exception, the call being recorded, and
    the volume patch returns no tree: a failure of the provider is not
    taken for a disk without a match. *)
Theorem provider_failure_raises (xml_doc : Element) (i j : nat)
    (disk_dev : Element) (serial_source : string)
    (bdm_info : BDMInfo ConnInfo DiskInfo) (conn : ConnInfo) (e : exn) :
  device_at xml_doc i j disk_dev →
  tag disk_dev = "disk" →
  findtext disk_dev "serial" = Some serial_source →
  by_serial !! serial_source = Some bdm_info →
  connection_info bdm_info = Some conn →
  get_volume_config conn (disk_info bdm_info) = Raise e →
  (∀ st, update_disk_dev get_volume_config by_serial disk_dev st
         = (Raise e,
            mkVolState (calls st ++ [(conn, disk_info bdm_info)])
                       (cnt_var st)))
  ∧ ∃ e', (_update_volume_xml xml_doc migrate_data get_volume_config).1
          = Raise e'.
Proof.
  intros Hat Htag Hs Hb Hconn Hfail. split.
  - intros st. unfold update_disk_dev. rewrite Hs. simpl.
    rewrite Hb, Hconn, bool_decide_true by eauto.
    rewrite vm_bind_run. unfold call_provider. by rewrite Hfail.
  - rewrite update_volume_xml_fst.
    destruct (volume_pass xml_doc) as [xml_doc'|e'] eqn:Hpass; [|by eexists].
    exfalso.
    destruct (pass_device _ _ _ _ _ _ _ Hpass Hat) as (disk' & _ & Hv).
    unfold visited in Hv. rewrite (proj2 (has_tag_true _ _) Htag) in Hv.
    unfold disk_patch in Hv. by rewrite Hs, Hb, Hconn, Hfail in Hv.
Qed.

Lemma each_child_raises_in (P : exn → Prop) (sel : Element → bool)
    (body : Element → result Element) :
  (∀ y err, body y = Raise err → P err) →
  ∀ e err, each_child sel body e = Raise err → P err.
Proof.
  intros Hin e err. unfold each_child.
  destruct (mapM _ (children e)) as [cs|err'] eqn:Hm; [done|].
  simpl. intros [= ->]. revert Hm. generalize (children e) as l.
  induction l as [|x l IH]; [done|]. rewrite mapM_cons.
  destruct (if sel x then body x else mret x) as [y|e0] eqn:Hx.
  - destruct (mapM _ l); [done|]. intros [= ->]. by apply IH.
  - intros [= ->]. destruct (sel x); [by eapply Hin|done].
Qed.

(** A loop that raises does so in its body, at a child it selects. *)
Lemma each_child_raises_at (sel : Element → bool)
    (body : Element → result Element) (e : Element) (err : exn) :
  each_child sel body e = Raise err →
  ∃ x, x ∈ children e ∧ sel x = true ∧ body x = Raise err.
Proof.
  unfold each_child.
  destruct (mapM _ (children e)) as [cs|err'] eqn:Hm; [done|].
  simpl. intros [= ->]. revert Hm. generalize (children e) as l.
  induction l as [|x l IH]; [done|]. rewrite mapM_cons.
  destruct (if sel x then body x else mret x) as [y|e0] eqn:Hx.
  - destruct (mapM _ l); [done|]. intros [= ->].
    destruct IH as (x' & Hin & Hsel & Hraise); [done|].
    exists x'. split; [by apply list_elem_of_further|done].
  - intros [= ->]. exists x. split; [apply list_elem_of_here|].
    by destruct (sel x).
Qed.

(** X16: the volume patch raises nothing of its own but [ValueError] and
    [TypeError], and [TypeError] only when a disk node of the descriptor
    has a child that is not an element; any other exception it ends with
    was raised by the provider, called for a block device mapping of the
    context. *)
Theorem volume_patch_exceptions (xml_doc : Element) (e : exn) :
  (_update_volume_xml xml_doc migrate_data get_volume_config).1 = Raise e →
  e = ValueError
  ∨ (e = TypeError
     ∧ ∃ i j disk_dev item_src,
         device_at xml_doc i j disk_dev
         ∧ tag disk_dev = "disk"
         ∧ item_src ∈ children disk_dev
         ∧ is_element item_src = false)
  ∨ ∃ bdm_info conn,
      bdm_info ∈ bdms migrate_data
      ∧ connection_info bdm_info = Some conn
      ∧ get_volume_config conn (disk_info bdm_info) = Raise e.
Proof.
  rewrite update_volume_xml_fst. intros Hpass.
  apply each_child_raises_at in Hpass as (devices & Hdev & Hdt & Hpass).
  apply each_child_raises_at in Hpass as (disk & Hdisk & Hkt & Hpass).
  apply list_elem_of_lookup in Hdev as [i Hi].
  apply list_elem_of_lookup in Hdisk as [j Hj].
  apply has_tag_true in Hdt. apply has_tag_true in Hkt.
  revert Hpass. unfold disk_patch.
  destruct (findtext disk "serial") as [s|]; [|done].
  destruct (by_serial !! s) as [b|] eqn:Hb; [|done].
  destruct (connection_info b) as [conn|] eqn:Hconn; [|done].
  destruct (get_volume_config conn (disk_info b)) as [frag|e'] eqn:Hfrag.
  - simpl. destruct (truthy _ && _); [|done].
    unfold merged.
    destruct (merge_loop _ _) as [r|e'] eqn:Hloop; [done|].
    simpl. intros [= <-].
    destruct (merge_loop_only_raises _ _ _ Hloop) as [->| ->]; [by left|].
    right. left. split; [done|].
    destruct (merge_loop_TypeError _ _ Hloop) as (c & Hc & Hcomment).
    exists i, j, disk, c. split; [|done]. by exists devices.
  - simpl. intros [= <-]. right. right. exists b, conn.
    apply bdm_info_by_serial_Some in Hb as [Hin _]. done.
Qed.

End Provider.

(** ** Volume patch: the calls to the provider *)

Section Calls.
Context {ConnInfo DiskInfo : Type}.
Context (get_volume_config : provider ConnInfo DiskInfo).
Context (migrate_data : MigrateData ConnInfo DiskInfo).
Implicit Types (st : vol_state ConnInfo DiskInfo).
Implicit Types (f : Element → VM ConnInfo DiskInfo Element).

Local Abbreviation by_serial := (bdm_info_by_serial (bdms migrate_data)).

(** What a loop does to the state is bounded by what its body does: an
    invariant of the body is one of the loop, and the calls recorded grow
    by no more than the body's bound on each child. *)
Lemma vm_mapM_state (I : vol_state ConnInfo DiskInfo → Prop)
    (w : Element → nat) f (l : list Element) st :
  (∀ x st, I st → I (f x st).2
                  ∧ length (calls (f x st).2) ≤ length (calls st) + w x) →
  I st →
  I (mapM f l st).2
  ∧ length (calls (mapM f l st).2) ≤ length (calls st) + sum_list (w <$> l).
Proof.
  intros Hf. revert st. induction l as [|x l IH]; intros st Hst.
  - simpl. split; [done|]. unfold mret, VM_ret. simpl. lia.
  - rewrite vm_mapM_cons, fmap_cons.
    change (sum_list (w x :: (w <$> l))) with (w x + sum_list (w <$> l)).
    destruct (Hf x st Hst) as [Hx Hlen]. specialize (IH (f x st).2 Hx).
    remember (sum_list (w <$> l)) as n eqn:Hn. clear Hn.
    destruct (f x st) as [[y|e] st1]; simpl in *; [|split; [done|lia]].
    destruct IH as [Hl Hlen'].
    destruct (mapM f l st1) as [[k|e] st2]; simpl in *; split; try done; lia.
Qed.

Lemma vm_each_child_state (I : vol_state ConnInfo DiskInfo → Prop)
    (w : Element → nat) (sel : Element → bool) f (e : Element) st :
  (∀ x st, I st → I (f x st).2
                  ∧ length (calls (f x st).2) ≤ length (calls st) + w x) →
  I st →
  I (each_child sel f e st).2
  ∧ length (calls (each_child sel f e st).2)
    ≤ length (calls st)
      + sum_list ((λ c, if sel c then w c else 0) <$> children e).
Proof.
  intros Hf Hst. unfold each_child. rewrite vm_bind_run.
  destruct (vm_mapM_state I (λ c, if sel c then w c else 0)
              (λ c, if sel c then f c else mret c) (children e) st)
    as [Hm Hlen]; [|done|].
  - intros x st' Hst'. destruct (sel x); [by apply Hf|].
    unfold mret, VM_ret. simpl. split; [done|lia].
  - by destruct (mapM (M:=VM ConnInfo DiskInfo) _ (children e) st)
      as [[cs|err] st1].
Qed.

Lemma sum_list_select (sel : Element → bool) (P : Element → Prop)
    `{!∀ c, Decision (P c)} (w : Element → nat) (l : list Element) :
  (∀ c, sel c = true ↔ P c) →
  sum_list ((λ c, if sel c then w c else 0) <$> l)
  = sum_list (w <$> filter P l).
Proof.
  intros Hsel. induction l as [|c l IH]; [done|].
  rewrite fmap_cons, filter_cons. simpl. rewrite IH.
  destruct (sel c) eqn:Hs.
  - rewrite decide_True by (by apply Hsel). done.
  - rewrite decide_False; [done|]. rewrite <- Hsel. congruence.
Qed.

Lemma length_bind_sum {A B : Type} (g : A → list B) (l : list A) :
  length (l ≫= g) = sum_list ((λ x, length (g x)) <$> l).
Proof.
  induction l as [|x l IH]; [done|].
  rewrite bind_cons, length_app, IH. done.
Qed.

(** The body of the loop records at most one call, made for a block device
    mapping of the context, with its connection info and disk info. *)
Lemma update_disk_dev_calls (disk_dev : Element) st :
  ∃ made,
    calls (update_disk_dev get_volume_config by_serial disk_dev st).2
    = calls st ++ made
    ∧ length made ≤ 1
    ∧ Forall (λ call, ∃ bdm_info,
                bdm_info ∈ bdms migrate_data
                ∧ connection_info bdm_info = Some call.1
                ∧ disk_info bdm_info = call.2) made.
Proof.
  unfold update_disk_dev.
  assert (∃ made : list (ConnInfo * DiskInfo),
            calls st = calls st ++ made ∧ length made ≤ 1
            ∧ Forall (λ call, ∃ bdm_info,
                bdm_info ∈ bdms migrate_data
                ∧ connection_info bdm_info = Some call.1
                ∧ disk_info bdm_info = call.2) made) as Hnone.
  { exists []. rewrite app_nil_r. repeat split; [simpl; lia|constructor]. }
  destruct (findtext disk_dev "serial") as [s|]; [|done]. simpl.
  destruct (by_serial !! s) as [b|] eqn:Hb; [|done].
  destruct (connection_info b) as [conn|] eqn:Hconn; [|done].
  rewrite bool_decide_true by eauto.
  rewrite vm_bind_run. unfold call_provider.
  exists [(conn, disk_info b)].
  assert (Forall (λ call : ConnInfo * DiskInfo, ∃ bdm_info,
                bdm_info ∈ bdms migrate_data
                ∧ connection_info bdm_info = Some call.1
                ∧ disk_info bdm_info = call.2) [(conn, disk_info b)]) as HQ.
  { constructor; [|constructor]. exists b.
    apply bdm_info_by_serial_Some in Hb as [Hin _]. done. }
  destruct (get_volume_config conn (disk_info b)) as [frag|e]; [|done].
  destruct (truthy _ && _); [|done].
  rewrite vm_bind_run. unfold merge_children.
  destruct (replace_loop _ _ _ _ _) as [[[cnt cs] rest]|e]; [|done].
  simpl. by destruct rest, cnt.
Qed.

(** X17: the volume patch calls the provider at most once for each disk
    node of the descriptor, and every call it makes is for a block device
    mapping of the context, with the connection info and the disk info of
    that mapping; this holds whether the patch returns or raises. *)
Theorem volume_patch_calls (xml_doc : Element) :
  length (_update_volume_xml xml_doc migrate_data get_volume_config).2
  ≤ length (disk_nodes xml_doc)
  ∧ Forall (λ call, ∃ bdm_info,
              bdm_info ∈ bdms migrate_data
              ∧ connection_info bdm_info = Some call.1
              ∧ disk_info bdm_info = call.2)
           (_update_volume_xml xml_doc migrate_data get_volume_config).2.
Proof.
  set (Q := λ call : ConnInfo * DiskInfo, ∃ bdm_info,
              bdm_info ∈ bdms migrate_data
              ∧ connection_info bdm_info = Some call.1
              ∧ disk_info bdm_info = call.2).
  set (I := λ st, Forall Q (calls st)).
  assert (∀ x st, I st →
            I (update_disk_dev get_volume_config by_serial x st).2
            ∧ length (calls (update_disk_dev get_volume_config by_serial
                               x st).2)
              ≤ length (calls st) + 1) as Hbody.
  { intros x st Hst.
    destruct (update_disk_dev_calls x st) as (made & Heq & Hlen & HQ).
    unfold I in *. rewrite Heq.
    split; [by apply Forall_app|]. rewrite length_app. lia. }
  assert (∀ devices st, I st →
            I (each_child (has_tag "disk")
                 (update_disk_dev get_volume_config by_serial) devices st).2
            ∧ length (calls (each_child (has_tag "disk")
                 (update_disk_dev get_volume_config by_serial) devices st).2)
              ≤ length (calls st)
                + length (filter (λ c, tag c = "disk") (children devices)))
    as Hdevices.
  { intros devices st Hst.
    destruct (vm_each_child_state I (λ _, 1) (has_tag "disk")
                (update_disk_dev get_volume_config by_serial) devices st
                Hbody Hst) as [HI Hlen].
    split; [done|].
    rewrite (sum_list_select _ (λ c, tag c = "disk")) in Hlen
      by (intros c; apply has_tag_true).
    replace (sum_list ((λ _, 1) <$> filter (λ c, tag c = "disk")
                                          (children devices)))
      with (length (filter (λ c, tag c = "disk") (children devices)))
      in Hlen; [done|].
    generalize (filter (λ c, tag c = "disk") (children devices)).
    intros l. induction l as [|c l IH]; [done|]. simpl. by rewrite IH. }
  unfold _update_volume_xml, update_volumes. simpl.
  destruct (vm_each_child_state I
              (λ devices, length (filter (λ c, tag c = "disk")
                                         (children devices)))
              (has_tag "devices")
              (each_child (has_tag "disk")
                 (update_disk_dev get_volume_config by_serial))
              xml_doc (mkVolState [] None) Hdevices)
    as [HI Hlen]; [constructor|].
  split; [|exact HI]. simpl in Hlen.
  rewrite (sum_list_select _ (λ c, tag c = "devices")) in Hlen
    by (intros c; apply has_tag_true).
  unfold disk_nodes. by rewrite length_bind_sum.
Qed.

(** X18: with no block device mapping in the context the volume patch
    returns the descriptor unchanged and calls the provider for no
    disk. *)
Theorem volume_patch_no_bdms (xml_doc : Element) :
  bdms migrate_data = [] →
  _update_volume_xml xml_doc migrate_data get_volume_config
  = (Ok xml_doc, []).
Proof.
  intros Hempty. apply volume_patch_all_skipped.
  intros i j disk _ _. unfold skipped.
  destruct (findtext disk "serial"); [|done].
  left. rewrite Hempty. intros b Hb. by apply not_elem_of_nil in Hb.
Qed.

End Calls.

(** ** Volume patch: what a merged disk keeps *)

Section MergedDisk.
Local Abbreviation tags l := (tag <$> l).
Local Abbreviation unseen seen := (filter (λ d : Element, tag d ∉ tags seen)).

Lemma list_find_head {A : Type} (P : A → Prop) `{!∀ x, Decision (P x)}
    (l : list A) :
  snd <$> list_find P l = head (filter P l).
Proof.
  induction l as [|x l IH]; [done|]. cbn [list_find].
  rewrite filter_cons. destruct (decide (P x)); [done|].
  rewrite <- IH. by destruct (list_find P l) as [[i y]|].
Qed.

Lemma findtext_head (e : Element) (t : string) :
  findtext e t
  = (λ c, default EmptyString (text c)) <$> head (findall (children e) t).
Proof.
  unfold findtext, find, findall. rewrite <- list_find_head.
  by destruct (list_find _ (children e)) as [[i c]|].
Qed.

Lemma findall_app (l1 l2 : list Element) (t : Tag) :
  findall (l1 ++ l2) t = findall l1 t ++ findall l2 t.
Proof. unfold findall. apply filter_app. Qed.

Lemma head_findall_elem (cs : list Element) (t : Tag) :
  t ∈ tags cs ↔ is_Some (head (findall cs t)).
Proof.
  split.
  - intros (c & -> & Hc)%list_elem_of_fmap.
    assert (c ∈ findall cs (tag c)) as Hin
      by (by apply list_elem_of_filter).
    destruct (findall cs (tag c)); [by apply not_elem_of_nil in Hin|].
    by eexists.
  - intros [c Hc]. destruct (findall cs t) as [|c' l] eqn:Hf; [done|].
    destruct (findall_elem _ _ _ _ Hf) as [Hin <-].
    apply list_elem_of_fmap. eauto.
Qed.

(** The merge of a non-empty disk node, when it returns, leaves no fewer
    children, keeps a child of every tag the node had, and puts first,
    among the children of such a tag, the fragment's first child of that
    tag with its tail cleared, when the fragment has one. *)
Lemma merged_first (cs ds cs' : list Element) :
  cs ≠ [] → merged cs ds = Ok cs' →
  length cs ≤ length cs'
  ∧ ∀ t, t ∈ tags cs →
         head (findall cs' t)
         = match head (findall ds t) with
           | Some d => Some (with_tail None d)
           | None => head (findall cs t)
           end.
Proof.
  intros Hne. unfold merged.
  destruct (merge_loop cs ds) as [[cs1 ds1]|e] eqn:Hloop; [|done].
  simpl. intros [= <-].
  destruct (merge_loop_rest _ _ _ _ Hloop) as (Htags & Hlen & ->).
  rewrite insert_rest_app by lia. split.
  - rewrite !length_app, length_take, length_drop. lia.
  - intros t Ht. rewrite !findall_app.
    assert (findall (reverse (with_tail None <$> unseen cs ds)) t = [])
      as ->.
    { apply filter_none. intros x Hx Hxt.
      apply elem_of_reverse, list_elem_of_fmap in Hx as (d & -> & Hd).
      apply list_elem_of_filter in Hd as [Hd _]. simpl in Hxt.
      by rewrite Hxt in Hd. }
    simpl. rewrite <- findall_app, take_drop.
    rewrite (merge_loop_first _ _ _ _ t Hloop).
    apply head_findall_elem in Ht as [c ->].
    by destruct (head (findall ds t)).
Qed.

End MergedDisk.

Section DiskKeeps.
Context {ConnInfo DiskInfo : Type}.
Context (get_volume_config : provider ConnInfo DiskInfo).
Context (migrate_data : MigrateData ConnInfo DiskInfo).
Implicit Types (st : vol_state ConnInfo DiskInfo).

Local Abbreviation by_serial := (bdm_info_by_serial (bdms migrate_data)).

(** X19: when the merge of lines 117-129 returns on a non-empty disk node,
    the node has at least as many children as before, and for every tag
    the node had, the first child of that tag is now the fragment's first
    child of that tag with its tail cleared, or the node's own when the
    fragment has none. *)
Theorem merge_children_first (cs ds cs' : list Element) st st' :
  cs ≠ [] →
  merge_children cs ds st = (Ok cs', st') →
  length cs ≤ length cs'
  ∧ ∀ t, t ∈ tag <$> cs →
         head (findall cs' t)
         = match head (findall ds t) with
           | Some d => Some (with_tail None d)
           | None => head (findall cs t)
           end.
Proof.
  intros Hne Hrun. apply merged_first; [done|].
  rewrite <- (merge_children_run cs ds st Hne). by rewrite Hrun.
Qed.

Lemma disk_patch_keeps (x y : Element) :
  disk_patch get_volume_config by_serial x = Ok y →
  tag y = tag x ∧ attrib y = attrib x ∧ text y = text x ∧ tail y = tail x
  ∧ findtext y "serial" = findtext x "serial"
  ∧ length (children x) ≤ length (children y)
  ∧ ∀ t, t ∈ tag <$> children x → t ∈ tag <$> children y.
Proof.
  unfold disk_patch.
  destruct (findtext x "serial") as [s|] eqn:Hs;
    [|intros [= <-]; by rewrite Hs].
  destruct (by_serial !! s) as [b|]; [|intros [= <-]; by rewrite Hs].
  destruct (connection_info b) as [conn|]; [|intros [= <-]; by rewrite Hs].
  destruct (get_volume_config conn (disk_info b)) as [frag|e]; [|done].
  simpl.
  destruct (truthy (findtext frag "serial")
            && bool_decide (Some s = findtext frag "serial")) eqn:Hsame;
    [|intros [= <-]; by rewrite Hs].
  destruct (merged (children x) (children frag)) as [cs|e] eqn:Hm; [|done].
  simpl. intros [= <-].
  assert (children x ≠ []) as Hne.
  { unfold findtext, find in Hs. by destruct (children x). }
  destruct (merged_first _ _ _ Hne Hm) as [Hlen Hfirst].
  apply andb_true_iff in Hsame as [_ Hdest].
  apply bool_decide_eq_true in Hdest.
  repeat split; try done.
  - rewrite findtext_head in *. simpl.
    assert (("serial" : Tag) ∈ tag <$> children x) as Hin.
    { apply head_findall_elem.
      by destruct (head (findall (children x) "serial")); [eexists|]. }
    rewrite (Hfirst _ Hin).
    destruct (head (findall (children frag) "serial")) as [d|]; [|done].
    simpl in *. congruence.
  - intros t Ht. simpl. apply head_findall_elem. rewrite (Hfirst _ Ht).
    destruct (head (findall (children frag) t)); [by eexists|].
    by apply head_findall_elem.
Qed.

(** X20: when the volume patch returns, every disk node is where it was,
    with its tag, its attributes and the text of its first [serial] child;
    it has at least as many children as before, and it still has a child
    of every tag it had. *)
Theorem volume_patch_keeps (xml_doc xml_doc' : Element)
    (made : list (ConnInfo * DiskInfo)) (i j : nat) (disk_dev : Element) :
  _update_volume_xml xml_doc migrate_data get_volume_config
  = (Ok xml_doc', made) →
  device_at xml_doc i j disk_dev →
  tag disk_dev = "disk" →
  ∃ disk_dev',
    device_at xml_doc' i j disk_dev'
    ∧ tag disk_dev' = "disk"
    ∧ attrib disk_dev' = attrib disk_dev
    ∧ findtext disk_dev' "serial" = findtext disk_dev "serial"
    ∧ length (children disk_dev) ≤ length (children disk_dev')
    ∧ ∀ t, t ∈ tag <$> children disk_dev → t ∈ tag <$> children disk_dev'.
Proof.
  intros Hrun Hat Htag.
  pose proof (update_volume_xml_fst get_volume_config migrate_data xml_doc)
    as Hfst.
  rewrite Hrun in Hfst. simpl in Hfst. symmetry in Hfst.
  destruct (pass_device _ _ _ _ _ _ _ Hfst Hat) as (disk' & Hat' & Hv).
  unfold visited in Hv. rewrite (proj2 (has_tag_true _ _) Htag) in Hv.
  destruct (disk_patch_keeps _ _ Hv) as (Ht & Ha & _ & _ & Hs & Hl & Hk).
  exists disk'. split; [done|]. split; [congruence|]. done.
Qed.

(** X21: when the descriptor patch returns, the root keeps its tag, its
    attributes and its number of children, and its children other than
    [devices] are unchanged; every device is where it was, with its tag,
    and is unchanged unless it is a graphics, serial, console or disk
    node. *)
Theorem patch_frame (xml_doc xml_doc' : Element)
    (made : list (ConnInfo * DiskInfo)) :
  get_updated_guest_xml xml_doc migrate_data get_volume_config
  = (Ok xml_doc', made) →
  tag xml_doc' = tag xml_doc ∧ attrib xml_doc' = attrib xml_doc
  ∧ length (children xml_doc') = length (children xml_doc)
  ∧ (∀ i c, children xml_doc !! i = Some c → tag c ≠ "devices" →
            children xml_doc' !! i = Some c)
  ∧ ∀ i j dev,
      device_at xml_doc i j dev →
      ∃ dev', device_at xml_doc' i j dev'
              ∧ tag dev' = tag dev
              ∧ (tag dev ≠ "graphics" → tag dev ≠ "serial" →
                 tag dev ≠ "console" → tag dev ≠ "disk" → dev' = dev).
Proof.
  unfold get_updated_guest_xml.
  destruct (_update_graphics_xml xml_doc migrate_data) as [d1|e] eqn:H1;
    [|done].
  simpl.
  destruct (_update_serial_xml d1 migrate_data) as [d2|e] eqn:H2; [|done].
  intros Hrun.
  pose proof (update_volume_xml_fst get_volume_config migrate_data d2) as H3.
  rewrite Hrun in H3. simpl in H3. symmetry in H3.
  destruct (pass_root _ _ _ _ H1) as (Ht1 & Ha1 & Hl1 & Hc1).
  destruct (serial_patch_devices _ _ _ H2) as (Ht2 & Ha2 & Hl2 & Hc2 & Hd2).
  destruct (pass_root _ _ _ _ H3) as (Ht3 & Ha3 & Hl3 & Hc3).
  split; [congruence|]. split; [congruence|]. split; [congruence|].
  split. { intros i c Hi Hc. apply Hc3; [|done]. apply Hc2; [|done]. auto. }
  intros i j dev Hat.
  destruct (pass_device _ _ _ _ _ _ _ H1 Hat) as (dev1 & Hat1 & Hv1).
  destruct (Hd2 i j dev1 Hat1) as (dev2 & Hat2 & Htag2 & Hid2).
  destruct (pass_device _ _ _ _ _ _ _ H3 Hat2) as (dev3 & Hat3 & Hv3).
  unfold visited in Hv1, Hv3.
  assert (tag dev1 = tag dev) as Htag1.
  { destruct (has_tag "graphics" dev); [|by subst].
    by eapply update_graphics_dev_tag. }
  assert (tag dev3 = tag dev2) as Htag3.
  { destruct (has_tag "disk" dev2); [|by subst].
    by eapply disk_patch_tag. }
  exists dev3. split; [done|]. split; [congruence|].
  intros Hg Hs Hc Hd.
  rewrite (has_tag_other (tag dev) "graphics") in Hv1 by done. subst dev1.
  rewrite (Hid2 (is_tcp_other _ _ _ Hs eq_refl)
                (is_tcp_other _ _ _ Hc eq_refl)) in *.
  rewrite (has_tag_other (tag dev) "disk") in Hv3 by done. by subst.
Qed.

End DiskKeeps.

(** ** save_stats *)

Section SaveStatsProperties.
Context {MR IR : Type}.
Context (save : save_call MR IR → result unit).

Local Open Scope Z_scope.

(** X22: [save_stats] saves the migration before it touches the instance:
    the first call to [save()] is for the migration, which by then holds
    the six counters of the job info and its other fields as they were;
    when that call raises, the exception is the outcome, the instance is
    as it was and no [save()] is made for it. *)
Theorem save_stats_migration_first (instance : InstanceRecord.t IR)
    (migration : Migration.t MR) (info : JobInfo.t) (remaining : Z) :
  let run := save_stats save instance migration info remaining in
  let saved :=
    Migration.mk (JobInfo.memory_total info) (JobInfo.memory_processed info)
                 (JobInfo.memory_remaining info) (JobInfo.disk_total info)
                 (JobInfo.disk_processed info) (JobInfo.disk_remaining info)
                 (Migration.rest migration) in
  migration_after run = saved
  ∧ head (save_calls run) = Some (SaveMigration saved)
  ∧ ∀ e, save (SaveMigration saved) = Raise e →
         raised run = Some e
         ∧ instance_after run = instance
         ∧ save_calls run = [SaveMigration saved].
Proof.
  simpl. unfold save_stats.
  destruct (save (SaveMigration _)) as [[]|e] eqn:Hm.
  - destruct (save (SaveInstance _)) as [[]|e']; simpl;
      repeat split; try done.
  - simpl. repeat split; try done; congruence.
Qed.

(** X23: when [save_stats] returns, the instance was saved last, with a
    progress that adds up to 100 with [remaining], so that the progress is
    a percentage between 0 and 100 exactly when [remaining] is; nothing is
    clamped. *)
Theorem save_stats_progress (instance : InstanceRecord.t IR)
    (migration : Migration.t MR) (info : JobInfo.t) (remaining : Z) :
  raised (save_stats save instance migration info remaining) = None →
  let run := save_stats save instance migration info remaining in
  last (save_calls run) = Some (SaveInstance (instance_after run))
  ∧ InstanceRecord.rest (instance_after run) = InstanceRecord.rest instance
  ∧ InstanceRecord.progress (instance_after run) + remaining = 100
  ∧ (0 ≤ InstanceRecord.progress (instance_after run) ≤ 100
     ↔ 0 ≤ remaining ≤ 100).
Proof.
  simpl. unfold save_stats.
  destruct (save (SaveMigration _)) as [[]|e]; [|done].
  destruct (save (SaveInstance _)) as [[]|e]; [|done].
  simpl. intros _. repeat split; try done; lia.
Qed.

End SaveStatsProperties.

Lemma save_stats_progress_witness :
  let run := save_stats (MR:=unit) (IR:=unit) (λ _, Ok tt)
               (InstanceRecord.mk 0%Z tt)
               (Migration.mk 0 0 0 0 0 0 tt)%Z
               (JobInfo.mk 100 60 40 0 0 0)%Z 40%Z in
  last (save_calls run) = Some (SaveInstance (instance_after run))
  ∧ InstanceRecord.rest (instance_after run) = tt
  ∧ (InstanceRecord.progress (instance_after run) + 40 = 100)%Z
  ∧ ((0 ≤ InstanceRecord.progress (instance_after run) ≤ 100)%Z
     ↔ (0 ≤ 40 ≤ 100)%Z).
Proof.
  apply (save_stats_progress (λ _, Ok tt) (InstanceRecord.mk 0%Z tt)
           (Migration.mk 0 0 0 0 0 0 tt)%Z (JobInfo.mk 100 60 40 0 0 0)%Z
           40%Z).
  reflexivity.
Defined.

(** ** The order of the three patches *)

(** Two passes whose selectors go by different tags, and whose bodies keep
    the tag, can be run in the other order. *)
Lemma pass_swap_tags (sel sel' : Element → bool)
    (body body' : Element → result Element) (t t' : string)
    (xml_doc d1 d2 : Element) :
  t ≠ t' →
  (∀ x, sel x = true → tag x = t) → (∀ x, sel' x = true → tag x = t') →
  (∀ x y, body x = Ok y → tag y = tag x) →
  (∀ x y, body' x = Ok y → tag y = tag x) →
  each_child (has_tag "devices") (each_child sel body) xml_doc = Ok d1 →
  each_child (has_tag "devices") (each_child sel' body') d1 = Ok d2 →
  ∃ d1', each_child (has_tag "devices") (each_child sel' body') xml_doc
         = Ok d1'
         ∧ each_child (has_tag "devices") (each_child sel body) d1' = Ok d2.
Proof.
  intros Hne Hsel Hsel' Hbody Hbody'.
  assert (∀ x, tag x = t → sel' x = false) as Hno'.
  { intros x Hx. apply not_true_iff_false. intros Hs%Hsel'. congruence. }
  assert (∀ x, tag x = t' → sel x = false) as Hno.
  { intros x Hx. apply not_true_iff_false. intros Hs%Hsel. congruence. }
  apply pass_swap.
  - intros x Hx. by apply Hno', Hsel.
  - intros x y Hx Hy. apply Hno'. rewrite (Hbody _ _ Hy). by apply Hsel.
  - intros x y Hx Hy. apply Hno. rewrite (Hbody' _ _ Hy). by apply Hsel'.
Qed.

Section PatchOrder.
Context {ConnInfo DiskInfo : Type}.
Context (get_volume_config : provider ConnInfo DiskInfo).
Context (migrate_data : MigrateData ConnInfo DiskInfo).

Local Abbreviation by_serial := (bdm_info_by_serial (bdms migrate_data)).
Local Abbreviation volume_tree d :=
  ((_update_volume_xml d migrate_data get_volume_config).1).
Local Abbreviation listen_addr := (serial_listen_addr migrate_data).

Lemma is_tcp_tag (name : string) (x : Element) :
  is_tcp name x = true → tag x = name.
Proof. by intros [Hx _]%is_tcp_true. Qed.

Lemma has_tag_tag (t : string) (x : Element) : has_tag t x = true → tag x = t.
Proof. apply has_tag_true. Qed.

Lemma tcp_volume_swap (name : string) (xml_doc d1 d2 : Element) :
  name ≠ "disk" →
  update_tcp_sources name listen_addr xml_doc = Ok d1 →
  volume_tree d1 = Ok d2 →
  ∃ d1', volume_tree xml_doc = Ok d1'
         ∧ update_tcp_sources name listen_addr d1' = Ok d2.
Proof.
  intros Hname H1. rewrite !update_volume_xml_fst. intros H2.
  eapply (pass_swap_tags _ _ _ _ name "disk");
    [done|apply is_tcp_tag|apply has_tag_tag| |apply disk_patch_tag
    |exact H1|exact H2].
  intros x y. apply each_child_tag.
Qed.

Lemma volume_tcp_swap (name : string) (xml_doc d1 d2 : Element) :
  name ≠ "disk" →
  volume_tree xml_doc = Ok d1 →
  update_tcp_sources name listen_addr d1 = Ok d2 →
  ∃ d1', update_tcp_sources name listen_addr xml_doc = Ok d1'
         ∧ volume_tree d1' = Ok d2.
Proof.
  intros Hname. rewrite !update_volume_xml_fst. intros H1 H2.
  setoid_rewrite update_volume_xml_fst.
  eapply (pass_swap_tags _ _ _ _ "disk" name);
    [done|apply has_tag_tag|apply is_tcp_tag|apply disk_patch_tag|
    |exact H1|exact H2].
  intros x y. apply each_child_tag.
Qed.

Lemma graphics_volume_swap (xml_doc d1 d2 : Element) :
  _update_graphics_xml xml_doc migrate_data = Ok d1 →
  volume_tree d1 = Ok d2 →
  ∃ d1', volume_tree xml_doc = Ok d1'
         ∧ _update_graphics_xml d1' migrate_data = Ok d2.
Proof.
  intros H1. rewrite !update_volume_xml_fst. intros H2.
  eapply (pass_swap_tags _ _ _ _ "graphics" "disk");
    [done|apply has_tag_tag|apply has_tag_tag
    |apply update_graphics_dev_tag|apply disk_patch_tag|exact H1|exact H2].
Qed.

Lemma volume_graphics_swap (xml_doc d1 d2 : Element) :
  volume_tree xml_doc = Ok d1 →
  _update_graphics_xml d1 migrate_data = Ok d2 →
  ∃ d1', _update_graphics_xml xml_doc migrate_data = Ok d1'
         ∧ volume_tree d1' = Ok d2.
Proof.
  rewrite !update_volume_xml_fst. intros H1 H2.
  setoid_rewrite update_volume_xml_fst.
  eapply (pass_swap_tags _ _ _ _ "disk" "graphics");
    [done|apply has_tag_tag|apply has_tag_tag
    |apply disk_patch_tag|apply update_graphics_dev_tag|exact H1|exact H2].
Qed.

(** X24: the volume patch can be run before the graphics and serial
    patches instead of after them: one order returns a tree exactly when
    the other does, and the tree is the same. *)
Theorem volume_patch_order (xml_doc xml_doc' : Element) :
  (get_updated_guest_xml xml_doc migrate_data get_volume_config).1
  = Ok xml_doc'
  ↔ (volume_tree xml_doc
       ≫= (λ d, _update_graphics_xml d migrate_data
                  ≫= (λ d, _update_serial_xml d migrate_data)))
    = Ok xml_doc'.
Proof.
  unfold get_updated_guest_xml, _update_serial_xml. split.
  - destruct (_update_graphics_xml xml_doc migrate_data) as [g|e] eqn:Hg;
      [|done]. cbn -[_update_volume_xml].
    destruct (update_tcp_sources "serial" _ g) as [gs|e] eqn:Hs; [|done].
    cbn -[_update_volume_xml].
    destruct (update_tcp_sources "console" _ gs) as [gsc|e] eqn:Hc; [|done].
    intros Hv.
    destruct (tcp_volume_swap "console" _ _ _ ltac:(done) Hc Hv)
      as (gsv & Hv1 & Hc1).
    destruct (tcp_volume_swap "serial" _ _ _ ltac:(done) Hs Hv1)
      as (gv & Hv2 & Hs2).
    destruct (graphics_volume_swap _ _ _ Hg Hv2) as (v & Hv3 & Hg3).
    rewrite Hv3. cbn -[_update_volume_xml]. rewrite Hg3. cbn -[_update_volume_xml]. rewrite Hs2. done.
  - destruct (volume_tree xml_doc) as [v|e] eqn:Hv; [|done]. cbn -[_update_volume_xml].
    destruct (_update_graphics_xml v migrate_data) as [vg|e] eqn:Hg; [|done].
    cbn -[_update_volume_xml].
    destruct (update_tcp_sources "serial" _ vg) as [vgs|e] eqn:Hs; [|done].
    cbn -[_update_volume_xml]. intros Hc.
    destruct (volume_graphics_swap _ _ _ Hv Hg) as (g & Hg1 & Hv1).
    destruct (volume_tcp_swap "serial" _ _ _ ltac:(done) Hv1 Hs)
      as (gs & Hs2 & Hv2).
    destruct (volume_tcp_swap "console" _ _ _ ltac:(done) Hv2 Hc)
      as (gsc & Hc3 & Hv3).
    rewrite Hg1. cbn -[_update_volume_xml]. rewrite Hs2. cbn -[_update_volume_xml]. rewrite Hc3. done.
Qed.

End PatchOrder.

(** ** The further properties on the sample descriptors *)

Lemma sample_graphics_at : device_at sample_domain 0 0 vnc_graphics.
Proof. eexists. repeat split; reflexivity. Qed.

Lemma sample_disk_at : device_at sample_domain 0 2 sample_disk.
Proof. eexists. repeat split; reflexivity. Qed.

Lemma graphics_patch_effect_witness :
  ∃ dev', device_at graphics_patched_domain 0 0 dev'
          ∧ get dev' "listen" = Some "10.0.0.2".
Proof.
  destruct (graphics_patch_effect sample_context sample_domain
              graphics_patched_domain 0 0 vnc_graphics "vnc"
              ltac:(vm_compute; reflexivity) sample_graphics_at
              ltac:(reflexivity) ltac:(reflexivity) ltac:(by left))
    as (dev' & Hat & _ & _ & Hlisten & _).
  exists dev'. split; [exact Hat|exact Hlisten].
Defined.

Lemma graphics_patch_frame_witness :
  device_at graphics_patched_domain 0 2 sample_disk.
Proof.
  destruct (graphics_patch_frame sample_context sample_domain
              graphics_patched_domain ltac:(vm_compute; reflexivity))
    as (_ & _ & _ & _ & Hdev).
  apply (Hdev 0 2 sample_disk sample_disk_at). left. discriminate.
Defined.

Lemma graphics_patch_returns_witness :
  ∃ xml_doc', _update_graphics_xml vnc_domain both_addresses = Ok xml_doc'.
Proof.
  apply (graphics_patch_returns both_addresses vnc_domain).
  intros i j dev gr_type _ _ _ [->| ->]; by eexists.
Defined.

Lemma serial_patch_frame_witness :
  ∃ dev', device_at serial_patched_domain 0 2 dev' ∧ dev' = sample_disk.
Proof.
  destruct (serial_patch_frame sample_context sample_domain
              serial_patched_domain ltac:(vm_compute; reflexivity))
    as (_ & _ & _ & _ & Hdev).
  destruct (Hdev 0 2 sample_disk sample_disk_at)
    as (dev' & Hat & _ & _ & _ & Hid & _).
  exists dev'. split; [exact Hat|]. by apply Hid.
Defined.

Lemma stale_fragment_ignored_witness :
  update_disk_dev stale_provider (bdm_info_by_serial (bdms sample_context))
                  sample_disk (mkVolState [] None)
  = (Ok sample_disk, mkVolState [("iscsi", "vdb")] None).
Proof.
  apply (stale_fragment_ignored stale_provider sample_context sample_disk
           (node "disk" [] [text_leaf "serial" "S9"]) (mkVolState [] None)
           "S1" (mkBDMInfo "S1" (Some "iscsi") "vdb") "iscsi").
  - reflexivity.
  - vm_compute. reflexivity.
  - reflexivity.
  - reflexivity.
  - left. vm_compute. discriminate.
Defined.

Lemma provider_failure_raises_witness :
  ∃ e', (_update_volume_xml sample_domain sample_context failing_provider).1
        = Raise e'.
Proof.
  apply (provider_failure_raises failing_provider sample_context sample_domain
           0 2 sample_disk "S1" (mkBDMInfo "S1" (Some "iscsi") "vdb")
           "iscsi" (OtherError "timeout") sample_disk_at).
  - reflexivity.
  - reflexivity.
  - vm_compute. reflexivity.
  - reflexivity.
  - reflexivity.
Defined.

(** X27: a comment among the children of a disk node makes the volume
    patch raise [TypeError] when the disk has a block device mapping with
    connection info, the provider having been called for it, and is left
    where it is when the disk is passed over. *)
Theorem commented_disk_raises :
  _update_volume_xml commented_domain sample_context sample_provider
  = (Raise TypeError, [("iscsi", "vdb")])
  ∧ _update_volume_xml commented_domain other_context sample_provider
    = (Ok commented_domain, []).
Proof. split; vm_compute; reflexivity. Qed.

Lemma volume_patch_exceptions_witness :
  TypeError = ValueError
  ∨ (TypeError = TypeError
     ∧ ∃ i j disk_dev item_src,
         device_at commented_domain i j disk_dev
         ∧ tag disk_dev = "disk"
         ∧ item_src ∈ children disk_dev
         ∧ is_element item_src = false)
  ∨ ∃ bdm_info conn,
      bdm_info ∈ bdms sample_context
      ∧ connection_info bdm_info = Some conn
      ∧ sample_provider conn (disk_info bdm_info) = Raise TypeError.
Proof.
  apply (volume_patch_exceptions sample_provider sample_context
           commented_domain TypeError).
  vm_compute. reflexivity.
Defined.

Lemma volume_patch_no_bdms_witness :
  _update_volume_xml sample_domain no_addresses (λ _ _, Ok sample_fragment)
  = (Ok sample_domain, []).
Proof.
  apply (volume_patch_no_bdms (λ _ _, Ok sample_fragment) no_addresses
           sample_domain).
  reflexivity.
Defined.

Lemma merge_children_first_witness :
  head (findall [dst_driver; dst_source; dst_serial; dst_iotune; src_address]
                "source")
  = match head (findall (children sample_fragment) "source") with
    | Some d => Some (with_tail None d)
    | None => head (findall (children sample_disk) "source")
    end.
Proof.
  destruct (merge_children_first (children sample_disk)
              (children sample_fragment)
              [dst_driver; dst_source; dst_serial; dst_iotune; src_address]
              (mkVolState (@nil (string * string)) None)
              (mkVolState [] (Some 3))
              ltac:(discriminate) ltac:(vm_compute; reflexivity))
    as [_ Hfirst].
  apply Hfirst. vm_compute. apply list_elem_of_further, list_elem_of_here.
Defined.

Lemma volume_patch_keeps_witness :
  ∃ disk_dev', device_at volume_patched_domain 0 2 disk_dev'
               ∧ findtext disk_dev' "serial" = Some "S1".
Proof.
  destruct (volume_patch_keeps sample_provider sample_context sample_domain
              volume_patched_domain [("iscsi", "vdb")] 0 2 sample_disk
              ltac:(vm_compute; reflexivity) sample_disk_at
              ltac:(reflexivity))
    as (disk' & Hat & _ & _ & Hserial & _).
  exists disk'. split; [exact Hat|]. rewrite Hserial. reflexivity.
Defined.

Lemma patch_frame_witness :
  tag patched_domain = tag sample_domain
  ∧ length (children patched_domain) = length (children sample_domain).
Proof.
  destruct (patch_frame sample_provider sample_context sample_domain
              patched_domain [("iscsi", "vdb")] sample_patch)
    as (Htag & _ & Hlen & _).
  split; [exact Htag|exact Hlen].
Defined.
